(** * vehicle-law-search: the search engine

    A shallow embedding of the [SearchEngine] class (synonym expansion,
    AND/OR query parsing, matching, scoring, preview construction,
    highlighting, display names and data loading) together with the
    properties its specification states about it.

    JavaScript strings are sequences of UTF-16 code units, so a string is a
    [list N]; [length], [substring], [indexOf] and [includes] count code
    units exactly as the engine does.  The two case mappings the engine
    relies on ([String.prototype.toLowerCase] and the canonicalisation of the
    [i] flag of a regular expression) are Unicode tables: they are variables
    of the development, and every general result holds for all of them.
    Concrete evaluations use the ASCII mappings [asciiLower] and
    [asciiCanon], which agree with JavaScript on ASCII text. *)

From Stdlib Require Import Ascii String.
From Stdlib Require Import List NArith ZArith Lia Bool.
From Stdlib Require Import Permutation Sorted.
Import ListNotations.

Set Implicit Arguments.

(** ** JavaScript strings *)

Definition jsstring := list N.

(** An ASCII literal as a JavaScript string. *)
Definition js (s : string) : jsstring :=
  map N_of_ascii (list_ascii_of_string s).

Fixpoint str_eqb (a b : jsstring) : bool :=
  match a, b with
  | [], [] => true
  | x :: a', y :: b' => N.eqb x y && str_eqb a' b'
  | _, _ => false
  end.

(** [s.startsWith(p)]: [p] is a prefix of [s]. *)
Fixpoint startsWith (s p : jsstring) : bool :=
  match p, s with
  | [], _ => true
  | x :: p', y :: s' => N.eqb x y && startsWith s' p'
  | _ :: _, [] => false
  end.

(** [s.includes(p)]. *)
Fixpoint includes (s p : jsstring) : bool :=
  startsWith s p ||
  match s with
  | [] => false
  | _ :: s' => includes s' p
  end.

Fixpoint indexOfFrom (s p : jsstring) (i : nat) : option nat :=
  if startsWith s p then Some i
  else match s with
       | [] => None
       | _ :: s' => indexOfFrom s' p (S i)
       end.

(** [s.indexOf(p)]; [None] stands for [-1]. *)
Definition indexOf (s p : jsstring) : option nat := indexOfFrom s p 0.

(** [s.substring(a, b)]: both indices are clamped to the length and swapped
    when they come in the wrong order. *)
Definition substring (s : jsstring) (a b : nat) : jsstring :=
  let a' := Nat.min a (length s) in
  let b' := Nat.min b (length s) in
  firstn (Nat.max a' b' - Nat.min a' b') (skipn (Nat.min a' b') s).

(** [parts.join(sep)]. *)
Fixpoint join (sep : jsstring) (parts : list jsstring) : jsstring :=
  match parts with
  | [] => []
  | [p] => p
  | p :: rest => p ++ sep ++ join sep rest
  end.

(** The class [\s] of regular expressions, which is also what [trim]
    removes: WhiteSpace and LineTerminator code units. *)
Definition isSpace (c : N) : bool :=
  ((9 <=? c) && (c <=? 13) || (c =? 32) || (c =? 160) || (c =? 5760)
   || (8192 <=? c) && (c <=? 8202) || (c =? 8232) || (c =? 8233)
   || (c =? 8239) || (c =? 8287) || (c =? 12288) || (c =? 65279))%N.

Fixpoint dropSpaces (s : jsstring) : jsstring :=
  match s with
  | c :: s' => if isSpace c then dropSpaces s' else s
  | [] => []
  end.

(** [s.trim()]. *)
Definition trim (s : jsstring) : jsstring :=
  rev (dropSpaces (rev (dropSpaces s))).

(** Length of the longest run of [\s] at the start of [s]. *)
Fixpoint countSpaces (s : jsstring) : nat :=
  match s with
  | c :: s' => if isSpace c then S (countSpaces s') else 0
  | [] => 0
  end.

Definition isDigit (c : N) : bool := ((48 <=? c) && (c <=? 57))%N.
Definition isUpperAZ (c : N) : bool := ((65 <=? c) && (c <=? 90))%N.

(** ** The ASCII case mappings used for concrete evaluations *)

Definition asciiLowerUnit (c : N) : N :=
  if isUpperAZ c then (c + 32)%N else c.

Definition asciiLower (s : jsstring) : jsstring := map asciiLowerUnit s.

Definition asciiCanon (c : N) : N :=
  if ((97 <=? c) && (c <=? 122))%N then (c - 32)%N else c.

(** ** Literals of the source *)

Definition space : jsstring := [32%N].
Definition ellipsis : jsstring := [46; 46; 46]%N.            (* '...' *)
Definition quote : jsstring := [34%N].                       (* the double quote *)
Definition openTag : jsstring :=                            (* the opening span tag *)
  js "<span class=" ++ quote ++ js "highlight" ++ quote ++ js ">".
Definition closeTag : jsstring := js "</span>".
Definition lawTypeStatute : jsstring := [27861; 24459]%N.    (* lawType of a statute *)
Definition lawTypeOrdinance : jsstring := [30465; 20196]%N.  (* lawType of an ordinance *)
Definition labelDetail : jsstring := [32048; 30446; 21578; 31034]%N.
Definition labelStandard : jsstring := [20445; 23433; 22522; 28310]%N.
Definition labelAppendix : jsstring := [21029; 28155]%N.
Definition labelOther : jsstring := [12381; 12398; 20182]%N.
Definition articlePrefix : jsstring := [32; 31532]%N.        (* a space, then the ordinal mark *)
Definition articleSuffix : jsstring := [26465]%N.            (* the article mark *)

(** ** Data model (the four JSON documents and the results) *)

Module Paragraph.
Record t := mk { paragraphNumber : jsstring; content : jsstring }.
End Paragraph.

Module Article.
Record t := mk {
  articleNumber : jsstring;
  title : jsstring;
  content : jsstring;
  paragraphs : list Paragraph.t
}.
End Article.

Module Law.
Record t := mk {
  lawId : jsstring;
  lawName : jsstring;
  lawType : jsstring;
  articles : list Article.t
}.
End Law.

(** A record of [pdf_content.json]; [keywords] and [fullTextLength] may be
    absent. *)
Module Pdf.
Record t := mk {
  id : jsstring;
  title : jsstring;
  content : jsstring;
  keywords : option (list jsstring);
  fullTextLength : option N
}.
End Pdf.

Module PdfMeta.
Record item := mkItem { id : jsstring; url : jsstring }.
Record t := mk { details : list item; appendices : list item }.
End PdfMeta.

Module PdfContent.
Record t := mk {
  standards : list Pdf.t;
  details : list Pdf.t;
  appendices : list Pdf.t;
  other : list Pdf.t
}.
End PdfContent.

(** [Object.entries] of the synonym dictionary, in enumeration order. *)
Definition Synonyms := list (jsstring * list jsstring).

(** The fields of a [SearchEngine] instance. *)
Module Engine.
Record t := mk {
  laws : list Law.t;
  synonyms : Synonyms;
  pdfMetadata : PdfMeta.t;
  pdfContent : PdfContent.t;
  isReady : bool
}.
End Engine.

(** The state the constructor leaves. *)
Definition newEngine : Engine.t :=
  Engine.mk [] [] (PdfMeta.mk [] []) (PdfContent.mk [] [] [] []) false.

(** The object [parseSearchQuery] returns. *)
Inductive ParsedQuery :=
| QueryOR (groups : list (list jsstring)) (originalTerms : list jsstring)
| QueryAND (terms : list jsstring) (originalTerms : list jsstring).

(** The [filters] argument of [search]; the two further switches of its
    default value are read nowhere. *)
Module Filters.
Record t := mk { law : bool; ordinance : bool }.
End Filters.

Definition defaultFilters : Filters.t := Filters.mk true true.

Module ArticleResult.
Record t := mk {
  lawId : jsstring;
  lawName : jsstring;
  lawType : jsstring;
  articleNumber : jsstring;
  title : jsstring;
  content : jsstring;
  paragraphs : list Paragraph.t;
  score : Z;
  highlightedTitle : jsstring;
  highlightedContent : jsstring
}.
End ArticleResult.

Inductive PdfType := standard | detail | appendix | other.

Definition typeLabelOf (ty : PdfType) : jsstring :=
  match ty with
  | standard => labelStandard
  | detail => labelDetail
  | appendix => labelAppendix
  | other => labelOther
  end.

Module PdfResult.
Record t := mk {
  type : PdfType;
  typeLabel : jsstring;
  id : jsstring;
  displayName : jsstring;
  title : jsstring;
  content : jsstring;
  fullContent : jsstring;
  keywords : list jsstring;
  fullTextLength : N;
  score : Z;
  highlightedTitle : jsstring;
  highlightedContent : jsstring;
  url : option jsstring
}.
End PdfResult.

Record SearchResult := {
  articles : list ArticleResult.t;
  pdfs : list PdfResult.t
}.

(** ** [Array.prototype.sort]

    ECMAScript requires [sort] to be stable, so with a comparator
    [(a, b) => key(b) - key(a)] its result is determined: the elements in
    non-increasing key order, equal keys in their former order.  Insertion
    from the right gives exactly that list. *)

Fixpoint insertDesc (A : Type) (key : A -> Z) (x : A) (l : list A) : list A :=
  match l with
  | [] => [x]
  | y :: l' => if (key y <=? key x)%Z then x :: y :: l' else y :: insertDesc key x l'
  end.

Fixpoint sortDesc (A : Type) (key : A -> Z) (l : list A) : list A :=
  match l with
  | [] => []
  | x :: l' => insertDesc key x (sortDesc key l')
  end.

Definition lengthKey (s : jsstring) : Z := Z.of_nat (length s).

(** ** [Set] of strings, in insertion order *)

Definition setAdd (x : jsstring) (terms : list jsstring) : list jsstring :=
  if existsb (str_eqb x) terms then terms else terms ++ [x].

(** [Array.from(new Set(l))]. *)
Definition dedupe (l : list jsstring) : list jsstring :=
  fold_left (fun terms x => setAdd x terms) l [].

(** ** Splitting a query *)

Definition isO (c : N) : bool := ((c =? 79) || (c =? 111))%N.
Definition isR (c : N) : bool := ((c =? 82) || (c =? 114))%N.

(** The separator [/\s+OR\s+/i] tried at the start of [s]: the length of the
    match.  Both [\s+] are greedy, and the letters are no white space, so
    each takes the whole run. *)
Definition matchSeparator (s : jsstring) : option nat :=
  match countSpaces s with
  | O => None
  | S n1 =>
      match skipn (S n1) s with
      | o :: r :: rest =>
          if isO o && isR r then
            match countSpaces rest with
            | O => None
            | S n2 => Some (S n1 + 2 + S n2)
            end
          else None
      | _ => None
      end
  end.

(** [query.split(/\s+OR\s+/i)]: [cur] is the piece being read and [skip] the
    number of code units of a matched separator still to pass. *)
Fixpoint splitOrFrom (s : jsstring) (skip : nat) (cur : jsstring) : list jsstring :=
  match s with
  | [] => [cur]
  | c :: s' =>
      match skip with
      | S k => splitOrFrom s' k cur
      | O =>
          match matchSeparator s with
          | Some n => cur :: splitOrFrom s' (pred n) []
          | None => splitOrFrom s' 0 (cur ++ [c])
          end
      end
  end.

Definition splitOr (query : jsstring) : list jsstring := splitOrFrom query 0 [].

(** [s.split(/\s+/)]: [inRun] tells that the run of white space being read
    has already closed a piece. *)
Fixpoint splitSpacesFrom (s : jsstring) (cur : jsstring) (inRun : bool) : list jsstring :=
  match s with
  | [] => [cur]
  | c :: s' =>
      if isSpace c then
        if inRun then splitSpacesFrom s' [] true
        else cur :: splitSpacesFrom s' [] true
      else splitSpacesFrom s' (cur ++ [c]) false
  end.

Definition splitSpaces (s : jsstring) : list jsstring := splitSpacesFrom s [] false.

(** ** [getPDFUrl] and [formatPDFDisplayName] *)

Definition findUrl (items : list PdfMeta.item) (pdfId : jsstring) : option jsstring :=
  match find (fun item => str_eqb (PdfMeta.id item) pdfId) items with
  | Some meta => match PdfMeta.url meta with [] => None | u => Some u end
  | None => None
  end.

Definition getPDFUrl (e : Engine.t) (pdfId : jsstring) : option jsstring :=
  match findUrl (PdfMeta.details (Engine.pdfMetadata e)) pdfId with
  | Some u => Some u
  | None => findUrl (PdfMeta.appendices (Engine.pdfMetadata e)) pdfId
  end.

Fixpoint takeDigits (s : jsstring) : jsstring :=
  match s with
  | c :: s' => if isDigit c then c :: takeDigits s' else []
  | [] => []
  end.

Fixpoint dropDigits (s : jsstring) : jsstring :=
  match s with
  | c :: s' => if isDigit c then dropDigits s' else s
  | [] => []
  end.

(** [pdfId.match(/^([A-Z])(\d+)(-\d+)?$/)]: the groups [match[1]],
    [match[2]] and [match[3] || ''].  [\d+] is greedy and what follows the
    digits must be the end or the whole suffix. *)
Definition matchPdfId (pdfId : jsstring) : option (N * jsstring * jsstring) :=
  match pdfId with
  | c :: rest =>
      if isUpperAZ c then
        match takeDigits rest with
        | [] => None
        | ds =>
            match dropDigits rest with
            | [] => Some (c, ds, [])
            | d :: ds2 =>
                if (d =? 45)%N && negb (Nat.eqb (length ds2) 0) && forallb isDigit ds2
                then Some (c, ds, d :: ds2)
                else None
            end
        end
      else None
  | [] => None
  end.

(** [parseInt(digits, 10)] on a string of decimal digits.  The engine holds
    the value in a double, which is this integer as long as it is below
    [2^53]. *)
Definition parseInt10 (digits : jsstring) : N :=
  fold_left (fun acc d => (acc * 10 + (d - 48))%N) digits 0%N.

Fixpoint uintUnits (u : Decimal.uint) : jsstring :=
  match u with
  | Decimal.Nil => []
  | Decimal.D0 u' => 48%N :: uintUnits u'
  | Decimal.D1 u' => 49%N :: uintUnits u'
  | Decimal.D2 u' => 50%N :: uintUnits u'
  | Decimal.D3 u' => 51%N :: uintUnits u'
  | Decimal.D4 u' => 52%N :: uintUnits u'
  | Decimal.D5 u' => 53%N :: uintUnits u'
  | Decimal.D6 u' => 54%N :: uintUnits u'
  | Decimal.D7 u' => 55%N :: uintUnits u'
  | Decimal.D8 u' => 56%N :: uintUnits u'
  | Decimal.D9 u' => 57%N :: uintUnits u'
  end.

(** The decimal numeral a template literal prints for an integer below
    [2^53]. *)
Definition numberToString (n : N) : jsstring := uintUnits (N.to_uint n).

Definition formatPDFDisplayName (pdfId : jsstring) : jsstring :=
  match matchPdfId pdfId with
  | None => pdfId
  | Some (prefix, digits, suffix) =>
      let number := parseInt10 digits in
      if (prefix =? 83)%N then                                   (* 'S' *)
        labelDetail ++ articlePrefix ++ numberToString number ++ articleSuffix ++ suffix
      else if (prefix =? 66)%N then                              (* 'B' *)
        labelAppendix ++ numberToString number ++ suffix
      else if (prefix =? 72)%N then                              (* 'H' *)
        labelStandard ++ articlePrefix ++ numberToString number ++ articleSuffix ++ suffix
      else pdfId
  end.

(** ** [loadData]

    What the four requests of one call deliver: a fetch that rejects, a
    body that [json()] rejects, or the parsed document. *)

Inductive Response (Doc : Type) :=
| FetchRejected
| JsonRejected
| Json (doc : Doc).
Arguments FetchRejected {Doc}.
Arguments JsonRejected {Doc}.

(** [pdf_content.json]: every top-level key may be absent. *)
Record PdfData := {
  dataStandards : option (list Pdf.t);
  dataDetails : option (list Pdf.t);
  dataAppendices : option (list Pdf.t);
  dataOther : option (list Pdf.t)
}.

Record Responses := {
  lawsResponse : Response (list Law.t);         (* the [laws] field of the document *)
  synonymsResponse : Response Synonyms;
  pdfMetadataResponse : Response PdfMeta.t;
  pdfContentResponse : Response PdfData
}.

Definition fetchRejected (Doc : Type) (r : Response Doc) : bool :=
  match r with FetchRejected => true | _ => false end.

Definition orEmpty (A : Type) (o : option (list A)) : list A :=
  match o with Some l => l | None => [] end.

(** The new state and the boolean the caller gets.  [Promise.all] rejects
    as soon as one fetch does, before any assignment; after it the bodies
    are parsed and assigned one by one, and an exception leaves the [try]
    block where it is raised. *)
Definition loadData (e : Engine.t) (r : Responses) : Engine.t * bool :=
  if fetchRejected (lawsResponse r) || fetchRejected (synonymsResponse r)
     || fetchRejected (pdfMetadataResponse r) || fetchRejected (pdfContentResponse r)
  then (e, false)
  else
    match lawsResponse r with
    | Json laws =>
        let e1 := Engine.mk laws (Engine.synonyms e) (Engine.pdfMetadata e)
                            (Engine.pdfContent e) (Engine.isReady e) in
        match synonymsResponse r with
        | Json synonyms =>
            let e2 := Engine.mk laws synonyms (Engine.pdfMetadata e)
                                (Engine.pdfContent e) (Engine.isReady e) in
            match pdfMetadataResponse r with
            | Json pdfMetadata =>
                let e3 := Engine.mk laws synonyms pdfMetadata
                                    (Engine.pdfContent e) (Engine.isReady e) in
                match pdfContentResponse r with
                | Json pdfData =>
                    (Engine.mk laws synonyms pdfMetadata
                       (PdfContent.mk (orEmpty (dataStandards pdfData))
                                      (orEmpty (dataDetails pdfData))
                                      (orEmpty (dataAppendices pdfData))
                                      (orEmpty (dataOther pdfData)))
                       true,
                     true)
                | _ => (e3, false)
                end
            | _ => (e2, false)
            end
        | _ => (e1, false)
        end
    | _ => (e, false)
    end.

(** ** [getStats] *)

Record Stats := {
  lawCount : nat;
  articleCount : nat;
  synonymCount : nat;
  standardsCount : nat;
  detailsCount : nat;
  appendicesCount : nat;
  otherCount : nat
}.

(** [None] stands for [null]. *)
Definition getStats (e : Engine.t) : option Stats :=
  if negb (Engine.isReady e) then None
  else
    let totalArticles :=
      fold_left (fun total law => total + length (Law.articles law)) (Engine.laws e) 0 in
    Some {| lawCount := length (Engine.laws e);
            articleCount := totalArticles;
            synonymCount := length (Engine.synonyms e);
            standardsCount := length (PdfContent.standards (Engine.pdfContent e));
            detailsCount := length (PdfContent.details (Engine.pdfContent e));
            appendicesCount := length (PdfContent.appendices (Engine.pdfContent e));
            otherCount := length (PdfContent.other (Engine.pdfContent e)) |}.

(** ** [escapeRegex]

    [str.replace(/[.*+?^${}()|[\]\\]/g, '\\$&')]: a backslash before each
    code unit of the class. *)

Definition isRegexMeta (c : N) : bool :=
  ((c =? 46) || (c =? 42) || (c =? 43) || (c =? 63) || (c =? 94) || (c =? 36)
   || (c =? 123) || (c =? 125) || (c =? 40) || (c =? 41) || (c =? 124)
   || (c =? 91) || (c =? 93) || (c =? 92))%N.

Definition escapeRegex (str : jsstring) : jsstring :=
  flat_map (fun c => if isRegexMeta c then [92%N; c] else [c]) str.

(** The way a pattern source made of plain code units and of escaped syntax
    characters is read: the literal it stands for.  [None] is a source with
    any other syntax in it (a bare syntax character, a backslash before
    something else, a backslash at the end). *)
Fixpoint readLiteral (source : jsstring) : option jsstring :=
  match source with
  | [] => Some []
  | c :: rest =>
      if (c =? 92)%N then
        match rest with
        | d :: rest' =>
            if isRegexMeta d then option_map (cons d) (readLiteral rest') else None
        | [] => None
        end
      else if isRegexMeta c then None
      else option_map (cons c) (readLiteral rest)
  end.

(** ** Results of the older engine, [docs/js/search.js]

    Its PDF results have no display name and no URL. *)

Module LegacyPdfResult.
Record t := mk {
  type : PdfType;
  typeLabel : jsstring;
  id : jsstring;
  title : jsstring;
  content : jsstring;
  fullContent : jsstring;
  keywords : list jsstring;
  fullTextLength : N;
  score : Z;
  highlightedTitle : jsstring;
  highlightedContent : jsstring
}.
End LegacyPdfResult.

Record LegacySearchResult := {
  legacyArticles : list ArticleResult.t;
  legacyPdfs : list LegacyPdfResult.t
}.

(** ** Taking markup out of a string

    Two ways of stripping a highlighted string in one pass:
    [stripMarkup] deletes every occurrence of the opening tag and then every
    occurrence of the closing tag ([s.replaceAll(tag, '')], left to right,
    the result not scanned again); [stripTags] deletes everything from a [<]
    to the next [>] ([s.replace(/<[^>]*>/g, '')]). *)

Fixpoint removeFrom (p s : jsstring) (skip : nat) : jsstring :=
  match s with
  | [] => []
  | c :: s' =>
      match skip with
      | S k => removeFrom p s' k
      | O =>
          if startsWith s p
          then removeFrom p s' (pred (length p))
          else c :: removeFrom p s' 0
      end
  end.

Definition removeAll (p s : jsstring) : jsstring :=
  match p with
  | [] => s
  | _ :: _ => removeFrom p s 0
  end.

Definition stripMarkup (s : jsstring) : jsstring :=
  removeAll closeTag (removeAll openTag s).

(** [held] is the tag read so far, last unit first; a [<] that no [>]
    follows is not a match and stays in the string. *)
Fixpoint stripTagsFrom (s : jsstring) (held : option jsstring) : jsstring :=
  match s with
  | [] => match held with Some tag => rev tag | None => [] end
  | c :: s' =>
      match held with
      | None =>
          if N.eqb c 60 then stripTagsFrom s' (Some [c]) else c :: stripTagsFrom s' None
      | Some tag =>
          if N.eqb c 62 then stripTagsFrom s' None else stripTagsFrom s' (Some (c :: tag))
      end
  end.

Definition stripTags (s : jsstring) : jsstring := stripTagsFrom s None.

(** ** A small corpus for the concrete evaluations *)

Definition sampleSynonyms : Synonyms := [(js "brake", [js "braking system"])].

Definition brakeArticle : Article.t :=
  Article.mk (js "12") (js "Brake pads") (js "Every brake pad is inspected.") [].

Definition sampleLaw : Law.t :=
  Law.mk (js "L1") (js "Road Vehicles Act") lawTypeStatute [brakeArticle].

Definition sampleEngine : Engine.t :=
  Engine.mk [sampleLaw] sampleSynonyms (PdfMeta.mk [] []) (PdfContent.mk [] [] [] []) true.

(** An article without a display number, and a dictionary with an empty
    synonym. *)
Definition unnumberedArticle : Article.t := Article.mk [] (js "t") (js "c") [].

Definition emptySynonymEngine : Engine.t :=
  Engine.mk [Law.mk (js "L2") (js "Act") lawTypeStatute [unnumberedArticle]]
            [(js "k", [[]])] (PdfMeta.mk [] []) (PdfContent.mk [] [] [] []) true.

(** Two PDF records for a query whose expansion is [lamp], [headlight], in
    that order. *)
Definition lampSynonyms : Synonyms := [(js "lamp", [js "headlight"])].

Definition lampPdf : Pdf.t :=
  Pdf.mk (js "H32") (js "Lamp rules") (js "lamp") None None.

Definition longContent : jsstring :=
  js "lamp" ++ repeat 120%N 120 ++ js "headlight" ++ repeat 121%N 100.

Definition longPdf : Pdf.t := Pdf.mk (js "H33") [] longContent None None.

Definition lampEngine : Engine.t :=
  Engine.mk [] lampSynonyms (PdfMeta.mk [] [])
            (PdfContent.mk [lampPdf; longPdf] [] [] []) true.

(** Requests of which the second body is not JSON. *)
Definition brokenSynonyms : Responses :=
  {| lawsResponse := Json [sampleLaw];
     synonymsResponse := JsonRejected;
     pdfMetadataResponse := Json (PdfMeta.mk [] []);
     pdfContentResponse := Json {| dataStandards := None; dataDetails := None;
                                    dataAppendices := None; dataOther := None |} |}.

(** Four documents that arrive, the PDF document with one list only. *)
Definition metaItems : PdfMeta.t :=
  PdfMeta.mk [PdfMeta.mkItem (js "S11") []; PdfMeta.mkItem (js "S12") (js "s12.pdf")]
             [PdfMeta.mkItem (js "S11") (js "b11.pdf")].

Definition goodResponses : Responses :=
  {| lawsResponse := Json [sampleLaw];
     synonymsResponse := Json sampleSynonyms;
     pdfMetadataResponse := Json metaItems;
     pdfContentResponse := Json {| dataStandards := Some [lampPdf; longPdf];
                                    dataDetails := None;
                                    dataAppendices := None; dataOther := None |} |}.

Definition metaEngine : Engine.t :=
  Engine.mk [] [] metaItems (PdfContent.mk [] [] [] []) true.

(** A statute with an article about lamps before the long PDF record. *)
Definition lampLawEngine : Engine.t :=
  Engine.mk [Law.mk (js "L3") (js "Lamp Act") lawTypeStatute
                    [Article.mk (js "1") (js "Lamp") (js "lamp") []]]
            lampSynonyms (PdfMeta.mk [] []) (PdfContent.mk [longPdf] [] [] []) true.

(** ** The engine *)

Section SearchEngine.

(** [String.prototype.toLowerCase], and the canonicalisation by which a
    regular expression with the [i] flag compares code units. *)
Variable toLowerCase : jsstring -> jsstring.
Variable canonicalize : N -> N.

(** *** [expandSynonyms] *)

Definition addEntry (keyLower : jsstring) (synonymsLower terms : list jsstring) : list jsstring :=
  fold_left (fun terms s => setAdd s terms) synonymsLower (setAdd keyLower terms).

Definition expandEntry (query : jsstring) (terms : list jsstring)
    (entry : jsstring * list jsstring) : list jsstring :=
  let keyLower := toLowerCase (fst entry) in
  let synonymsLower := map toLowerCase (snd entry) in
  let terms :=
    if includes (toLowerCase query) keyLower
    then addEntry keyLower synonymsLower terms else terms in
  if existsb (fun s => includes (toLowerCase query) s) synonymsLower
  then addEntry keyLower synonymsLower terms else terms.

Definition expandSynonyms (synonyms : Synonyms) (query : jsstring) : list jsstring :=
  fold_left (expandEntry query) synonyms [toLowerCase query].

(** *** [parseSearchQuery] *)

Definition parseSearchQuery (synonyms : Synonyms) (query : jsstring) : ParsedQuery :=
  let orGroups := splitOr query in
  if Nat.ltb 1 (length orGroups) then
    QueryOR (map (fun group => expandSynonyms synonyms (trim group)) orGroups)
            (map trim orGroups)
  else
    let andTerms := splitSpaces (trim query) in
    QueryAND (dedupe (flat_map (expandSynonyms synonyms) andTerms)) andTerms.

(** *** Regular expressions built from an escaped term

    [new RegExp(escapeRegex(term), 'gi')] matches the code units of [term]
    literally, each compared after canonicalisation. *)

Fixpoint matchesAt (s p : jsstring) : bool :=
  match p, s with
  | [], _ => true
  | x :: p', y :: s' => N.eqb (canonicalize x) (canonicalize y) && matchesAt s' p'
  | _ :: _, [] => false
  end.

(** The number of matches [s.match(regex)] returns with the [g] flag: the
    scan resumes after each match ([skip] counts the code units of the last
    match still to pass), one unit further after an empty one. *)
Fixpoint countMatchesFrom (p s : jsstring) (skip : nat) : nat :=
  match skip with
  | S k =>
      match s with
      | [] => 0
      | _ :: s' => countMatchesFrom p s' k
      end
  | O =>
      if matchesAt s p then
        S (match s with
           | [] => 0
           | _ :: s' => countMatchesFrom p s' (pred (length p))
           end)
      else
        match s with
        | [] => 0
        | _ :: s' => countMatchesFrom p s' 0
        end
  end.

Definition countMatches (s p : jsstring) : nat := countMatchesFrom p s 0.

(** [s.replace(regex, '<span class="highlight">$1</span>')] for a term that
    is not empty: every match, left to right and without overlap, is
    wrapped as it stands in the text. *)
Fixpoint wrapMatchesFrom (p s : jsstring) (skip : nat) : jsstring :=
  match s with
  | [] => []
  | c :: s' =>
      match skip with
      | S k => wrapMatchesFrom p s' k
      | O =>
          if matchesAt s p
          then openTag ++ firstn (length p) s ++ closeTag
                 ++ wrapMatchesFrom p s' (pred (length p))
          else c :: wrapMatchesFrom p s' 0
      end
  end.

Definition wrapMatches (s p : jsstring) : jsstring := wrapMatchesFrom p s 0.

(** *** [highlightText]

    The second component is the content of the caller's [terms] array when
    the call returns: [terms.sort(...)] sorts that array itself. *)

Definition highlightStep (result term : jsstring) : jsstring :=
  if Nat.ltb (length term) 2 then result else wrapMatches result term.

Definition highlightText (text : jsstring) (terms : list jsstring)
    : jsstring * list jsstring :=
  match text, terms with
  | [], _ => (text, terms)
  | _, [] => (text, terms)
  | _, _ =>
      let sortedTerms := sortDesc lengthKey terms in
      (fold_left highlightStep sortedTerms text, sortedTerms)
  end.

(** *** [calculateScore] *)

Definition bonus (b : bool) (points : Z) : Z := if b then points else 0%Z.

Definition termScore (article : Article.t) (content : jsstring) (score : Z)
    (term : jsstring) : Z :=
  let termLower := toLowerCase term in
  let matches := countMatches content termLower in
  (score + Z.of_nat matches * 15
   + bonus (includes (toLowerCase (Article.title article)) termLower) 80
   + bonus (match Article.articleNumber article with
            | [] => false
            | number => includes (toLowerCase number) termLower
            end) 60)%Z.

Definition calculateScore (article : Article.t) (query : jsstring)
    (terms : list jsstring) : Z :=
  let content := toLowerCase (Article.title article ++ space ++ Article.content article) in
  let queryLower := toLowerCase query in
  fold_left (termScore article content) terms (bonus (includes content queryLower) 150).

(** The copy of the engine under [docs/js/search.js] is an older one: its
    [calculateScore] has other weights and no bonus for the display
    number. *)
Definition legacyTermScore (article : Article.t) (content : jsstring) (score : Z)
    (term : jsstring) : Z :=
  let termLower := toLowerCase term in
  let matches := countMatches content termLower in
  (score + Z.of_nat matches * 10
   + bonus (includes (toLowerCase (Article.title article)) termLower) 50)%Z.

Definition legacyCalculateScore (article : Article.t) (query : jsstring)
    (terms : list jsstring) : Z :=
  let content := toLowerCase (Article.title article ++ space ++ Article.content article) in
  let queryLower := toLowerCase query in
  fold_left (legacyTermScore article content) terms (bonus (includes content queryLower) 100).

(** *** Matching one record (the same block in [search] and [searchPDFs])

    In OR mode the matched terms are a fresh array, [[].concat(group)]; in
    AND mode they are [parsedQuery.terms] itself. *)

Fixpoint matchGroups (text : jsstring) (groups : list (list jsstring))
    : bool * list jsstring :=
  match groups with
  | [] => (false, [])
  | group :: rest =>
      if existsb (fun term => includes text (toLowerCase term)) group
      then (true, [] ++ group)
      else matchGroups text rest
  end.

Definition matchRecord (synonyms : Synonyms) (parsedQuery : ParsedQuery)
    (text : jsstring) : bool * list jsstring :=
  match parsedQuery with
  | QueryOR groups _ => matchGroups text groups
  | QueryAND terms originalTerms =>
      if forallb (fun originalTerm =>
                    existsb (fun syn => includes text (toLowerCase syn))
                            (expandSynonyms synonyms originalTerm))
                 originalTerms
      then (true, terms)
      else (false, [])
  end.

(** What [parsedQuery] holds once [highlightText] has sorted
    [matchedTerms]: in AND mode the array is [parsedQuery.terms]. *)
Definition storeTerms (parsedQuery : ParsedQuery) (matchedTerms : list jsstring)
    : ParsedQuery :=
  match parsedQuery with
  | QueryOR groups originalTerms => QueryOR groups originalTerms
  | QueryAND _ originalTerms => QueryAND matchedTerms originalTerms
  end.

(** *** One article of the loop of [search] *)

Definition excerpt (content : jsstring) : jsstring :=
  substring content 0 300 ++ (if Nat.ltb 300 (length content) then ellipsis else []).

Definition searchArticle (synonyms : Synonyms) (query : jsstring) (law : Law.t)
    (parsedQuery : ParsedQuery) (article : Article.t)
    : ParsedQuery * option ArticleResult.t :=
  let content := toLowerCase (Article.title article ++ space ++ Article.content article) in
  let (matches, matchedTerms) := matchRecord synonyms parsedQuery content in
  if matches then
    let score := calculateScore article query matchedTerms in
    let (highlightedTitle, terms1) := highlightText (Article.title article) matchedTerms in
    let (highlightedContent, terms2) := highlightText (excerpt (Article.content article)) terms1 in
    (storeTerms parsedQuery terms2,
     Some (ArticleResult.mk (Law.lawId law) (Law.lawName law) (Law.lawType law)
             (Article.articleNumber article) (Article.title article)
             (Article.content article) (Article.paragraphs article) score
             highlightedTitle highlightedContent))
  else (parsedQuery, None).

(** *** One PDF record of the loop of [searchPDFs] *)

Definition pdfSearchText (pdf : Pdf.t) : jsstring :=
  toLowerCase (Pdf.title pdf ++ space ++ Pdf.content pdf ++ space
               ++ join space (orEmpty (Pdf.keywords pdf))).

Definition pdfTermScore (pdf : Pdf.t) (searchText : jsstring) (score : Z)
    (term : jsstring) : Z :=
  let termLower := toLowerCase term in
  if includes searchText termLower then
    (score + Z.of_nat (countMatches searchText termLower) * 10
     + bonus (includes (toLowerCase (Pdf.title pdf)) termLower) 50
     + bonus (match Pdf.keywords pdf with
              | Some keywords =>
                  existsb (fun kw => includes (toLowerCase kw) termLower) keywords
              | None => false
              end) 30)%Z
  else score.

Definition window (content : jsstring) (index : nat) : jsstring :=
  let start := Z.max 0 (Z.of_nat index - 50) in
  let end_ := Z.min (Z.of_nat (length content)) (Z.of_nat index + 150) in
  ellipsis ++ substring content (Z.to_nat start) (Z.to_nat end_) ++ ellipsis.

Fixpoint scanPreview (content : jsstring) (matchedTerms : list jsstring)
    : option jsstring :=
  match matchedTerms with
  | [] => None
  | term :: rest =>
      match indexOf (toLowerCase content) (toLowerCase term) with
      | Some index =>
          if Nat.ltb index 500 then Some (window content index)
          else scanPreview content rest
      | None => scanPreview content rest
      end
  end.

Definition makePreview (content : jsstring) (matchedTerms : list jsstring) : jsstring :=
  match scanPreview content matchedTerms with
  | Some preview => preview
  | None => substring content 0 200
  end.

Definition searchPdf (e : Engine.t) (category : PdfType)
    (parsedQuery : ParsedQuery) (pdf : Pdf.t) : ParsedQuery * option PdfResult.t :=
  let searchText := pdfSearchText pdf in
  let (matches, matchedTerms) := matchRecord (Engine.synonyms e) parsedQuery searchText in
  if matches then
    let score := fold_left (pdfTermScore pdf searchText) matchedTerms 0%Z in
    let preview := makePreview (Pdf.content pdf) matchedTerms in
    let (highlightedTitle, terms1) := highlightText (Pdf.title pdf) matchedTerms in
    let (highlightedContent, terms2) := highlightText preview terms1 in
    (storeTerms parsedQuery terms2,
     Some (PdfResult.mk category (typeLabelOf category) (Pdf.id pdf)
             (formatPDFDisplayName (Pdf.id pdf)) (Pdf.title pdf) preview
             (Pdf.content pdf) (orEmpty (Pdf.keywords pdf))
             (match Pdf.fullTextLength pdf with
              | Some n => if (n =? 0)%N then N.of_nat (length (Pdf.content pdf)) else n
              | None => N.of_nat (length (Pdf.content pdf))
              end)
             score highlightedTitle highlightedContent
             (getPDFUrl e (Pdf.id pdf))))
  else (parsedQuery, None).

(** *** The loops: the parsed query is one object for the whole call *)

Definition push (A : Type) (results : list A) (r : option A) : list A :=
  match r with Some x => results ++ [x] | None => results end.

Definition pdfLoop (e : Engine.t) (category : PdfType)
    (st : ParsedQuery * list PdfResult.t) (pdf : Pdf.t) : ParsedQuery * list PdfResult.t :=
  let (parsedQuery', r) := searchPdf e category (fst st) pdf in
  (parsedQuery', push (snd st) r).

Definition categories (e : Engine.t) : list (list Pdf.t * PdfType) :=
  [ (PdfContent.standards (Engine.pdfContent e), standard);
    (PdfContent.details (Engine.pdfContent e), detail);
    (PdfContent.appendices (Engine.pdfContent e), appendix);
    (PdfContent.other (Engine.pdfContent e), other) ].

Definition scanPDFs (e : Engine.t) (parsedQuery : ParsedQuery)
    : ParsedQuery * list PdfResult.t :=
  fold_left (fun st category => fold_left (pdfLoop e (snd category)) (fst category) st)
            (categories e) (parsedQuery, []).

Definition searchPDFs (e : Engine.t) (parsedQuery : ParsedQuery) : list PdfResult.t :=
  sortDesc PdfResult.score (snd (scanPDFs e parsedQuery)).

Definition articleLoop (synonyms : Synonyms) (query : jsstring) (law : Law.t)
    (st : ParsedQuery * list ArticleResult.t) (article : Article.t)
    : ParsedQuery * list ArticleResult.t :=
  let (parsedQuery', r) := searchArticle synonyms query law (fst st) article in
  (parsedQuery', push (snd st) r).

Definition lawLoop (synonyms : Synonyms) (query : jsstring) (filters : Filters.t)
    (st : ParsedQuery * list ArticleResult.t) (law : Law.t)
    : ParsedQuery * list ArticleResult.t :=
  if str_eqb (Law.lawType law) lawTypeStatute && negb (Filters.law filters) then st
  else if str_eqb (Law.lawType law) lawTypeOrdinance && negb (Filters.ordinance filters)
       then st
       else fold_left (articleLoop synonyms query law) (Law.articles law) st.

Definition scanLaws (e : Engine.t) (query : jsstring) (filters : Filters.t)
    (parsedQuery : ParsedQuery) : ParsedQuery * list ArticleResult.t :=
  fold_left (lawLoop (Engine.synonyms e) query filters) (Engine.laws e) (parsedQuery, []).

(** *** [search] *)

Definition search (e : Engine.t) (query : jsstring) (filters : Filters.t) : SearchResult :=
  if negb (Engine.isReady e)
     || match query with [] => true | _ => false end
     || Nat.eqb (length (trim query)) 0
  then {| articles := []; pdfs := [] |}
  else
    let parsedQuery := parseSearchQuery (Engine.synonyms e) (trim query) in
    let (parsedQuery', articleResults) := scanLaws e query filters parsedQuery in
    {| articles := sortDesc ArticleResult.score articleResults;
       pdfs := searchPDFs e parsedQuery' |}.

(** *** The older engine, [docs/js/search.js]

    It has no query parser: the whole trimmed query is expanded once, a
    record is taken when any of the terms occurs in it, and that one array
    of terms is what every call of [highlightText] gets (and sorts). *)

Definition legacySearchArticle (query : jsstring) (law : Law.t)
    (terms : list jsstring) (article : Article.t)
    : list jsstring * option ArticleResult.t :=
  let content := toLowerCase (Article.title article ++ space ++ Article.content article) in
  if existsb (fun term => includes content (toLowerCase term)) terms then
    let score := legacyCalculateScore article query terms in
    let (highlightedTitle, terms1) := highlightText (Article.title article) terms in
    let (highlightedContent, terms2) := highlightText (excerpt (Article.content article)) terms1 in
    (terms2,
     Some (ArticleResult.mk (Law.lawId law) (Law.lawName law) (Law.lawType law)
             (Article.articleNumber article) (Article.title article)
             (Article.content article) (Article.paragraphs article) score
             highlightedTitle highlightedContent))
  else (terms, None).

(** The loop over the terms for one PDF record: the score and the terms
    that occur, in the order of the array. *)
Definition legacyPdfStep (pdf : Pdf.t) (searchText : jsstring)
    (st : Z * list jsstring) (term : jsstring) : Z * list jsstring :=
  let termLower := toLowerCase term in
  if includes searchText termLower then
    ((fst st + Z.of_nat (countMatches searchText termLower) * 5
      + bonus (includes (toLowerCase (Pdf.title pdf)) termLower) 30)%Z,
     snd st ++ [term])
  else st.

Definition legacySearchPdf (category : PdfType) (terms : list jsstring) (pdf : Pdf.t)
    : list jsstring * option LegacyPdfResult.t :=
  let searchText := pdfSearchText pdf in
  let (score, matchedTerms) := fold_left (legacyPdfStep pdf searchText) terms (0%Z, []) in
  if (0 <? score)%Z then
    let preview := makePreview (Pdf.content pdf) matchedTerms in
    let (highlightedTitle, terms1) := highlightText (Pdf.title pdf) terms in
    let (highlightedContent, terms2) := highlightText preview terms1 in
    (terms2,
     Some (LegacyPdfResult.mk category (typeLabelOf category) (Pdf.id pdf)
             (Pdf.title pdf) preview (Pdf.content pdf) (orEmpty (Pdf.keywords pdf))
             (match Pdf.fullTextLength pdf with
              | Some n => if (n =? 0)%N then N.of_nat (length (Pdf.content pdf)) else n
              | None => N.of_nat (length (Pdf.content pdf))
              end)
             score highlightedTitle highlightedContent))
  else (terms, None).

Definition legacyPdfLoop (category : PdfType)
    (st : list jsstring * list LegacyPdfResult.t) (pdf : Pdf.t)
    : list jsstring * list LegacyPdfResult.t :=
  let (terms', r) := legacySearchPdf category (fst st) pdf in
  (terms', push (snd st) r).

Definition legacySearchPDFs (e : Engine.t) (terms : list jsstring)
    : list LegacyPdfResult.t :=
  sortDesc LegacyPdfResult.score
    (snd (fold_left (fun st category =>
                       fold_left (legacyPdfLoop (snd category)) (fst category) st)
                    (categories e) (terms, []))).

Definition legacyArticleLoop (query : jsstring) (law : Law.t)
    (st : list jsstring * list ArticleResult.t) (article : Article.t)
    : list jsstring * list ArticleResult.t :=
  let (terms', r) := legacySearchArticle query law (fst st) article in
  (terms', push (snd st) r).

Definition legacyLawLoop (query : jsstring) (filters : Filters.t)
    (st : list jsstring * list ArticleResult.t) (law : Law.t)
    : list jsstring * list ArticleResult.t :=
  if str_eqb (Law.lawType law) lawTypeStatute && negb (Filters.law filters) then st
  else if str_eqb (Law.lawType law) lawTypeOrdinance && negb (Filters.ordinance filters)
       then st
       else fold_left (legacyArticleLoop query law) (Law.articles law) st.

Definition legacySearch (e : Engine.t) (query : jsstring) (filters : Filters.t)
    : LegacySearchResult :=
  if negb (Engine.isReady e)
     || match query with [] => true | _ => false end
     || Nat.eqb (length (trim query)) 0
  then {| legacyArticles := []; legacyPdfs := [] |}
  else
    let terms := expandSynonyms (Engine.synonyms e) (trim query) in
    let (terms', articleResults) :=
      fold_left (legacyLawLoop query filters) (Engine.laws e) (terms, []) in
    {| legacyArticles := sortDesc ArticleResult.score articleResults;
       legacyPdfs := legacySearchPDFs e terms' |}.

(** *** Vocabulary of the statements *)

(** The search text of an article, and of a result rebuilt from its own
    fields. *)
Definition articleText (article : Article.t) : jsstring :=
  toLowerCase (Article.title article ++ space ++ Article.content article).

Definition articleResultText (r : ArticleResult.t) : jsstring :=
  toLowerCase (ArticleResult.title r ++ space ++ ArticleResult.content r).

Definition pdfResultText (r : PdfResult.t) : jsstring :=
  toLowerCase (PdfResult.title r ++ space ++ PdfResult.fullContent r ++ space
               ++ join space (PdfResult.keywords r)).

(** Every expanded term a parsed query holds. *)
Definition queryTerms (parsedQuery : ParsedQuery) : list jsstring :=
  match parsedQuery with
  | QueryOR groups _ => concat groups
  | QueryAND terms _ => terms
  end.

(** A group of an OR query is satisfied by a text when one of its terms
    occurs in it; a token of an AND query when one of its expansions does. *)
Definition groupHit (text : jsstring) (group : list jsstring) : bool :=
  existsb (fun term => includes text (toLowerCase term)) group.

Definition tokenHit (synonyms : Synonyms) (text originalTerm : jsstring) : bool :=
  existsb (fun syn => includes text (toLowerCase syn))
          (expandSynonyms synonyms originalTerm).

(** An entry of the dictionary is taken exactly when its lowercased key, or
    one of its lowercased synonyms, occurs in the lowercased query; its
    words are its lowercased key and synonyms. *)
Definition entryTaken (query : jsstring) (entry : jsstring * list jsstring) : Prop :=
  includes (toLowerCase query) (toLowerCase (fst entry)) = true \/
  exists s, In s (snd entry) /\ includes (toLowerCase query) (toLowerCase s) = true.

Definition entryWord (entry : jsstring * list jsstring) (x : jsstring) : Prop :=
  x = toLowerCase (fst entry) \/ exists s, In s (snd entry) /\ x = toLowerCase s.

(** A string JavaScript takes for true. *)
Definition truthy (s : jsstring) : bool :=
  match s with [] => false | _ => true end.

Definition sumZ (l : list Z) : Z := fold_right Z.add 0%Z l.

(** What one matched term adds to the score of an article, and to the
    score of a PDF record. *)
Definition termPoints (article : Article.t) (term : jsstring) : Z :=
  (Z.of_nat (countMatches (articleText article) (toLowerCase term)) * 15
   + bonus (includes (toLowerCase (Article.title article)) (toLowerCase term)) 80
   + bonus (truthy (Article.articleNumber article)
            && includes (toLowerCase (Article.articleNumber article))
                        (toLowerCase term)) 60)%Z.

Definition pdfTermPoints (pdf : Pdf.t) (searchText term : jsstring) : Z :=
  pdfTermScore pdf searchText 0 term.

(** A term whose first occurrence in the content lies before index 500. *)
Definition qualifies (content term : jsstring) : bool :=
  match indexOf (toLowerCase content) (toLowerCase term) with
  | Some index => Nat.ltb index 500
  | None => false
  end.

(** Undoing the insertions of [highlightText]: one step takes an opening
    tag and a closing tag after it out of the string. *)
Inductive StripsTo : jsstring -> jsstring -> Prop :=
| strips_done : forall s, StripsTo s s
| strips_pair : forall a m b t,
    StripsTo (a ++ m ++ b) t ->
    StripsTo (a ++ openTag ++ m ++ closeTag ++ b) t.

(** The order a comparator [(a, b) => key(b) - key(a)] asks for. *)
Definition descending (A : Type) (key : A -> Z) (a b : A) : Prop := (key b <= key a)%Z.

(** A request that delivered a parsed document; a call of [loadData] in
    which some fetch was rejected, and one in which every request delivered
    its document. *)
Definition isJson (Doc : Type) (r : Response Doc) : bool :=
  match r with Json _ => true | _ => false end.

Definition anyFetchRejected (r : Responses) : bool :=
  fetchRejected (lawsResponse r) || fetchRejected (synonymsResponse r)
  || fetchRejected (pdfMetadataResponse r) || fetchRejected (pdfContentResponse r).

Definition allJson (r : Responses) : bool :=
  isJson (lawsResponse r) && isJson (synonymsResponse r)
  && isJson (pdfMetadataResponse r) && isJson (pdfContentResponse r).

Definition emptyResult : SearchResult := {| articles := []; pdfs := [] |}.

(** The shape [<A-Z><digits>] with an optional [-<digits>] suffix. *)
Definition digitString (ds : jsstring) : Prop :=
  ds <> [] /\ forallb isDigit ds = true.

Definition suffixShape (suffix : jsstring) : Prop :=
  suffix = [] \/ exists ds, suffix = 45%N :: ds /\ digitString ds.

Definition idShape (pdfId : jsstring) : Prop :=
  exists prefix digits suffix,
    pdfId = prefix :: digits ++ suffix /\
    isUpperAZ prefix = true /\ digitString digits /\ suffixShape suffix.

(** Some term of the list has at least one match in the text. *)
Definition termOccurs (text : jsstring) (terms : list jsstring) : Prop :=
  exists term, In term terms /\ 1 <= countMatches text (toLowerCase term).

(** What the parsed query of one call of [search] keeps while the loops
    sort its [terms]: the tokens stay, and the terms stay the same set. *)
Definition queryInvariant (synonyms : Synonyms) (allTerms : list jsstring)
    (parsedQuery : ParsedQuery) : Prop :=
  match parsedQuery with
  | QueryOR groups _ =>
      forall group term, In group groups -> In term group -> In term allTerms
  | QueryAND terms originalTerms =>
      originalTerms <> [] /\
      (forall term, In term terms -> In term allTerms) /\
      (forall token syn,
         In token originalTerms -> In syn (expandSynonyms synonyms token) -> In syn terms)
  end.

(** What holds of every result of a call. *)
Definition goodArticle (allTerms : list jsstring) (r : ArticleResult.t) : Prop :=
  (0 <= ArticleResult.score r)%Z /\ (0 < ArticleResult.score r)%Z /\
  termOccurs (articleResultText r) allTerms.

Definition goodPdf (allTerms : list jsstring) (r : PdfResult.t) : Prop :=
  (0 <= PdfResult.score r)%Z /\ (0 < PdfResult.score r)%Z /\
  termOccurs (pdfResultText r) allTerms.

(** The word OR, in either case, between two runs of white space. *)
Definition blank (w : jsstring) : Prop := w <> [] /\ forallb isSpace w = true.

Definition hasSeparator (query : jsstring) : Prop :=
  exists a w1 o r w2 b,
    query = a ++ w1 ++ o :: r :: w2 ++ b /\
    blank w1 /\ isO o = true /\ isR r = true /\ blank w2.

(** Whether the separator matches at some position of [s]. *)
Fixpoint separatorSomewhere (s : jsstring) : bool :=
  match matchSeparator s with
  | Some _ => true
  | None => match s with [] => false | _ :: s' => separatorSomewhere s' end
  end.

Definition nonSpace (c : N) : bool := negb (isSpace c).

(** The test that makes [search] return at once. *)
Definition searchGuard (e : Engine.t) (query : jsstring) : bool :=
  negb (Engine.isReady e)
  || match query with [] => true | _ => false end
  || Nat.eqb (length (trim query)) 0.

(** A law the two [continue] of the loop of [search] let through. *)
Definition lawAllowed (filters : Filters.t) (law : Law.t) : bool :=
  negb (str_eqb (Law.lawType law) lawTypeStatute && negb (Filters.law filters))
  && negb (str_eqb (Law.lawType law) lawTypeOrdinance && negb (Filters.ordinance filters)).

Definition optList (A : Type) (o : option A) : list A :=
  match o with Some x => [x] | None => [] end.

(** The results a scan gives when every record is looked at with one and
    the same parsed query, the one [parseSearchQuery] returned. *)
Definition articleHits (e : Engine.t) (query : jsstring) (filters : Filters.t)
    (parsedQuery : ParsedQuery) : list ArticleResult.t :=
  flat_map (fun law =>
              if lawAllowed filters law then
                flat_map (fun article =>
                            optList (snd (searchArticle (Engine.synonyms e) query law
                                                        parsedQuery article)))
                         (Law.articles law)
              else [])
           (Engine.laws e).

(** A PDF result with its preview and the highlighted preview blanked. *)
Definition withoutPreview (r : PdfResult.t) : PdfResult.t :=
  PdfResult.mk (PdfResult.type r) (PdfResult.typeLabel r) (PdfResult.id r)
               (PdfResult.displayName r) (PdfResult.title r) []
               (PdfResult.fullContent r) (PdfResult.keywords r)
               (PdfResult.fullTextLength r) (PdfResult.score r)
               (PdfResult.highlightedTitle r) [] (PdfResult.url r).

Definition pdfHits (e : Engine.t) (parsedQuery : ParsedQuery) : list PdfResult.t :=
  flat_map (fun category =>
              flat_map (fun pdf =>
                          optList (option_map withoutPreview
                                     (snd (searchPdf e (snd category) parsedQuery pdf))))
                       (fst category))
           (categories e).

(** The states the array of terms of an AND query goes through: as parsed,
    or sorted; and the parsed query with it. *)
Definition variant (terms current : list jsstring) : Prop :=
  current = terms \/ current = sortDesc lengthKey terms.

Definition sameQuery (parsedQuery current : ParsedQuery) : Prop :=
  match parsedQuery with
  | QueryOR groups originalTerms => current = QueryOR groups originalTerms
  | QueryAND terms originalTerms =>
      exists terms', variant terms terms' /\ current = QueryAND terms' originalTerms
  end.

(** An article result with its score blanked. *)
Definition withoutScore (r : ArticleResult.t) : ArticleResult.t :=
  ArticleResult.mk (ArticleResult.lawId r) (ArticleResult.lawName r)
                   (ArticleResult.lawType r) (ArticleResult.articleNumber r)
                   (ArticleResult.title r) (ArticleResult.content r)
                   (ArticleResult.paragraphs r) 0%Z
                   (ArticleResult.highlightedTitle r) (ArticleResult.highlightedContent r).

Definition legacyArticleHits (e : Engine.t) (query : jsstring) (filters : Filters.t)
    (terms : list jsstring) : list ArticleResult.t :=
  flat_map (fun law =>
              if lawAllowed filters law then
                flat_map (fun article =>
                            optList (snd (legacySearchArticle query law terms article)))
                         (Law.articles law)
              else [])
           (Engine.laws e).

(** What a term that occurs adds to the score of a PDF record in the older
    engine. *)
Definition legacyPdfPoints (pdf : Pdf.t) (searchText term : jsstring) : Z :=
  (Z.of_nat (countMatches searchText (toLowerCase term)) * 5
   + bonus (includes (toLowerCase (Pdf.title pdf)) (toLowerCase term)) 30)%Z.

(** What a result shows is its record's text with tags put in. *)
Definition articleShown (r : ArticleResult.t) : Prop :=
  StripsTo (ArticleResult.highlightedTitle r) (ArticleResult.title r) /\
  StripsTo (ArticleResult.highlightedContent r) (excerpt (ArticleResult.content r)).

Definition pdfShown (r : PdfResult.t) : Prop :=
  StripsTo (PdfResult.highlightedTitle r) (PdfResult.title r) /\
  StripsTo (PdfResult.highlightedContent r) (PdfResult.content r).

(** ** Properties *)

(** *** Strings *)

Lemma str_eqb_eq (a b : jsstring) : str_eqb a b = true <-> a = b.
Proof.
  revert b; induction a as [|x a IH]; intros [|y b]; simpl; split; intro H;
    try reflexivity; try discriminate.
  - apply andb_true_iff in H as [Hx Ha].
    apply N.eqb_eq in Hx. apply IH in Ha. congruence.
  - injection H as -> ->. rewrite N.eqb_refl. simpl. now apply IH.
Qed.

Lemma str_eqb_refl (a : jsstring) : str_eqb a a = true.
Proof. now apply str_eqb_eq. Qed.

Lemma startsWith_iff (s p : jsstring) :
  startsWith s p = true <-> exists r, s = p ++ r.
Proof.
  revert s; induction p as [|x p IH]; intros s.
  - split; [intros _; now exists s | intros _; now destruct s].
  - destruct s as [|y s]; simpl.
    + split; [discriminate | intros [r Hr]; discriminate].
    + rewrite andb_true_iff, N.eqb_eq, IH. split.
      * intros [-> [r ->]]. now exists r.
      * intros [r Hr]. injection Hr as -> ->. split; [reflexivity | now exists r].
Qed.

Lemma startsWith_app (p r : jsstring) : startsWith (p ++ r) p = true.
Proof. apply startsWith_iff. now exists r. Qed.

(** [includes] is the substring relation. *)
Lemma includes_iff (s p : jsstring) :
  includes s p = true <-> exists a b, s = a ++ p ++ b.
Proof.
  induction s as [|c s IH].
  - cbn [includes]. rewrite orb_false_r, startsWith_iff. split.
    + intros [r Hr]. now exists [], r.
    + intros [a [b H]]. destruct a; [now exists b | discriminate].
  - cbn [includes]. rewrite orb_true_iff, startsWith_iff, IH. split.
    + intros [[r Hr] | [a [b H]]].
      * now exists [], r.
      * exists (c :: a), b. now rewrite H.
    + intros [[|c' a] [b H]].
      * left. now exists b.
      * right. injection H as _ H. now exists a, b.
Qed.

Lemma includes_nil (s : jsstring) : includes s [] = true.
Proof. apply includes_iff. now exists [], s. Qed.

Lemma indexOfFrom_shift (s p : jsstring) (i : nat) :
  indexOfFrom s p i = option_map (fun j => i + j) (indexOfFrom s p 0).
Proof.
  revert i; induction s as [|c s IH]; intros i; cbn [indexOfFrom].
  - destruct (startsWith [] p); cbn [option_map]; [f_equal; lia | reflexivity].
  - destruct (startsWith (c :: s) p); cbn [option_map]; [f_equal; lia|].
    rewrite (IH (S i)), (IH 1).
    destruct (indexOfFrom s p 0); cbn [option_map]; [f_equal; lia | reflexivity].
Qed.

(** [indexOf] gives the first position at which the pattern starts. *)
Lemma indexOf_first (s p : jsstring) (i : nat) :
  indexOf s p = Some i ->
  startsWith (skipn i s) p = true /\
  forall j, j < i -> startsWith (skipn j s) p = false.
Proof.
  unfold indexOf. revert i; induction s as [|c s IH]; intros i; cbn [indexOfFrom].
  - destruct (startsWith [] p) eqn:E; [|discriminate].
    intros [= <-]. split; [exact E | intros j Hj; lia].
  - destruct (startsWith (c :: s) p) eqn:E.
    + intros [= <-]. split; [exact E | intros j Hj; lia].
    + rewrite indexOfFrom_shift. destruct (indexOfFrom s p 0) as [k|]; [|discriminate].
      cbn [option_map]. intros [= <-]. destruct (IH k eq_refl) as [H1 H2].
      split; [exact H1|].
      intros [|j] Hj; cbn [skipn]; [exact E | apply H2; lia].
Qed.

Lemma indexOf_none (s p : jsstring) :
  indexOf s p = None <-> includes s p = false.
Proof.
  unfold indexOf. induction s as [|c s IH]; cbn [indexOfFrom includes].
  - destruct (startsWith [] p); cbn; split; congruence.
  - destruct (startsWith (c :: s) p); cbn [orb]; [split; congruence|].
    rewrite indexOfFrom_shift. destruct (indexOfFrom s p 0); cbn [option_map] in *.
    + split; [discriminate|]. intro H. apply IH in H. discriminate.
    + split; [intros _; now apply IH | reflexivity].
Qed.

Lemma substring_prefix (s : jsstring) (n : nat) : substring s 0 n = firstn n s.
Proof.
  unfold substring. cbn [Nat.min Nat.max skipn]. rewrite Nat.sub_0_r.
  destruct (Nat.le_ge_cases n (length s)) as [H|H].
  - now rewrite Nat.min_l.
  - rewrite Nat.min_r by exact H. now rewrite !firstn_all2.
Qed.

(** With its indices in order, [substring] is the slice between them. *)
Lemma substring_slice (s : jsstring) (a b : nat) :
  a <= b -> substring s a b = firstn (b - a) (skipn a s).
Proof.
  intro H. unfold substring.
  destruct (Nat.le_ge_cases b (length s)) as [Hb | Hb].
  - rewrite (Nat.min_l a), (Nat.min_l b), Nat.max_r, Nat.min_l by lia. reflexivity.
  - rewrite (Nat.min_r b) by lia.
    destruct (Nat.le_ge_cases a (length s)) as [Ha | Ha].
    + rewrite (Nat.min_l a), Nat.max_r, Nat.min_l by lia.
      rewrite !firstn_all2; [reflexivity | | ]; rewrite length_skipn; lia.
    + rewrite (Nat.min_r a), Nat.max_r, Nat.min_l by lia.
      rewrite !skipn_all2 by lia. now rewrite !firstn_nil.
Qed.

(** *** Sorting *)

Section Sorting.
Variable A : Type.
Variable key : A -> Z.

Lemma insertDesc_perm (x : A) (l : list A) : Permutation (x :: l) (insertDesc key x l).
Proof.
  induction l as [|y l IH]; simpl; [reflexivity|].
  destruct (key y <=? key x)%Z; [reflexivity|].
  rewrite perm_swap. now constructor.
Qed.

Lemma sortDesc_perm (l : list A) : Permutation l (sortDesc key l).
Proof.
  induction l as [|x l IH]; simpl; [constructor|].
  rewrite <- insertDesc_perm. now constructor.
Qed.

Lemma sortDesc_In (x : A) (l : list A) : In x (sortDesc key l) <-> In x l.
Proof.
  split; apply Permutation_in; [symmetry|]; apply sortDesc_perm.
Qed.

Lemma insertDesc_sorted (x : A) (l : list A) :
  StronglySorted (descending key) l -> StronglySorted (descending key) (insertDesc key x l).
Proof.
  induction l as [|y l IH]; simpl; intro H.
  - repeat constructor.
  - inversion H as [|? ? Hs Hf]; subst.
    destruct (key y <=? key x)%Z eqn:E.
    + apply Z.leb_le in E. constructor; [exact H|].
      constructor; [exact E|].
      eapply Forall_impl; [|exact Hf]. unfold descending. intros; lia.
    + apply Z.leb_gt in E. constructor; [now apply IH|].
      eapply Permutation_Forall; [apply insertDesc_perm|].
      constructor; [unfold descending; lia | exact Hf].
Qed.

Lemma sortDesc_sorted (l : list A) : StronglySorted (descending key) (sortDesc key l).
Proof.
  induction l as [|x l IH]; simpl; [constructor | now apply insertDesc_sorted].
Qed.

(** Sorting again changes nothing: a second [sort] of the same array
    leaves the order the first one made. *)
Lemma sortDesc_fixed (l : list A) : StronglySorted (descending key) l -> sortDesc key l = l.
Proof.
  induction l as [|x l IH]; simpl; intro H; [reflexivity|].
  inversion H as [|? ? Hs Hf]; subst. rewrite IH by exact Hs.
  destruct l as [|y l]; simpl; [reflexivity|].
  inversion Hf as [|? ? Hy _]; subst. unfold descending in Hy.
  apply Z.leb_le in Hy. now rewrite Hy.
Qed.

Lemma sortDesc_idempotent (l : list A) : sortDesc key (sortDesc key l) = sortDesc key l.
Proof. apply sortDesc_fixed, sortDesc_sorted. Qed.

End Sorting.

(** *** Sets of terms *)

Lemma setAdd_In (x y : jsstring) (terms : list jsstring) :
  In y (setAdd x terms) <-> y = x \/ In y terms.
Proof.
  unfold setAdd. destruct (existsb (str_eqb x) terms) eqn:E.
  - apply existsb_exists in E as [z [Hz Hxz]]. apply str_eqb_eq in Hxz. subst z.
    split; [now right | intros [-> | H]; assumption].
  - rewrite in_app_iff. simpl. split.
    + intros [H | [<- | []]]; [now right | now left].
    + intros [-> | H]; [right; now left | now left].
Qed.

Lemma fold_setAdd_In (y : jsstring) (l acc : list jsstring) :
  In y (fold_left (fun terms x => setAdd x terms) l acc) <-> In y l \/ In y acc.
Proof.
  revert acc; induction l as [|x l IH]; intros acc; simpl; [tauto|].
  rewrite IH, setAdd_In. intuition congruence.
Qed.

Lemma addEntry_In (keyLower y : jsstring) (synonymsLower terms : list jsstring) :
  In y (addEntry keyLower synonymsLower terms) <->
  y = keyLower \/ In y synonymsLower \/ In y terms.
Proof.
  unfold addEntry. rewrite fold_setAdd_In, setAdd_In. tauto.
Qed.

Lemma dedupe_In (y : jsstring) (l : list jsstring) : In y (dedupe l) <-> In y l.
Proof.
  unfold dedupe. rewrite fold_setAdd_In. simpl. tauto.
Qed.

(** *** [expandSynonyms] *)

Lemma expandEntry_In (query y : jsstring) (terms : list jsstring)
    (entry : jsstring * list jsstring) :
  In y (expandEntry query terms entry) <->
  In y terms \/ (entryTaken query entry /\ entryWord entry y).
Proof.
  unfold expandEntry, entryTaken, entryWord.
  assert (Hsyn : forall x, In x (map toLowerCase (snd entry))
                           <-> exists s, In s (snd entry) /\ x = toLowerCase s).
  { intro x. rewrite in_map_iff. split; intros [s [H1 H2]]; exists s; auto. }
  assert (Hex : existsb (fun s => includes (toLowerCase query) s)
                        (map toLowerCase (snd entry)) = true
                <-> exists s, In s (snd entry)
                              /\ includes (toLowerCase query) (toLowerCase s) = true).
  { rewrite existsb_exists. split.
    - intros [x [Hx Hi]]. apply Hsyn in Hx as [s [Hs ->]]. now exists s.
    - intros [s [Hs Hi]]. exists (toLowerCase s). split; [|exact Hi].
      apply Hsyn. now exists s. }
  destruct (includes (toLowerCase query) (toLowerCase (fst entry))) eqn:Ek;
    destruct (existsb _ (map toLowerCase (snd entry))) eqn:Es;
    rewrite ?addEntry_In, ?Hsyn.
  - pose proof (proj1 Hex eq_refl). intuition.
  - intuition.
  - pose proof (proj1 Hex eq_refl). intuition.
  - split; [tauto|].
    intros [H | [[H | H] _]]; [exact H | discriminate | apply Hex in H; discriminate].
Qed.

Lemma expandSynonyms_In (synonyms : Synonyms) (query y : jsstring) :
  In y (expandSynonyms synonyms query) <->
  y = toLowerCase query \/
  exists entry, In entry synonyms /\ entryTaken query entry /\ entryWord entry y.
Proof.
  unfold expandSynonyms.
  assert (G : forall acc,
             In y (fold_left (expandEntry query) synonyms acc) <->
             In y acc \/
             exists entry, In entry synonyms /\ entryTaken query entry /\ entryWord entry y).
  { induction synonyms as [|entry l IH]; intros acc; simpl.
    - split; [tauto | intros [H | [e [[] _]]]; exact H].
    - rewrite IH, expandEntry_In. split.
      + intros [[H | [H1 H2]] | [e [He H]]].
        * now left.
        * right. exists entry. auto.
        * right. exists e. auto.
      + intros [H | [e [[<- | He] [H1 H2]]]].
        * left. now left.
        * left. right. auto.
        * right. exists e. auto. }
  rewrite G. simpl. intuition congruence.
Qed.

(** What [expandSynonyms] computes: the expansion always holds the
    lowercased query, and besides it exactly the lowercased key and synonyms
    of the entries whose lowercased key, or one of whose lowercased
    synonyms, is a substring of the lowercased query.  Both tests look for
    the dictionary word inside the query; the comment above the second one
    describes the converse test, the query inside a synonym. *)
Theorem expandSynonyms_spec (synonyms : Synonyms) (query : jsstring) :
  In (toLowerCase query) (expandSynonyms synonyms query) /\
  forall x,
    In x (expandSynonyms synonyms query) <->
    x = toLowerCase query \/
    exists key syns,
      In (key, syns) synonyms /\
      (includes (toLowerCase query) (toLowerCase key) = true \/
       exists s, In s syns /\ includes (toLowerCase query) (toLowerCase s) = true) /\
      (x = toLowerCase key \/ exists s, In s syns /\ x = toLowerCase s).
Proof.
  split; [apply expandSynonyms_In; now left|].
  intro x. rewrite expandSynonyms_In. unfold entryTaken, entryWord. split.
  - intros [H | [[key syns] [He [Ht Hw]]]]; [now left|].
    right. exists key, syns. auto.
  - intros [H | [key [syns [He [Ht Hw]]]]]; [now left|].
    right. exists (key, syns). auto.
Qed.

(** *** Matching *)

Lemma searchArticle_eq (synonyms : Synonyms) (query : jsstring) (l : Law.t)
    (parsedQuery : ParsedQuery) (article : Article.t) :
  searchArticle synonyms query l parsedQuery article =
  let m := matchRecord synonyms parsedQuery (articleText article) in
  let h1 := highlightText (Article.title article) (snd m) in
  let h2 := highlightText (excerpt (Article.content article)) (snd h1) in
  if fst m then
    (storeTerms parsedQuery (snd h2),
     Some (ArticleResult.mk (Law.lawId l) (Law.lawName l) (Law.lawType l)
             (Article.articleNumber article) (Article.title article)
             (Article.content article) (Article.paragraphs article)
             (calculateScore article query (snd m)) (fst h1) (fst h2)))
  else (parsedQuery, None).
Proof.
  unfold searchArticle, articleText. cbv zeta.
  destruct (matchRecord synonyms parsedQuery _) as [matches matchedTerms].
  cbn [fst snd]. destruct matches; [|reflexivity].
  destruct (highlightText (Article.title article) matchedTerms) as [t1 m1].
  cbn [fst snd]. now destruct (highlightText _ m1).
Qed.

Lemma searchPdf_eq (e : Engine.t) (category : PdfType) (parsedQuery : ParsedQuery)
    (pdf : Pdf.t) :
  searchPdf e category parsedQuery pdf =
  let m := matchRecord (Engine.synonyms e) parsedQuery (pdfSearchText pdf) in
  let preview := makePreview (Pdf.content pdf) (snd m) in
  let h1 := highlightText (Pdf.title pdf) (snd m) in
  let h2 := highlightText preview (snd h1) in
  if fst m then
    (storeTerms parsedQuery (snd h2),
     Some (PdfResult.mk category (typeLabelOf category) (Pdf.id pdf)
             (formatPDFDisplayName (Pdf.id pdf)) (Pdf.title pdf) preview
             (Pdf.content pdf) (orEmpty (Pdf.keywords pdf))
             (match Pdf.fullTextLength pdf with
              | Some n => if (n =? 0)%N then N.of_nat (length (Pdf.content pdf)) else n
              | None => N.of_nat (length (Pdf.content pdf))
              end)
             (fold_left (pdfTermScore pdf (pdfSearchText pdf)) (snd m) 0%Z)
             (fst h1) (fst h2) (getPDFUrl e (Pdf.id pdf))))
  else (parsedQuery, None).
Proof.
  unfold searchPdf. cbv zeta.
  destruct (matchRecord (Engine.synonyms e) parsedQuery _) as [matches matchedTerms].
  cbn [fst snd]. destruct matches; [|reflexivity].
  destruct (highlightText (Pdf.title pdf) matchedTerms) as [t1 m1].
  cbn [fst snd]. now destruct (highlightText _ m1).
Qed.

(** A record is pushed exactly when the matching block sets [matches]. *)
Lemma searchArticle_some (synonyms : Synonyms) (query : jsstring) (l : Law.t)
    (parsedQuery : ParsedQuery) (article : Article.t) :
  (exists r, snd (searchArticle synonyms query l parsedQuery article) = Some r) <->
  fst (matchRecord synonyms parsedQuery (articleText article)) = true.
Proof.
  rewrite searchArticle_eq. cbv zeta.
  destruct (fst (matchRecord synonyms parsedQuery (articleText article))); cbn [snd].
  - split; [reflexivity | intros _; eexists; reflexivity].
  - split; [intros [r H]; discriminate | discriminate].
Qed.

Lemma searchPdf_some (e : Engine.t) (category : PdfType) (parsedQuery : ParsedQuery)
    (pdf : Pdf.t) :
  (exists r, snd (searchPdf e category parsedQuery pdf) = Some r) <->
  fst (matchRecord (Engine.synonyms e) parsedQuery (pdfSearchText pdf)) = true.
Proof.
  rewrite searchPdf_eq. cbv zeta.
  destruct (fst (matchRecord (Engine.synonyms e) parsedQuery (pdfSearchText pdf))); cbn [snd].
  - split; [reflexivity | intros _; eexists; reflexivity].
  - split; [intros [r H]; discriminate | discriminate].
Qed.

Lemma matchGroups_first (text : jsstring) (groups : list (list jsstring)) :
  (fst (matchGroups text groups) = true /\
   exists before after,
     groups = before ++ snd (matchGroups text groups) :: after /\
     Forall (fun g => groupHit text g = false) before /\
     groupHit text (snd (matchGroups text groups)) = true)
  \/
  (matchGroups text groups = (false, []) /\
   Forall (fun g => groupHit text g = false) groups).
Proof.
  induction groups as [|g groups IH]; simpl.
  - right. split; [reflexivity | constructor].
  - fold (groupHit text g). destruct (groupHit text g) eqn:E; cbn [fst snd].
    + left. split; [reflexivity|]. exists [], groups. repeat split; [constructor | exact E].
    + destruct IH as [[H1 [before [after [H2 [H3 H4]]]]] | [H1 H2]].
      * left. split; [exact H1|]. exists (g :: before), after.
        split; [simpl; now rewrite <- H2|]. split; [now constructor | exact H4].
      * right. split; [exact H1 | now constructor].
Qed.

Lemma groupHit_iff (text : jsstring) (group : list jsstring) :
  groupHit text group = true <->
  exists term, In term group /\ includes text (toLowerCase term) = true.
Proof. unfold groupHit. apply existsb_exists. Qed.

Lemma matchGroups_true (text : jsstring) (groups : list (list jsstring)) :
  fst (matchGroups text groups) = true <->
  exists group, In group groups /\ groupHit text group = true.
Proof.
  destruct (matchGroups_first text groups) as [[H1 [before [after [H2 [H3 H4]]]]] | [H1 H2]].
  - split; [intros _ | intros _; exact H1].
    exists (snd (matchGroups text groups)). split; [|exact H4].
    rewrite H2 at 2. apply in_elt.
  - rewrite H1. cbn [fst]. split; [discriminate|].
    intros [g [Hg Hh]]. rewrite Forall_forall in H2. rewrite (H2 g Hg) in Hh. discriminate.
Qed.

Lemma tokenHit_iff (synonyms : Synonyms) (text token : jsstring) :
  tokenHit synonyms text token = true <->
  exists syn, In syn (expandSynonyms synonyms token) /\
              includes text (toLowerCase syn) = true.
Proof. unfold tokenHit. apply existsb_exists. Qed.

Lemma matchRecord_and (synonyms : Synonyms) (terms originalTerms : list jsstring)
    (text : jsstring) :
  matchRecord synonyms (QueryAND terms originalTerms) text =
  if forallb (tokenHit synonyms text) originalTerms then (true, terms) else (false, []).
Proof. reflexivity. Qed.

(** C1 (as the code has it): in OR mode an article or a PDF record is
    matched exactly when some group has at least one of its expanded terms
    in the record's search text (not all of them); the matched terms are
    those of the first such group, and no later group is looked at. *)
Theorem or_mode_matching (synonyms : Synonyms) (groups : list (list jsstring))
    (originalTerms : list jsstring) :
  let parsedQuery := QueryOR groups originalTerms in
  let hit := fun text group =>
    exists term, In term group /\ includes text (toLowerCase term) = true in
  (forall query l article,
     (exists r, snd (searchArticle synonyms query l parsedQuery article) = Some r) <->
     exists group, In group groups /\ hit (articleText article) group) /\
  (forall e category pdf,
     (exists r, snd (searchPdf e category parsedQuery pdf) = Some r) <->
     exists group, In group groups /\ hit (pdfSearchText pdf) group) /\
  (forall text,
     fst (matchRecord synonyms parsedQuery text) = true ->
     exists before after,
       groups = before ++ snd (matchRecord synonyms parsedQuery text) :: after /\
       Forall (fun group => ~ hit text group) before /\
       hit text (snd (matchRecord synonyms parsedQuery text))).
Proof.
  cbv zeta.
  assert (G : forall text,
             fst (matchGroups text groups) = true <->
             exists group, In group groups /\
               exists term, In term group /\ includes text (toLowerCase term) = true).
  { intro text. rewrite matchGroups_true. split; intros [g [Hg Hh]]; exists g;
      (split; [exact Hg | now apply groupHit_iff]). }
  split; [|split].
  - intros query l article. rewrite searchArticle_some. apply G.
  - intros e category pdf. rewrite searchPdf_some. apply G.
  - intros text H. cbn [matchRecord] in *.
    destruct (matchGroups_first text groups) as [[_ [before [after [H2 [H3 H4]]]]] | [H1 _]].
    + exists before, after. split; [exact H2|]. split; [|now apply groupHit_iff].
      eapply Forall_impl; [|exact H3]. intros g Hg Hhit.
      apply groupHit_iff in Hhit. congruence.
    + rewrite H1 in H. discriminate.
Qed.

(** C2: in AND mode an article or a PDF record is matched exactly when every
    original token has one of its synonym expansions in the record's search
    text.  The expansion is computed from the token for each candidate: the
    globally expanded [terms] of the parsed query play no part in the test,
    whatever they are. *)
Theorem and_mode_matching (synonyms : Synonyms) (terms originalTerms : list jsstring) :
  let parsedQuery := QueryAND terms originalTerms in
  let hit := fun dictionary text token =>
    exists syn, In syn (expandSynonyms dictionary token) /\
                includes text (toLowerCase syn) = true in
  (forall query l article,
     (exists r, snd (searchArticle synonyms query l parsedQuery article) = Some r) <->
     Forall (hit synonyms (articleText article)) originalTerms) /\
  (forall e category pdf,
     (exists r, snd (searchPdf e category parsedQuery pdf) = Some r) <->
     Forall (hit (Engine.synonyms e) (pdfSearchText pdf)) originalTerms).
Proof.
  cbv zeta.
  assert (G : forall dictionary text,
             fst (matchRecord dictionary (QueryAND terms originalTerms) text) = true <->
             Forall (fun token =>
                       exists syn, In syn (expandSynonyms dictionary token) /\
                                   includes text (toLowerCase syn) = true)
                    originalTerms).
  { intros dictionary text. rewrite matchRecord_and.
    destruct (forallb (tokenHit dictionary text) originalTerms) eqn:E; cbn [fst].
    - split; [intros _ | reflexivity].
      rewrite forallb_forall in E. apply Forall_forall. intros token Ht.
      apply tokenHit_iff. now apply E.
    - split; [discriminate|]. intro H. rewrite Forall_forall in H.
      assert (E' : forallb (tokenHit dictionary text) originalTerms = true).
      { apply forallb_forall. intros token Ht. apply tokenHit_iff. now apply H. }
      congruence. }
  split.
  - intros query l article. rewrite searchArticle_some. apply G.
  - intros e category pdf. rewrite searchPdf_some. apply G.
Qed.

(** *** Scores *)

Lemma fold_left_add (A : Type) (f : Z -> A -> Z) (g : A -> Z) (l : list A) (init : Z) :
  (forall score x, f score x = score + g x)%Z ->
  fold_left f l init = (init + sumZ (map g l))%Z.
Proof.
  intro H. revert init; induction l as [|x l IH]; intros init; simpl; [lia|].
  rewrite IH, H. lia.
Qed.

Lemma calculateScore_sum (article : Article.t) (query : jsstring) (terms : list jsstring) :
  calculateScore article query terms =
  (bonus (includes (articleText article) (toLowerCase query)) 150
   + sumZ (map (termPoints article) terms))%Z.
Proof.
  unfold calculateScore. apply fold_left_add.
  intros score term. unfold termScore, termPoints, articleText, truthy.
  destruct (Article.articleNumber article); cbn [andb]; lia.
Qed.

Lemma legacyCalculateScore_sum (article : Article.t) (query : jsstring)
    (terms : list jsstring) :
  legacyCalculateScore article query terms =
  (bonus (includes (articleText article) (toLowerCase query)) 100
   + sumZ (map (fun term =>
        Z.of_nat (countMatches (articleText article) (toLowerCase term)) * 10
        + bonus (includes (toLowerCase (Article.title article)) (toLowerCase term)) 50)
      terms))%Z.
Proof.
  unfold legacyCalculateScore. apply fold_left_add.
  intros score term. unfold legacyTermScore, articleText. lia.
Qed.

(** C3 (as the code has it): the score of a matched article is 150 if the
    lowercased query occurs in the lowercased title, space and content, plus
    for each matched term 15 for every match of the term there, 80 if the
    term occurs in the title, and 60 if the article has a display number
    that is not empty and the term occurs in it. *)
Theorem article_score (synonyms : Synonyms) (query : jsstring) (l : Law.t)
    (parsedQuery parsedQuery' : ParsedQuery) (article : Article.t)
    (r : ArticleResult.t) :
  searchArticle synonyms query l parsedQuery article = (parsedQuery', Some r) ->
  let text := toLowerCase (Article.title article ++ space ++ Article.content article) in
  let matchedTerms := snd (matchRecord synonyms parsedQuery text) in
  ArticleResult.score r =
  (bonus (includes text (toLowerCase query)) 150
   + sumZ (map (fun term =>
        Z.of_nat (countMatches text (toLowerCase term)) * 15
        + bonus (includes (toLowerCase (Article.title article)) (toLowerCase term)) 80
        + bonus (truthy (Article.articleNumber article)
                 && includes (toLowerCase (Article.articleNumber article))
                             (toLowerCase term)) 60)
      matchedTerms))%Z.
Proof.
  rewrite searchArticle_eq. cbv zeta. fold (articleText article).
  destruct (fst (matchRecord synonyms parsedQuery (articleText article))); [|discriminate].
  intros [= _ <-]. cbn [ArticleResult.score]. apply calculateScore_sum.
Qed.

(** *** [loadData] *)

Lemma search_not_ready (e : Engine.t) (query : jsstring) (filters : Filters.t) :
  Engine.isReady e = false -> search e query filters = emptyResult.
Proof. intro H. unfold search. now rewrite H. Qed.

Lemma loadData_success (e : Engine.t) (r : Responses) :
  allJson r = true ->
  snd (loadData e r) = true /\ Engine.isReady (fst (loadData e r)) = true.
Proof.
  unfold allJson, loadData. destruct r as [[| |l] [| |s] [| |m] [| |c]]; cbn;
    intro H; try discriminate. now split.
Qed.

(** C5 (as the code has it): when a fetch or a parse fails, [loadData]
    returns [false] and leaves the ready flag and the PDF content as they
    were; a rejected fetch leaves the whole state as it was, but a rejected
    parse comes after the documents before it (laws, then synonyms, then PDF
    metadata) have been stored.  An engine that was not ready stays so, and
    its [search] returns empty result sets. *)
Theorem loadData_failure (e : Engine.t) (r : Responses) :
  allJson r = false ->
  let e' := fst (loadData e r) in
  snd (loadData e r) = false /\
  Engine.isReady e' = Engine.isReady e /\
  Engine.pdfContent e' = Engine.pdfContent e /\
  (anyFetchRejected r = true -> e' = e) /\
  (isJson (lawsResponse r) = false -> e' = e) /\
  (anyFetchRejected r = false ->
   forall laws, lawsResponse r = Json laws ->
     Engine.laws e' = laws /\
     (isJson (synonymsResponse r) = false ->
      Engine.synonyms e' = Engine.synonyms e /\
      Engine.pdfMetadata e' = Engine.pdfMetadata e) /\
     forall synonyms, synonymsResponse r = Json synonyms ->
       Engine.synonyms e' = synonyms /\
       (isJson (pdfMetadataResponse r) = false ->
        Engine.pdfMetadata e' = Engine.pdfMetadata e) /\
       forall pdfMetadata, pdfMetadataResponse r = Json pdfMetadata ->
         Engine.pdfMetadata e' = pdfMetadata) /\
  (Engine.isReady e = false ->
   forall query filters, search e' query filters = emptyResult).
Proof.
  intros Hfail e'.
  assert (Hready : Engine.isReady e' = Engine.isReady e).
  { subst e'. unfold allJson in Hfail. unfold loadData.
    destruct r as [[| |l] [| |s] [| |m] [| |c]]; cbn in *; try reflexivity; discriminate. }
  split; [|split; [exact Hready|split; [|split; [|split; [|split]]]]].
  - unfold allJson in Hfail. unfold loadData.
    destruct r as [[| |l] [| |s] [| |m] [| |c]]; cbn in *; try reflexivity; discriminate.
  - subst e'. unfold allJson in Hfail. unfold loadData.
    destruct r as [[| |l] [| |s] [| |m] [| |c]]; cbn in *; try reflexivity; discriminate.
  - subst e'. unfold anyFetchRejected, loadData. intros ->. reflexivity.
  - subst e'. unfold loadData.
    destruct r as [[| |l] [| |s] [| |m] [| |c]]; cbn; intro H;
      try reflexivity; discriminate.
  - subst e'. unfold allJson in Hfail. unfold anyFetchRejected, loadData.
    destruct r as [[| |l] [| |s] [| |m] [| |c]]; cbn in *; intros Hf laws Hl;
      try discriminate; injection Hl as <-;
      (split; [reflexivity|]);
      (split; [intro Hs; try discriminate; now split|]);
      intros synonyms Hsy; try discriminate; injection Hsy as <-;
      (split; [reflexivity|]);
      (split; [intro Hm; try discriminate; reflexivity|]);
      intros pdfMetadata Hmeta; try discriminate; injection Hmeta as <-; reflexivity.
  - intros Hnot query filters. apply search_not_ready. congruence.
Qed.

(** *** [highlightText] *)

Lemma StripsTo_trans (s t u : jsstring) : StripsTo s t -> StripsTo t u -> StripsTo s u.
Proof.
  induction 1 as [s | a m b t H IH]; intro Hu; [exact Hu|].
  apply strips_pair. now apply IH.
Qed.

Lemma StripsTo_app_l (x s t : jsstring) : StripsTo s t -> StripsTo (x ++ s) (x ++ t).
Proof.
  induction 1 as [s | a m b t H IH]; [constructor|].
  rewrite app_assoc. apply strips_pair. now rewrite <- app_assoc.
Qed.

Lemma matchesAt_length (s p : jsstring) : matchesAt s p = true -> length p <= length s.
Proof.
  revert s; induction p as [|x p IH]; intros [|y s]; simpl; intro H;
    try lia; try discriminate.
  apply andb_true_iff in H as [_ H]. apply IH in H. lia.
Qed.

Lemma startsWith_matchesAt (s p : jsstring) : startsWith s p = true -> matchesAt s p = true.
Proof.
  revert s; induction p as [|x p IH]; intros [|y s]; simpl; intro H;
    try reflexivity; try discriminate.
  apply andb_true_iff in H as [Hx H]. apply N.eqb_eq in Hx. subst y.
  rewrite N.eqb_refl. now apply IH.
Qed.

(** Each replacement only puts tags around pieces of the string. *)
Lemma wrapMatchesFrom_strips (p s : jsstring) (skip : nat) :
  p <> [] -> skip <= length s ->
  StripsTo (wrapMatchesFrom p s skip) (skipn skip s).
Proof.
  intro Hp. revert skip; induction s as [|c s IH]; intros skip Hskip.
  - simpl in Hskip. replace skip with 0 by lia. constructor.
  - cbn [wrapMatchesFrom]. destruct skip as [|k].
    + destruct (matchesAt (c :: s) p) eqn:E.
      * apply matchesAt_length in E.
        assert (Hn : length p = S (pred (length p))) by (destruct p; [congruence | reflexivity]).
        cbn [length] in E.
        apply (strips_pair [] (firstn (length p) (c :: s))). cbn [app skipn].
        rewrite <- (firstn_skipn (length p) (c :: s)) at 2.
        apply StripsTo_app_l.
        rewrite Hn at 2. cbn [skipn]. apply IH. lia.
      * cbn [skipn]. apply (StripsTo_app_l [c]). apply (IH 0). lia.
    + cbn [skipn]. apply IH. simpl in Hskip. lia.
Qed.

Lemma highlightStep_strips (result term : jsstring) :
  StripsTo (highlightStep result term) result.
Proof.
  unfold highlightStep. destruct (Nat.ltb (length term) 2) eqn:E; [constructor|].
  apply Nat.ltb_ge in E. apply (@wrapMatchesFrom_strips term result 0).
  - destruct term; [simpl in E; lia | discriminate].
  - lia.
Qed.

Lemma fold_highlight_strips (terms : list jsstring) (text : jsstring) :
  StripsTo (fold_left highlightStep terms text) text.
Proof.
  revert text; induction terms as [|term terms IH]; intros text; simpl; [constructor|].
  eapply StripsTo_trans; [apply IH | apply highlightStep_strips].
Qed.

Lemma highlightText_strips (text : jsstring) (terms : list jsstring) :
  StripsTo (fst (highlightText text terms)) text.
Proof.
  unfold highlightText. destruct text as [|c text]; [constructor|].
  destruct terms as [|t terms]; [constructor|]. cbn [fst].
  apply fold_highlight_strips.
Qed.

(** The insertions can be undone: for every text and every list of terms
    that is not empty, some sequence of removals of a pair of tags (the tags
    put last taken out first) leads from the output of [highlightText] back
    to the text.  This is not a strip in one pass: see
    [highlight_no_strip_function] and the evaluations of [stripMarkup] and
    [stripTags]. *)
Theorem highlight_preserves_text (text : jsstring) (terms : list jsstring) :
  terms <> [] -> StripsTo (fst (highlightText text terms)) text.
Proof. intros _. apply highlightText_strips. Qed.

Lemma highlightText_terms (text : jsstring) (terms : list jsstring) :
  snd (highlightText text terms) =
  match text with [] => terms | _ => sortDesc lengthKey terms end.
Proof.
  unfold highlightText. destruct text as [|c text]; [reflexivity|].
  now destruct terms.
Qed.

Lemma highlightText_perm (text : jsstring) (terms : list jsstring) :
  Permutation terms (snd (highlightText text terms)).
Proof.
  rewrite highlightText_terms. destruct text; [reflexivity | apply sortDesc_perm].
Qed.

(** *** The preview of a PDF record *)

Lemma window_eq (content : jsstring) (index : nat) :
  window content index =
  ellipsis ++ substring content (Nat.max 0 (index - 50))
                        (Nat.min (length content) (index + 150)) ++ ellipsis.
Proof.
  unfold window. cbv zeta. do 3 f_equal; lia.
Qed.

Lemma scanPreview_find (content : jsstring) (matchedTerms : list jsstring) :
  match find (qualifies content) matchedTerms with
  | Some term =>
      exists index,
        indexOf (toLowerCase content) (toLowerCase term) = Some index /\
        index < 500 /\
        scanPreview content matchedTerms = Some (window content index)
  | None => scanPreview content matchedTerms = None
  end.
Proof.
  induction matchedTerms as [|term rest IH]; cbn [find scanPreview]; [reflexivity|].
  unfold qualifies at 1.
  destruct (indexOf (toLowerCase content) (toLowerCase term)) as [index|] eqn:E.
  - destruct (Nat.ltb index 500) eqn:L.
    + exists index. apply Nat.ltb_lt in L. now rewrite E.
    + exact IH.
  - exact IH.
Qed.

(** C8: the preview of a matched PDF record is the first 200 code units of
    its content, unless the first occurrence of some matched term in the
    (lowercased) content lies before index 500; then it is, for the first
    such term in the order of the matched-term list, the content from
    [max(0, index - 50)] to [min(length, index + 150)] between two ellipsis
    marks. *)
Theorem pdf_preview (e : Engine.t) (category : PdfType)
    (parsedQuery parsedQuery' : ParsedQuery) (pdf : Pdf.t) (r : PdfResult.t) :
  searchPdf e category parsedQuery pdf = (parsedQuery', Some r) ->
  let content := Pdf.content pdf in
  let matchedTerms :=
    snd (matchRecord (Engine.synonyms e) parsedQuery (pdfSearchText pdf)) in
  match find (qualifies content) matchedTerms with
  | None => PdfResult.content r = firstn 200 content
  | Some term =>
      exists index,
        indexOf (toLowerCase content) (toLowerCase term) = Some index /\
        index < 500 /\
        PdfResult.content r =
        ellipsis ++ substring content (Nat.max 0 (index - 50))
                              (Nat.min (length content) (index + 150)) ++ ellipsis
  end.
Proof.
  rewrite searchPdf_eq. cbv zeta.
  destruct (fst (matchRecord (Engine.synonyms e) parsedQuery (pdfSearchText pdf)));
    [|discriminate].
  intros [= _ <-]. cbn [PdfResult.content]. unfold makePreview.
  pose proof (scanPreview_find (Pdf.content pdf)
                (snd (matchRecord (Engine.synonyms e) parsedQuery (pdfSearchText pdf)))) as H.
  destruct (find _ _) as [term|].
  - destruct H as [index [H1 [H2 H3]]]. exists index.
    rewrite H3, window_eq. auto.
  - rewrite H. apply substring_prefix.
Qed.

(** *** [formatPDFDisplayName] *)

Lemma takeDigits_app (ds suffix : jsstring) :
  forallb isDigit ds = true ->
  match suffix with [] => True | c :: _ => isDigit c = false end ->
  takeDigits (ds ++ suffix) = ds /\ dropDigits (ds ++ suffix) = suffix.
Proof.
  intros Hd Hs. induction ds as [|d ds IH]; cbn [app takeDigits dropDigits forallb] in *.
  - destruct suffix as [|c suffix]; [now split|].
    cbn [takeDigits dropDigits]. now rewrite Hs.
  - apply andb_true_iff in Hd as [Hd Hds]. rewrite Hd.
    destruct (IH Hds) as [-> ->]. now split.
Qed.

Lemma takeDigits_split (s : jsstring) :
  s = takeDigits s ++ dropDigits s /\ forallb isDigit (takeDigits s) = true.
Proof.
  induction s as [|c s [IH1 IH2]]; cbn [takeDigits dropDigits app forallb]; [now split|].
  destruct (isDigit c) eqn:E; cbn [app forallb]; [|now split].
  rewrite E, IH2. split; [now rewrite <- IH1 | reflexivity].
Qed.

Lemma matchPdfId_shape (prefix : N) (digits suffix : jsstring) :
  isUpperAZ prefix = true -> digitString digits -> suffixShape suffix ->
  matchPdfId (prefix :: digits ++ suffix) = Some (prefix, digits, suffix).
Proof.
  intros Hp [Hne Hd] Hs. unfold matchPdfId. rewrite Hp.
  assert (Hsfx : match suffix with [] => True | c :: _ => isDigit c = false end).
  { destruct Hs as [-> | [ds [-> _]]]; [exact I | reflexivity]. }
  destruct (takeDigits_app digits suffix Hd Hsfx) as [-> ->].
  destruct digits as [|d digits]; [congruence|].
  destruct Hs as [-> | [ds [-> [Hds1 Hds2]]]]; [reflexivity|].
  rewrite N.eqb_refl, Hds2. cbn [andb].
  destruct ds; [congruence | reflexivity].
Qed.

Lemma matchPdfId_some (pdfId : jsstring) (prefix : N) (digits suffix : jsstring) :
  matchPdfId pdfId = Some (prefix, digits, suffix) ->
  pdfId = prefix :: digits ++ suffix /\
  isUpperAZ prefix = true /\ digitString digits /\ suffixShape suffix.
Proof.
  unfold matchPdfId. destruct pdfId as [|c rest]; [discriminate|].
  destruct (isUpperAZ c) eqn:Hc; [|discriminate].
  destruct (takeDigits_split rest) as [Hsplit Hall].
  destruct (takeDigits rest) as [|d ds] eqn:Ht; [discriminate|].
  destruct (dropDigits rest) as [|m ds2] eqn:Hdrop.
  - intros [= <- <- <-]. rewrite app_nil_r in *. subst rest.
    repeat split; [exact Hc | discriminate | exact Hall | now left].
  - destruct ((m =? 45)%N && negb (Nat.eqb (length ds2) 0) && forallb isDigit ds2) eqn:E;
      [|discriminate].
    intros [= <- <- <-].
    apply andb_true_iff in E as [E E3]. apply andb_true_iff in E as [E1 E2].
    apply N.eqb_eq in E1. subst m.
    repeat split; [now rewrite Hsplit | exact Hc | discriminate | exact Hall |].
    right. exists ds2. split; [reflexivity|]. split; [|exact E3].
    destruct ds2; [discriminate | discriminate].
Qed.

(** C9: an id made of one capital letter, digits and an optional hyphen and
    digits is rendered through the table (S: detail notice, article N; B:
    appendix N; H: safety standard, article N; the suffix after it), N being
    the number the digits denote; an id of that shape with another letter,
    and every id of another shape, comes back unchanged.  So B12 gives the
    label of appendix 12 and Z9 gives Z9. *)
Theorem formatPDFDisplayName_table :
  (forall prefix digits suffix,
     isUpperAZ prefix = true -> digitString digits -> suffixShape suffix ->
     (parseInt10 digits < 2 ^ 53)%N ->
     let n := numberToString (parseInt10 digits) in
     formatPDFDisplayName (prefix :: digits ++ suffix) =
     if (prefix =? 83)%N then labelDetail ++ articlePrefix ++ n ++ articleSuffix ++ suffix
     else if (prefix =? 66)%N then labelAppendix ++ n ++ suffix
     else if (prefix =? 72)%N
          then labelStandard ++ articlePrefix ++ n ++ articleSuffix ++ suffix
          else prefix :: digits ++ suffix) /\
  (forall pdfId, ~ idShape pdfId -> formatPDFDisplayName pdfId = pdfId) /\
  formatPDFDisplayName (js "B12") = labelAppendix ++ js "12" /\
  formatPDFDisplayName (js "Z9") = js "Z9".
Proof.
  split; [|split; [|split]].
  - intros prefix digits suffix Hp Hd Hs _. cbv zeta. unfold formatPDFDisplayName.
    now rewrite (@matchPdfId_shape prefix digits suffix Hp Hd Hs).
  - intros pdfId Hshape. unfold formatPDFDisplayName.
    destruct (matchPdfId pdfId) as [[[prefix digits] suffix]|] eqn:E; [|reflexivity].
    exfalso. apply Hshape. apply matchPdfId_some in E as [H1 [H2 [H3 H4]]].
    now exists prefix, digits, suffix.
  - reflexivity.
  - reflexivity.
Qed.

(** *** The shared array of matched terms *)

Lemma excerpt_nonempty (content : jsstring) : content <> [] -> excerpt content <> [].
Proof.
  unfold excerpt. rewrite substring_prefix. destruct content; [congruence | discriminate].
Qed.

Lemma makePreview_nonempty (content : jsstring) (matchedTerms : list jsstring) :
  content <> [] -> makePreview content matchedTerms <> [].
Proof.
  intro H. unfold makePreview.
  pose proof (scanPreview_find content matchedTerms) as F.
  destruct (find _ _).
  - destruct F as [index [_ [_ ->]]]. discriminate.
  - rewrite F, substring_prefix. destruct content; [congruence | discriminate].
Qed.

(** Two calls in a row on the same array leave it sorted as soon as one
    of the two texts is not empty. *)
Lemma highlight_twice (text1 text2 : jsstring) (terms : list jsstring) :
  text1 <> [] \/ text2 <> [] ->
  snd (highlightText text2 (snd (highlightText text1 terms))) = sortDesc lengthKey terms.
Proof.
  intro H. rewrite !highlightText_terms.
  destruct text1 as [|c1 text1], text2 as [|c2 text2]; try reflexivity.
  - destruct H; congruence.
  - apply sortDesc_idempotent.
Qed.

Lemma storeTerms_or (groups : list (list jsstring)) (originalTerms terms : list jsstring) :
  storeTerms (QueryOR groups originalTerms) terms = QueryOR groups originalTerms.
Proof. reflexivity. Qed.

(** C10 (as the code has it): a call of [highlightText] whose text is not
    empty leaves the caller's array sorted by non-increasing length (the same
    terms, sorted in place), and a call with an empty text leaves it as it
    was.  So in an AND-mode search, where the matched terms of every record
    are the one array [parsedQuery.terms], the array is in that order from
    the first matched record with a title or content that is not empty, and
    the records after it take their matched terms, for the highlighting and
    the scan of the preview, from the sorted array (the last part says so
    for two PDF records one after the other); the groups of an OR-mode query
    are never touched. *)
Theorem highlightText_sorts_in_place :
  (forall text terms,
     text <> [] ->
     snd (highlightText text terms) = sortDesc lengthKey terms /\
     Permutation terms (snd (highlightText text terms)) /\
     StronglySorted (descending lengthKey) (snd (highlightText text terms))) /\
  (forall terms, snd (highlightText [] terms) = terms) /\
  (forall synonyms query l terms originalTerms article parsedQuery' r,
     searchArticle synonyms query l (QueryAND terms originalTerms) article
       = (parsedQuery', Some r) ->
     Article.title article <> [] \/ Article.content article <> [] ->
     parsedQuery' = QueryAND (sortDesc lengthKey terms) originalTerms) /\
  (forall e category terms originalTerms pdf parsedQuery' r,
     searchPdf e category (QueryAND terms originalTerms) pdf = (parsedQuery', Some r) ->
     Pdf.title pdf <> [] \/ Pdf.content pdf <> [] ->
     parsedQuery' = QueryAND (sortDesc lengthKey terms) originalTerms) /\
  (forall dictionary terms originalTerms text,
     fst (matchRecord dictionary (QueryAND terms originalTerms) text) = true ->
     snd (matchRecord dictionary (QueryAND terms originalTerms) text) = terms) /\
  (forall synonyms query l groups originalTerms article,
     fst (searchArticle synonyms query l (QueryOR groups originalTerms) article)
     = QueryOR groups originalTerms) /\
  (forall e category groups originalTerms pdf,
     fst (searchPdf e category (QueryOR groups originalTerms) pdf)
     = QueryOR groups originalTerms) /\
  (forall e category1 category2 terms originalTerms pdf1 pdf2
          parsedQuery1 parsedQuery2 r1 r2,
     searchPdf e category1 (QueryAND terms originalTerms) pdf1 = (parsedQuery1, Some r1) ->
     Pdf.title pdf1 <> [] \/ Pdf.content pdf1 <> [] ->
     searchPdf e category2 parsedQuery1 pdf2 = (parsedQuery2, Some r2) ->
     PdfResult.content r2 = makePreview (Pdf.content pdf2) (sortDesc lengthKey terms) /\
     PdfResult.highlightedTitle r2
     = fst (highlightText (Pdf.title pdf2) (sortDesc lengthKey terms))).
Proof.
  assert (Hpdf : forall e category terms originalTerms pdf parsedQuery' r,
     searchPdf e category (QueryAND terms originalTerms) pdf = (parsedQuery', Some r) ->
     Pdf.title pdf <> [] \/ Pdf.content pdf <> [] ->
     parsedQuery' = QueryAND (sortDesc lengthKey terms) originalTerms).
  { intros e category terms originalTerms pdf parsedQuery' r.
    rewrite searchPdf_eq. cbv zeta. rewrite matchRecord_and.
    destruct (forallb _ originalTerms); cbn [fst snd]; [|discriminate].
    intros [= <- _] H. cbn [storeTerms]. f_equal.
    apply highlight_twice. destruct H as [H | H]; [now left | right].
    now apply makePreview_nonempty. }
  split; [|split; [|split; [|split; [|split; [|split; [|split]]]]]].
  - intros text terms Htext.
    assert (E : snd (highlightText text terms) = sortDesc lengthKey terms).
    { rewrite highlightText_terms. destruct text; [congruence | reflexivity]. }
    rewrite E. split; [reflexivity|]. split; [apply sortDesc_perm | apply sortDesc_sorted].
  - intro terms. apply highlightText_terms.
  - intros synonyms query l terms originalTerms article parsedQuery' r.
    rewrite searchArticle_eq. cbv zeta. rewrite matchRecord_and.
    destruct (forallb _ originalTerms); cbn [fst snd]; [|discriminate].
    intros [= <- _] H. cbn [storeTerms]. f_equal.
    apply highlight_twice. destruct H as [H | H]; [now left | right].
    now apply excerpt_nonempty.
  - exact Hpdf.
  - intros dictionary terms originalTerms text. rewrite matchRecord_and.
    now destruct (forallb _ originalTerms).
  - intros synonyms query l groups originalTerms article. rewrite searchArticle_eq.
    cbv zeta. now destruct (fst (matchRecord _ _ _)).
  - intros e category groups originalTerms pdf. rewrite searchPdf_eq.
    cbv zeta. now destruct (fst (matchRecord _ _ _)).
  - intros e category1 category2 terms originalTerms pdf1 pdf2
           parsedQuery1 parsedQuery2 r1 r2 H1 Hne.
    rewrite (Hpdf _ _ _ _ _ _ _ H1 Hne).
    rewrite searchPdf_eq. cbv zeta. rewrite matchRecord_and.
    destruct (forallb _ originalTerms); cbn [fst snd]; [|discriminate].
    intros [= _ <-]. now split.
Qed.

(** *** The results of [search] *)

(** A term that occurs in a text is matched there at least once. *)
Lemma countMatches_includes (s p : jsstring) :
  includes s p = true -> 1 <= countMatches s p.
Proof.
  unfold countMatches. induction s as [|c s IH]; cbn [includes countMatchesFrom].
  - rewrite orb_false_r. intro H. apply startsWith_matchesAt in H. rewrite H. lia.
  - intro H. destruct (matchesAt (c :: s) p) eqn:E; [lia|].
    apply orb_true_iff in H as [H | H].
    + apply startsWith_matchesAt in H. congruence.
    + now apply IH.
Qed.

Lemma splitSpacesFrom_nonempty (s cur : jsstring) (inRun : bool) :
  splitSpacesFrom s cur inRun <> [].
Proof.
  revert cur inRun; induction s as [|c s IH]; intros cur inRun; cbn [splitSpacesFrom].
  - discriminate.
  - destruct (isSpace c); [destruct inRun|]; [apply IH | discriminate | apply IH].
Qed.

Lemma parseSearchQuery_invariant (synonyms : Synonyms) (query : jsstring) :
  queryInvariant synonyms (queryTerms (parseSearchQuery synonyms query))
                 (parseSearchQuery synonyms query).
Proof.
  unfold parseSearchQuery. destruct (Nat.ltb 1 (length (splitOr query))).
  - cbn [queryInvariant queryTerms]. intros group term Hg Ht.
    apply in_concat. now exists group.
  - cbn [queryInvariant queryTerms]. split; [apply splitSpacesFrom_nonempty|].
    split; [auto|]. intros token syn Ht Hs.
    apply dedupe_In, in_flat_map. now exists token.
Qed.

Lemma matchRecord_hit (synonyms : Synonyms) (allTerms : list jsstring)
    (parsedQuery : ParsedQuery) (text : jsstring) :
  queryInvariant synonyms allTerms parsedQuery ->
  fst (matchRecord synonyms parsedQuery text) = true ->
  exists term,
    In term (snd (matchRecord synonyms parsedQuery text)) /\
    In term allTerms /\ includes text (toLowerCase term) = true.
Proof.
  destruct parsedQuery as [groups originalTerms | terms originalTerms].
  - cbn [queryInvariant matchRecord]. intros Hinv H.
    destruct (matchGroups_first text groups)
      as [[_ [before [after [H2 [_ H4]]]]] | [H1 _]]; [|rewrite H1 in H; discriminate].
    apply groupHit_iff in H4 as [term [Ht Hi]]. exists term.
    split; [exact Ht|]. split; [|exact Hi].
    apply (Hinv (snd (matchGroups text groups))); [|exact Ht].
    rewrite H2 at 2. apply in_elt.
  - cbn [queryInvariant]. rewrite matchRecord_and. intros [Hne [Hall Hexp]] H.
    destruct (forallb (tokenHit synonyms text) originalTerms) eqn:E; [|discriminate].
    cbn [snd]. destruct originalTerms as [|token rest]; [congruence|].
    cbn [forallb] in E. apply andb_true_iff in E as [E _].
    apply tokenHit_iff in E as [syn [Hs Hi]]. exists syn.
    assert (In syn terms) by (apply (Hexp token); [now left | exact Hs]).
    auto.
Qed.

Lemma storeTerms_invariant (synonyms : Synonyms) (allTerms : list jsstring)
    (parsedQuery : ParsedQuery) (text : jsstring) (terms' : list jsstring) :
  queryInvariant synonyms allTerms parsedQuery ->
  fst (matchRecord synonyms parsedQuery text) = true ->
  Permutation (snd (matchRecord synonyms parsedQuery text)) terms' ->
  queryInvariant synonyms allTerms (storeTerms parsedQuery terms').
Proof.
  destruct parsedQuery as [groups originalTerms | terms originalTerms].
  - auto.
  - cbn [queryInvariant storeTerms]. rewrite matchRecord_and.
    destruct (forallb _ originalTerms); [|discriminate]. cbn [snd].
    intros [Hne [Hall Hexp]] _ Hperm. split; [exact Hne|]. split.
    + intros term Ht. apply Hall. eapply Permutation_in; [symmetry; exact Hperm | exact Ht].
    + intros token syn Ht Hs. eapply Permutation_in; [exact Hperm | eauto].
Qed.

Lemma highlight_twice_perm (text1 text2 : jsstring) (terms : list jsstring) :
  Permutation terms (snd (highlightText text2 (snd (highlightText text1 terms)))).
Proof.
  etransitivity; [apply (highlightText_perm text1) | apply highlightText_perm].
Qed.

Lemma sumZ_nonneg (A : Type) (g : A -> Z) (l : list A) :
  (forall x, 0 <= g x)%Z -> (0 <= sumZ (map g l))%Z.
Proof.
  intro H. induction l as [|x l IH]; simpl; [lia|]. specialize (H x). lia.
Qed.

Lemma sumZ_member (A : Type) (g : A -> Z) (l : list A) (x : A) :
  (forall y, 0 <= g y)%Z -> In x l -> (g x <= sumZ (map g l))%Z.
Proof.
  intros H Hx. induction l as [|y l IH]; simpl; [contradiction|].
  destruct Hx as [-> | Hx].
  - pose proof (sumZ_nonneg g l H). lia.
  - specialize (IH Hx). specialize (H y). lia.
Qed.

Lemma bonus_nonneg (b : bool) (points : Z) : (0 <= points -> 0 <= bonus b points)%Z.
Proof. destruct b; simpl; lia. Qed.

Lemma termPoints_nonneg (article : Article.t) (term : jsstring) :
  (0 <= termPoints article term)%Z.
Proof.
  unfold termPoints.
  pose proof (bonus_nonneg (includes (toLowerCase (Article.title article))
                                     (toLowerCase term)) (points := 80)).
  pose proof (bonus_nonneg (truthy (Article.articleNumber article)
                            && includes (toLowerCase (Article.articleNumber article))
                                        (toLowerCase term)) (points := 60)).
  lia.
Qed.

Lemma calculateScore_positive (article : Article.t) (query : jsstring)
    (terms : list jsstring) (term : jsstring) :
  In term terms -> includes (articleText article) (toLowerCase term) = true ->
  (15 <= calculateScore article query terms)%Z.
Proof.
  intros Ht Hi. rewrite calculateScore_sum.
  pose proof (sumZ_member (termPoints article) terms term (termPoints_nonneg article) Ht) as H.
  pose proof (bonus_nonneg (includes (articleText article) (toLowerCase query))
                           (points := 150)).
  assert (15 <= termPoints article term)%Z; [|lia].
  apply countMatches_includes in Hi. unfold termPoints.
  pose proof (bonus_nonneg (includes (toLowerCase (Article.title article))
                                     (toLowerCase term)) (points := 80)).
  pose proof (bonus_nonneg (truthy (Article.articleNumber article)
                            && includes (toLowerCase (Article.articleNumber article))
                                        (toLowerCase term)) (points := 60)).
  lia.
Qed.

Lemma pdfScore_sum (pdf : Pdf.t) (searchText : jsstring) (terms : list jsstring) :
  fold_left (pdfTermScore pdf searchText) terms 0%Z
  = sumZ (map (pdfTermPoints pdf searchText) terms).
Proof.
  rewrite (fold_left_add (pdfTermScore pdf searchText) (pdfTermPoints pdf searchText)).
  - lia.
  - intros score term. unfold pdfTermPoints, pdfTermScore.
    destruct (includes searchText (toLowerCase term)); lia.
Qed.

Lemma pdfTermPoints_nonneg (pdf : Pdf.t) (searchText term : jsstring) :
  (0 <= pdfTermPoints pdf searchText term)%Z.
Proof.
  unfold pdfTermPoints, pdfTermScore.
  destruct (includes searchText (toLowerCase term)); [|lia].
  match goal with |- (0 <= 0 + _ + bonus ?a 50 + bonus ?b 30)%Z =>
    pose proof (bonus_nonneg a (points := 50)); pose proof (bonus_nonneg b (points := 30))
  end. lia.
Qed.

Lemma pdfScore_positive (pdf : Pdf.t) (searchText : jsstring) (terms : list jsstring)
    (term : jsstring) :
  In term terms -> includes searchText (toLowerCase term) = true ->
  (10 <= fold_left (pdfTermScore pdf searchText) terms 0)%Z.
Proof.
  intros Ht Hi. rewrite pdfScore_sum.
  pose proof (sumZ_member (pdfTermPoints pdf searchText) terms term
                          (pdfTermPoints_nonneg pdf searchText) Ht) as H.
  assert (10 <= pdfTermPoints pdf searchText term)%Z; [|lia].
  unfold pdfTermPoints, pdfTermScore. rewrite Hi.
  apply countMatches_includes in Hi.
  match goal with |- (10 <= 0 + _ + bonus ?a 50 + bonus ?b 30)%Z =>
    pose proof (bonus_nonneg a (points := 50)); pose proof (bonus_nonneg b (points := 30))
  end. lia.
Qed.

Lemma searchArticle_invariant (synonyms : Synonyms) (allTerms : list jsstring)
    (query : jsstring) (l : Law.t) (parsedQuery : ParsedQuery) (article : Article.t) :
  queryInvariant synonyms allTerms parsedQuery ->
  queryInvariant synonyms allTerms
    (fst (searchArticle synonyms query l parsedQuery article)) /\
  forall r, snd (searchArticle synonyms query l parsedQuery article) = Some r ->
            goodArticle allTerms r.
Proof.
  intro Hinv. rewrite searchArticle_eq. cbv zeta.
  destruct (fst (matchRecord synonyms parsedQuery (articleText article))) eqn:E;
    cbn [fst snd]; [|split; [exact Hinv | discriminate]].
  split.
  - eapply storeTerms_invariant; [exact Hinv | exact E | apply highlight_twice_perm].
  - intros r [= <-].
    destruct (@matchRecord_hit synonyms allTerms parsedQuery (articleText article) Hinv E)
      as [term [Ht [Hall Hi]]].
    pose proof (@calculateScore_positive article query _ term Ht Hi) as Hs.
    unfold goodArticle, articleResultText. cbn.
    split; [lia|]. split; [lia|].
    exists term. split; [exact Hall|]. now apply countMatches_includes.
Qed.

Lemma searchPdf_invariant (e : Engine.t) (allTerms : list jsstring)
    (category : PdfType) (parsedQuery : ParsedQuery) (pdf : Pdf.t) :
  queryInvariant (Engine.synonyms e) allTerms parsedQuery ->
  queryInvariant (Engine.synonyms e) allTerms
    (fst (searchPdf e category parsedQuery pdf)) /\
  forall r, snd (searchPdf e category parsedQuery pdf) = Some r -> goodPdf allTerms r.
Proof.
  intro Hinv. rewrite searchPdf_eq. cbv zeta.
  destruct (fst (matchRecord (Engine.synonyms e) parsedQuery (pdfSearchText pdf))) eqn:E;
    cbn [fst snd]; [|split; [exact Hinv | discriminate]].
  split.
  - eapply storeTerms_invariant; [exact Hinv | exact E | apply highlight_twice_perm].
  - intros r [= <-].
    destruct (@matchRecord_hit (Engine.synonyms e) allTerms parsedQuery (pdfSearchText pdf) Hinv E)
      as [term [Ht [Hall Hi]]].
    pose proof (@pdfScore_positive pdf (pdfSearchText pdf) _ term Ht Hi) as Hs.
    unfold goodPdf, pdfResultText. cbn.
    split; [lia|]. split; [lia|].
    exists term. split; [exact Hall|]. now apply countMatches_includes.
Qed.

Lemma push_Forall (A : Type) (P : A -> Prop) (results : list A) (r : option A) :
  Forall P results -> (forall x, r = Some x -> P x) -> Forall P (push results r).
Proof.
  intros H Hr. destruct r as [x|]; simpl; [|exact H].
  apply Forall_app. split; [exact H|]. constructor; [now apply Hr | constructor].
Qed.

(** A loop that threads the parsed query and gathers results keeps what
    each of its steps keeps. *)
Lemma loop_invariant (S R X : Type) (I : S -> Prop) (P : R -> Prop)
    (step : S * list R -> X -> S * list R) (xs : list X) (st : S * list R) :
  (forall st x, I (fst st) -> Forall P (snd st) ->
                I (fst (step st x)) /\ Forall P (snd (step st x))) ->
  I (fst st) -> Forall P (snd st) ->
  I (fst (fold_left step xs st)) /\ Forall P (snd (fold_left step xs st)).
Proof.
  intro Hstep. revert st; induction xs as [|x xs IH]; intros st HI HP; simpl.
  - now split.
  - destruct (Hstep st x HI HP) as [HI' HP']. now apply IH.
Qed.

Lemma articleLoop_invariant (synonyms : Synonyms) (allTerms : list jsstring)
    (query : jsstring) (l : Law.t) (st : ParsedQuery * list ArticleResult.t)
    (article : Article.t) :
  queryInvariant synonyms allTerms (fst st) -> Forall (goodArticle allTerms) (snd st) ->
  queryInvariant synonyms allTerms (fst (articleLoop synonyms query l st article)) /\
  Forall (goodArticle allTerms) (snd (articleLoop synonyms query l st article)).
Proof.
  intros HI HP. unfold articleLoop.
  destruct (@searchArticle_invariant synonyms allTerms query l (fst st) article HI) as [H1 H2].
  destruct (searchArticle synonyms query l (fst st) article) as [pq' r]. cbn [fst snd] in *.
  split; [exact H1 | now apply push_Forall].
Qed.

Lemma pdfLoop_invariant (e : Engine.t) (allTerms : list jsstring) (category : PdfType)
    (st : ParsedQuery * list PdfResult.t) (pdf : Pdf.t) :
  queryInvariant (Engine.synonyms e) allTerms (fst st) ->
  Forall (goodPdf allTerms) (snd st) ->
  queryInvariant (Engine.synonyms e) allTerms (fst (pdfLoop e category st pdf)) /\
  Forall (goodPdf allTerms) (snd (pdfLoop e category st pdf)).
Proof.
  intros HI HP. unfold pdfLoop.
  destruct (@searchPdf_invariant e allTerms category (fst st) pdf HI) as [H1 H2].
  destruct (searchPdf e category (fst st) pdf) as [pq' r]. cbn [fst snd] in *.
  split; [exact H1 | now apply push_Forall].
Qed.

Lemma scanLaws_invariant (e : Engine.t) (allTerms : list jsstring) (query : jsstring)
    (filters : Filters.t) (parsedQuery : ParsedQuery) :
  queryInvariant (Engine.synonyms e) allTerms parsedQuery ->
  queryInvariant (Engine.synonyms e) allTerms (fst (scanLaws e query filters parsedQuery)) /\
  Forall (goodArticle allTerms) (snd (scanLaws e query filters parsedQuery)).
Proof.
  intro Hinv. unfold scanLaws.
  apply (@loop_invariant _ _ _ (queryInvariant (Engine.synonyms e) allTerms)
                        (goodArticle allTerms)); [|exact Hinv | constructor].
  intros st l HI HP. unfold lawLoop.
  destruct (str_eqb (Law.lawType l) lawTypeStatute && negb (Filters.law filters));
    [now split|].
  destruct (str_eqb (Law.lawType l) lawTypeOrdinance && negb (Filters.ordinance filters));
    [now split|].
  apply (@loop_invariant _ _ _ (queryInvariant (Engine.synonyms e) allTerms)
                        (goodArticle allTerms)); [|exact HI | exact HP].
  intros. now apply articleLoop_invariant.
Qed.

Lemma scanPDFs_invariant (e : Engine.t) (allTerms : list jsstring)
    (parsedQuery : ParsedQuery) :
  queryInvariant (Engine.synonyms e) allTerms parsedQuery ->
  Forall (goodPdf allTerms) (snd (scanPDFs e parsedQuery)).
Proof.
  intro Hinv. unfold scanPDFs.
  apply (@loop_invariant _ _ _ (queryInvariant (Engine.synonyms e) allTerms)
                        (goodPdf allTerms)); [|exact Hinv | constructor].
  intros st category HI HP.
  apply (@loop_invariant _ _ _ (queryInvariant (Engine.synonyms e) allTerms)
                        (goodPdf allTerms)); [|exact HI | exact HP].
  intros. now apply pdfLoop_invariant.
Qed.

Lemma sortDesc_Forall (A : Type) (key : A -> Z) (P : A -> Prop) (l : list A) :
  Forall P l -> Forall P (sortDesc key l).
Proof. apply Permutation_Forall, sortDesc_perm. Qed.

(** C7: in every call of [search], every returned result has a score that
    is a non-negative integer (a positive one, in fact), every returned
    record has at least one match of an expanded term of the query in its
    search text, so that a record without any never appears, and the list of
    articles and the list of PDF records are each in non-increasing order of
    score. *)
Theorem search_results (e : Engine.t) (query : jsstring) (filters : Filters.t) :
  let result := search e query filters in
  let terms := queryTerms (parseSearchQuery (Engine.synonyms e) (trim query)) in
  Forall (fun r => (0 <= ArticleResult.score r)%Z /\ (0 < ArticleResult.score r)%Z /\
                   termOccurs (articleResultText r) terms) (articles result) /\
  Forall (fun r => (0 <= PdfResult.score r)%Z /\ (0 < PdfResult.score r)%Z /\
                   termOccurs (pdfResultText r) terms) (pdfs result) /\
  StronglySorted (descending ArticleResult.score) (articles result) /\
  StronglySorted (descending PdfResult.score) (pdfs result).
Proof.
  cbv zeta. unfold search.
  destruct (negb (Engine.isReady e) || _ || _).
  - cbn [articles pdfs]. repeat split; constructor.
  - pose proof (parseSearchQuery_invariant (Engine.synonyms e) (trim query)) as Hinv.
    destruct (@scanLaws_invariant e _ query filters _ Hinv) as [H1 H2].
    destruct (scanLaws e query filters _) as [parsedQuery' articleResults].
    cbn [fst snd articles pdfs] in *. unfold searchPDFs.
    split; [|split; [|split]].
    + apply sortDesc_Forall. exact H2.
    + apply sortDesc_Forall. now apply scanPDFs_invariant.
    + apply sortDesc_sorted.
    + apply sortDesc_sorted.
Qed.

(** *** [getStats], [loadData], [getPDFUrl], [formatPDFDisplayName] and
    [escapeRegex] *)

Lemma fold_left_count (A : Type) (f : A -> nat) (l : list A) (n : nat) :
  fold_left (fun total x => total + f x) l n = n + list_sum (map f l).
Proof.
  revert n; induction l as [|x l IH]; intros n; simpl; [lia|]. rewrite IH. lia.
Qed.

(** X1: after a load in which the four documents arrive, [getStats] gives
    the number of laws, the number of articles of all laws together, the
    number of dictionary entries and the length of each list of PDF records,
    0 for a list the document does not have; after a failed load on an
    engine that was not ready it gives [null]. *)
Theorem getStats_after_load (e : Engine.t) (r : Responses) :
  (forall laws synonyms pdfMetadata pdfData,
     lawsResponse r = Json laws ->
     synonymsResponse r = Json synonyms ->
     pdfMetadataResponse r = Json pdfMetadata ->
     pdfContentResponse r = Json pdfData ->
     getStats (fst (loadData e r))
     = Some {| lawCount := length laws;
               articleCount := list_sum (map (fun law => length (Law.articles law)) laws);
               synonymCount := length synonyms;
               standardsCount := length (orEmpty (dataStandards pdfData));
               detailsCount := length (orEmpty (dataDetails pdfData));
               appendicesCount := length (orEmpty (dataAppendices pdfData));
               otherCount := length (orEmpty (dataOther pdfData)) |}) /\
  (allJson r = false -> Engine.isReady e = false -> getStats (fst (loadData e r)) = None).
Proof.
  split.
  - intros laws synonyms pdfMetadata pdfData H1 H2 H3 H4.
    unfold loadData. rewrite H1, H2, H3, H4. cbn.
    now rewrite fold_left_count.
  - intros Hfail Hnot. unfold getStats.
    assert (E : Engine.isReady (fst (loadData e r)) = false).
    { rewrite <- Hnot. unfold allJson in Hfail. unfold loadData.
      destruct r as [[| |l] [| |s] [| |m] [| |c]]; cbn in *; try reflexivity; discriminate. }
    now rewrite E.
Qed.

(** X2: a load in which the four documents arrive leaves a state that does
    not depend on the state before it, so loading the same documents again
    changes nothing. *)
Theorem loadData_overwrites (e e' : Engine.t) (r : Responses) :
  allJson r = true ->
  loadData e r = loadData e' r /\
  loadData (fst (loadData e r)) r = loadData e r.
Proof.
  intro H.
  assert (G : forall e1 e2, loadData e1 r = loadData e2 r).
  { intros e1 e2. unfold allJson in H. unfold loadData.
    destruct r as [[| |l] [| |s] [| |m] [| |c]]; cbn in *; try discriminate. reflexivity. }
  split; apply G.
Qed.

Lemma findUrl_some (items : list PdfMeta.item) (pdfId u : jsstring) :
  findUrl items pdfId = Some u ->
  u <> [] /\ exists item, In item items /\ PdfMeta.id item = pdfId /\ PdfMeta.url item = u.
Proof.
  unfold findUrl.
  destruct (find (fun item => str_eqb (PdfMeta.id item) pdfId) items) as [meta|] eqn:E;
    [|discriminate].
  apply find_some in E as [Hin Hid]. apply str_eqb_eq in Hid.
  destruct (PdfMeta.url meta) as [|c u'] eqn:Hu; [discriminate|].
  intros [= <-]. split; [discriminate|]. exists meta. auto.
Qed.

Lemma findUrl_absent (items : list PdfMeta.item) (pdfId : jsstring) :
  (forall item, In item items -> PdfMeta.id item <> pdfId) -> findUrl items pdfId = None.
Proof.
  intro H. unfold findUrl.
  destruct (find (fun item => str_eqb (PdfMeta.id item) pdfId) items) as [meta|] eqn:E;
    [|reflexivity].
  apply find_some in E as [Hin Hid]. apply str_eqb_eq in Hid. now apply H in Hin.
Qed.

(** X3: the URL [getPDFUrl] gives is never empty and is the one recorded for
    that id in the detail list or the appendix list; an id in neither list
    has none; and the first detail item with the id decides whenever its URL
    is not empty, whatever the appendix list holds. *)
Theorem getPDFUrl_lookup (e : Engine.t) (pdfId : jsstring) :
  let details := PdfMeta.details (Engine.pdfMetadata e) in
  let appendices := PdfMeta.appendices (Engine.pdfMetadata e) in
  (forall u, getPDFUrl e pdfId = Some u ->
     u <> [] /\
     exists item, In item (details ++ appendices) /\
                  PdfMeta.id item = pdfId /\ PdfMeta.url item = u) /\
  ((forall item, In item (details ++ appendices) -> PdfMeta.id item <> pdfId) ->
   getPDFUrl e pdfId = None) /\
  (forall before item after,
     details = before ++ item :: after ->
     (forall other, In other before -> PdfMeta.id other <> pdfId) ->
     PdfMeta.id item = pdfId -> PdfMeta.url item <> [] ->
     getPDFUrl e pdfId = Some (PdfMeta.url item)).
Proof.
  cbv zeta. unfold getPDFUrl. split; [|split].
  - intros u H.
    destruct (findUrl (PdfMeta.details (Engine.pdfMetadata e)) pdfId) as [u'|] eqn:E.
    + injection H as <-. apply findUrl_some in E as [Hne [item [Hin Hrest]]].
      split; [exact Hne|]. exists item. split; [apply in_or_app; now left | exact Hrest].
    + apply findUrl_some in H as [Hne [item [Hin Hrest]]].
      split; [exact Hne|]. exists item. split; [apply in_or_app; now right | exact Hrest].
  - intro H. rewrite !findUrl_absent; [reflexivity | |];
      intros item Hin; apply H, in_or_app; [now right | now left].
  - intros before item after Hd Hbefore Hid Hurl. rewrite Hd. unfold findUrl.
    assert (F : find (fun it => str_eqb (PdfMeta.id it) pdfId) (before ++ item :: after)
                = Some item).
    { clear Hd. induction before as [|x before IH]; simpl.
      - rewrite Hid, str_eqb_refl. reflexivity.
      - destruct (str_eqb (PdfMeta.id x) pdfId) eqn:Ex.
        + apply str_eqb_eq in Ex. exfalso. apply (Hbefore x); [now left | exact Ex].
        + apply IH. intros other Ho. apply Hbefore. now right. }
    rewrite F. destruct (PdfMeta.url item); [congruence | reflexivity].
Qed.

Lemma matchPdfId_not_upper (c : N) (rest : jsstring) :
  isUpperAZ c = false -> matchPdfId (c :: rest) = None.
Proof. intro H. unfold matchPdfId. now rewrite H. Qed.

(** X4: a display name is left as it is when it is formatted again: the
    labels of the table begin with no capital letter, and every other id
    comes back unchanged. *)
Theorem formatPDFDisplayName_idempotent (pdfId : jsstring) :
  formatPDFDisplayName (formatPDFDisplayName pdfId) = formatPDFDisplayName pdfId.
Proof.
  unfold formatPDFDisplayName at 2 3.
  destruct (matchPdfId pdfId) as [[[prefix digits] suffix]|] eqn:E.
  - destruct (prefix =? 83)%N eqn:E1;
      [|destruct (prefix =? 66)%N eqn:E2; [|destruct (prefix =? 72)%N eqn:E3]].
    + unfold formatPDFDisplayName, labelDetail. cbn [app].
      now rewrite matchPdfId_not_upper.
    + unfold formatPDFDisplayName, labelAppendix. cbn [app].
      now rewrite matchPdfId_not_upper.
    + unfold formatPDFDisplayName, labelStandard. cbn [app].
      now rewrite matchPdfId_not_upper.
    + unfold formatPDFDisplayName. now rewrite E, E1, E2, E3.
  - unfold formatPDFDisplayName. now rewrite E.
Qed.

(** X5: the pattern source [escapeRegex] builds is read back as the
    string itself, code unit for code unit: every syntax character of the
    string is escaped and nothing else is, so the regular expression made
    from it matches the string literally. *)
Theorem escapeRegex_literal (str : jsstring) :
  readLiteral (escapeRegex str) = Some str.
Proof.
  induction str as [|c str IH]; [reflexivity|].
  unfold escapeRegex in *. cbn [flat_map].
  destruct (isRegexMeta c) eqn:E; cbn [app readLiteral].
  - rewrite N.eqb_refl, E, IH. reflexivity.
  - destruct (c =? 92)%N eqn:Eb.
    + apply N.eqb_eq in Eb. subst c. discriminate.
    + rewrite E, IH. reflexivity.
Qed.

(** *** The shape of an expansion *)

Lemma setAdd_NoDup (x : jsstring) (terms : list jsstring) :
  NoDup terms -> NoDup (setAdd x terms).
Proof.
  intro H. unfold setAdd. destruct (existsb (str_eqb x) terms) eqn:E; [exact H|].
  apply NoDup_app; [exact H | repeat constructor; auto |].
  intros y Hy [Hxy | []]. subst y.
  assert (existsb (str_eqb x) terms = true); [|congruence].
  apply existsb_exists. exists x. split; [exact Hy | apply str_eqb_refl].
Qed.

Lemma setAdd_head (x h : jsstring) (t : list jsstring) :
  exists t', setAdd x (h :: t) = h :: t'.
Proof.
  unfold setAdd. destruct (existsb (str_eqb x) (h :: t)); eexists; reflexivity.
Qed.

(** Lists that are sets and begin with [h]. *)
Lemma fold_setAdd_shape (h : jsstring) (l acc : list jsstring) :
  (NoDup acc /\ exists t, acc = h :: t) ->
  NoDup (fold_left (fun terms x => setAdd x terms) l acc) /\
  exists t, fold_left (fun terms x => setAdd x terms) l acc = h :: t.
Proof.
  revert acc; induction l as [|x l IH]; intros acc [Hn [t Ht]]; simpl.
  - split; [exact Hn | now exists t].
  - apply IH. split; [now apply setAdd_NoDup|]. subst acc. apply setAdd_head.
Qed.

Lemma expandEntry_shape (query h : jsstring) (terms : list jsstring)
    (entry : jsstring * list jsstring) :
  (NoDup terms /\ exists t, terms = h :: t) ->
  NoDup (expandEntry query terms entry) /\ exists t, expandEntry query terms entry = h :: t.
Proof.
  intro H. unfold expandEntry, addEntry.
  assert (G : forall acc, (NoDup acc /\ exists t, acc = h :: t) ->
             NoDup (fold_left (fun terms s => setAdd s terms)
                      (map toLowerCase (snd entry)) (setAdd (toLowerCase (fst entry)) acc)) /\
             exists t, fold_left (fun terms s => setAdd s terms)
                         (map toLowerCase (snd entry))
                         (setAdd (toLowerCase (fst entry)) acc) = h :: t).
  { intros acc [Hn [t Ht]]. apply fold_setAdd_shape.
    split; [now apply setAdd_NoDup|]. subst acc. apply setAdd_head. }
  destruct (includes (toLowerCase query) (toLowerCase (fst entry)));
    destruct (existsb _ (map toLowerCase (snd entry))); auto.
Qed.

Lemma expandSynonyms_shape_lemma (synonyms : Synonyms) (query : jsstring) :
  NoDup (expandSynonyms synonyms query) /\
  exists rest, expandSynonyms synonyms query = toLowerCase query :: rest.
Proof.
  assert (G : forall acc, (NoDup acc /\ exists t, acc = toLowerCase query :: t) ->
             NoDup (fold_left (expandEntry query) synonyms acc) /\
             exists t, fold_left (expandEntry query) synonyms acc = toLowerCase query :: t).
  { induction synonyms as [|entry l IH]; intros acc H; simpl; [exact H|].
    apply IH. now apply expandEntry_shape. }
  apply (G [toLowerCase query]).
  split; [repeat constructor; auto | now exists []].
Qed.

(** X6: an expansion is a list without repetition that begins with the
    lowercased term itself; with an empty dictionary it is that term
    alone. *)
Theorem expandSynonyms_shape (synonyms : Synonyms) (query : jsstring) :
  NoDup (expandSynonyms synonyms query) /\
  (exists rest, expandSynonyms synonyms query = toLowerCase query :: rest) /\
  expandSynonyms [] query = [toLowerCase query].
Proof.
  destruct (expandSynonyms_shape_lemma synonyms query) as [H1 H2].
  split; [exact H1|]. split; [exact H2 | reflexivity].
Qed.

Lemma dedupe_NoDup (l : list jsstring) : NoDup (dedupe l).
Proof.
  unfold dedupe. generalize (NoDup_nil jsstring). generalize (@nil jsstring) as acc.
  induction l as [|x l IH]; intros acc H; simpl; [exact H|].
  apply IH. now apply setAdd_NoDup.
Qed.

(** *** White space *)

Lemma dropSpaces_blank (s : jsstring) : forallb isSpace s = true -> dropSpaces s = [].
Proof.
  induction s as [|c s IH]; cbn [forallb dropSpaces]; [reflexivity|].
  intro H. apply andb_true_iff in H as [Hc Hs]. rewrite Hc. now apply IH.
Qed.

Lemma trim_blank (s : jsstring) : forallb isSpace s = true -> trim s = [].
Proof. intro H. unfold trim. now rewrite (@dropSpaces_blank s H). Qed.

Lemma dropSpaces_head (s : jsstring) :
  dropSpaces s = [] \/ exists c t, dropSpaces s = c :: t /\ isSpace c = false.
Proof.
  induction s as [|c s IH]; cbn [dropSpaces]; [now left|].
  destruct (isSpace c) eqn:E; [exact IH|]. right. now exists c, s.
Qed.

Lemma dropSpaces_app_last (x : jsstring) (h : N) :
  isSpace h = false -> exists y, dropSpaces (x ++ [h]) = y ++ [h].
Proof.
  intro H. induction x as [|c x IH]; cbn [app dropSpaces].
  - rewrite H. now exists [].
  - destruct (isSpace c); [exact IH|]. now exists (c :: x).
Qed.

Lemma dropSpaces_filter (s : jsstring) :
  filter nonSpace (dropSpaces s) = filter nonSpace s.
Proof.
  induction s as [|c s IH]; cbn [dropSpaces]; [reflexivity|].
  destruct (isSpace c) eqn:E; [|reflexivity].
  cbn [filter]. unfold nonSpace at 2. now rewrite E.
Qed.

Lemma filter_rev_nonSpace (s : jsstring) : filter nonSpace (rev s) = rev (filter nonSpace s).
Proof.
  induction s as [|c s IH]; [reflexivity|]. cbn [rev filter].
  rewrite filter_app, IH. cbn [filter]. destruct (nonSpace c); cbn [rev app]; [reflexivity|].
  now rewrite app_nil_r.
Qed.

Lemma trim_filter (s : jsstring) : filter nonSpace (trim s) = filter nonSpace s.
Proof.
  unfold trim.
  rewrite filter_rev_nonSpace, dropSpaces_filter, filter_rev_nonSpace, rev_involutive.
  apply dropSpaces_filter.
Qed.

(** A trimmed string is empty, or begins and ends with a code unit that is
    no white space. *)
Lemma trim_ends (s : jsstring) :
  trim s = [] \/
  (exists h m, trim s = h :: m /\ isSpace h = false) /\
  (exists y c, trim s = y ++ [c] /\ isSpace c = false).
Proof.
  unfold trim. destruct (dropSpaces_head s) as [-> | [h [d [Hd Hh]]]]; [now left|].
  rewrite Hd. cbn [rev].
  destruct (@dropSpaces_app_last (rev d) h Hh) as [y Hy]. rewrite Hy. right. split.
  - rewrite rev_app_distr. cbn [rev app]. now exists h, (rev y).
  - destruct (dropSpaces_head (rev d ++ [h])) as [E | [c [t [E Hc]]]].
    + rewrite E in Hy. destruct y; discriminate.
    + rewrite <- Hy, E. cbn [rev]. now exists (rev t), c.
Qed.

(** *** The pieces of [split] *)

Lemma splitSpacesFrom_concat (s cur : jsstring) (inRun : bool) :
  (inRun = true -> cur = []) ->
  concat (splitSpacesFrom s cur inRun) = cur ++ filter nonSpace s.
Proof.
  revert cur inRun; induction s as [|c s IH]; intros cur inRun H; cbn [splitSpacesFrom filter].
  - cbn. now rewrite app_nil_r.
  - unfold nonSpace at 1. destruct (isSpace c); cbn [negb].
    + destruct inRun.
      * rewrite IH by reflexivity. now rewrite (H eq_refl).
      * cbn [concat]. now rewrite IH.
    + rewrite IH by discriminate. now rewrite <- app_assoc.
Qed.

Lemma splitSpacesFrom_nonSpace (s cur : jsstring) (inRun : bool) :
  forallb nonSpace cur = true ->
  Forall (fun token => forallb nonSpace token = true) (splitSpacesFrom s cur inRun).
Proof.
  revert cur inRun; induction s as [|c s IH]; intros cur inRun H; cbn [splitSpacesFrom].
  - now repeat constructor.
  - destruct (isSpace c) eqn:E.
    + destruct inRun; [now apply IH|]. constructor; [exact H | now apply IH].
    + apply IH. rewrite forallb_app, H. cbn. unfold nonSpace. now rewrite E.
Qed.

Lemma splitSpacesFrom_pieces (s cur : jsstring) (inRun : bool) :
  (inRun = false -> cur <> [] \/ exists c s', s = c :: s' /\ isSpace c = false) ->
  match s with [] => cur <> [] | _ => isSpace (last s 0%N) = false end ->
  Forall (fun token => token <> []) (splitSpacesFrom s cur inRun).
Proof.
  revert cur inRun; induction s as [|c s IH]; intros cur inRun H1 H2; cbn [splitSpacesFrom].
  - now repeat constructor.
  - assert (Hlast : isSpace c = true ->
                    match s with [] => False | _ => isSpace (last s 0%N) = false end).
    { intro Hc. destruct s as [|c' s']; [cbn in H2; congruence | exact H2]. }
    destruct (isSpace c) eqn:E.
    + assert (Hrest : Forall (fun token => token <> []) (splitSpacesFrom s [] true)).
      { apply IH; [discriminate|]. specialize (Hlast eq_refl).
        destruct s; [contradiction | exact Hlast]. }
      destruct inRun; [exact Hrest|]. constructor; [|exact Hrest].
      destruct (H1 eq_refl) as [Hc | [c' [s' [Hs Hc']]]]; [exact Hc|].
      injection Hs as <- <-. congruence.
    + apply IH.
      * intros _. left. destruct cur; discriminate.
      * destruct s as [|c' s']; [destruct cur; discriminate | exact H2].
Qed.

Lemma isO_nonSpace (o : N) : isO o = true -> isSpace o = false.
Proof.
  unfold isO. intro H. apply orb_true_iff in H as [H | H];
    apply N.eqb_eq in H; subst o; reflexivity.
Qed.

Lemma countSpaces_app (w s : jsstring) :
  forallb isSpace w = true -> countSpaces (w ++ s) = length w + countSpaces s.
Proof.
  induction w as [|c w IH]; cbn [forallb app countSpaces length]; [reflexivity|].
  intro H. apply andb_true_iff in H as [Hc Hw]. rewrite Hc, IH by exact Hw. reflexivity.
Qed.

Lemma countSpaces_prefix (s : jsstring) :
  forallb isSpace (firstn (countSpaces s) s) = true /\
  length (firstn (countSpaces s) s) = countSpaces s.
Proof.
  induction s as [|c s [IH1 IH2]]; cbn [countSpaces]; [now split|].
  destruct (isSpace c) eqn:E; cbn [firstn forallb length]; [|now split].
  rewrite E, IH1, IH2. now split.
Qed.

Lemma matchSeparator_intro (w1 w2 b : jsstring) (o r : N) :
  blank w1 -> isO o = true -> isR r = true -> blank w2 ->
  exists n, matchSeparator (w1 ++ o :: r :: w2 ++ b) = Some n.
Proof.
  intros [Hn1 Hw1] Ho Hr [Hn2 Hw2]. unfold matchSeparator.
  rewrite (@countSpaces_app w1 _ Hw1). cbn [countSpaces]. rewrite (@isO_nonSpace o Ho), Nat.add_0_r.
  destruct w1 as [|c1 w1]; [congruence|]. cbn [length].
  change (S (length w1)) with (length (c1 :: w1)).
  rewrite skipn_app, skipn_all, Nat.sub_diag. cbn [app skipn].
  rewrite Ho, Hr. cbn [andb]. rewrite (@countSpaces_app w2 _ Hw2).
  destruct w2 as [|c2 w2]; [congruence|]. cbn [length plus]. eexists. reflexivity.
Qed.

Lemma matchSeparator_shape (s : jsstring) (n : nat) :
  matchSeparator s = Some n ->
  exists w1 o r w2 b,
    s = w1 ++ o :: r :: w2 ++ b /\
    blank w1 /\ isO o = true /\ isR r = true /\ blank w2.
Proof.
  unfold matchSeparator. destruct (countSpaces s) as [|n1] eqn:E1; [discriminate|].
  destruct (skipn (S n1) s) as [|o [|r rest]] eqn:E2; try discriminate.
  destruct (isO o && isR r) eqn:E3; [|discriminate].
  destruct (countSpaces rest) as [|n2] eqn:E4; [discriminate|]. intros _.
  apply andb_true_iff in E3 as [Ho Hr].
  destruct (countSpaces_prefix s) as [P1 P2]. destruct (countSpaces_prefix rest) as [Q1 Q2].
  rewrite E1 in P1, P2. rewrite E4 in Q1, Q2.
  exists (firstn (S n1) s), o, r, (firstn (S n2) rest), (skipn (S n2) rest).
  split; [|split; [|split; [|split]]]; auto.
  - rewrite firstn_skipn, <- E2. symmetry. apply firstn_skipn.
  - split; [|exact P1]. intro H. rewrite H in P2. discriminate.
  - split; [|exact Q1]. intro H. rewrite H in Q2. discriminate.
Qed.

Lemma splitOrFrom_nonempty (s cur : jsstring) (skip : nat) : splitOrFrom s skip cur <> [].
Proof.
  revert skip cur; induction s as [|c s IH]; intros skip cur; cbn [splitOrFrom].
  - discriminate.
  - destruct skip; [|apply IH]. destruct (matchSeparator (c :: s)); [discriminate | apply IH].
Qed.

Lemma splitOrFrom_found (a rest cur : jsstring) (n : nat) :
  matchSeparator rest = Some n -> 2 <= length (splitOrFrom (a ++ rest) 0 cur).
Proof.
  intro H.
  assert (G : forall s cur0, matchSeparator s = Some n -> 2 <= length (splitOrFrom s 0 cur0)).
  { intros s cur0 Hs. destruct s as [|c s]; [discriminate|]. cbn [splitOrFrom].
    rewrite Hs. cbn [length].
    pose proof (@splitOrFrom_nonempty s [] (pred n)) as Hne.
    destruct (splitOrFrom s (pred n) []); [congruence | cbn [length]; lia]. }
  revert cur; induction a as [|c a IH]; intros cur; cbn [app]; [now apply G|].
  cbn [splitOrFrom]. destruct (matchSeparator (c :: a ++ rest)) as [m|] eqn:E; [|apply IH].
  cbn [length].
  pose proof (@splitOrFrom_nonempty (a ++ rest) [] (pred m)) as Hne.
  destruct (splitOrFrom (a ++ rest) (pred m) []); [congruence | cbn [length]; lia].
Qed.

Lemma splitOrFrom_none (s cur : jsstring) :
  separatorSomewhere s = false -> splitOrFrom s 0 cur = [cur ++ s].
Proof.
  revert cur; induction s as [|c s IH]; intros cur; cbn [separatorSomewhere splitOrFrom].
  - intros _. now rewrite app_nil_r.
  - destruct (matchSeparator (c :: s)); [discriminate|]. intro H.
    rewrite IH by exact H. now rewrite <- app_assoc.
Qed.

Lemma separatorSomewhere_true (s : jsstring) :
  separatorSomewhere s = true ->
  exists a rest n, s = a ++ rest /\ matchSeparator rest = Some n.
Proof.
  induction s as [|c s IH]; cbn [separatorSomewhere].
  - destruct (matchSeparator []) eqn:E; [|discriminate]. intros _. now exists [], [], n.
  - destruct (matchSeparator (c :: s)) as [n|] eqn:E.
    + intros _. now exists [], (c :: s), n.
    + intro H. destruct (IH H) as [a [rest [n [-> Hn]]]]. now exists (c :: a), rest, n.
Qed.

Lemma splitOr_mode (query : jsstring) :
  Nat.ltb 1 (length (splitOr query)) = true <-> hasSeparator query.
Proof.
  unfold splitOr. split.
  - intro H. destruct (separatorSomewhere query) eqn:E.
    + destruct (@separatorSomewhere_true query E) as [a [rest [n [-> Hn]]]].
      destruct (@matchSeparator_shape rest n Hn) as [w1 [o [r [w2 [b [-> Hrest]]]]]].
      now exists a, w1, o, r, w2, b.
    + rewrite (@splitOrFrom_none query [] E) in H. discriminate.
  - intros [a [w1 [o [r [w2 [b [-> [H1 [Ho [Hr H2]]]]]]]]]].
    destruct (@matchSeparator_intro w1 w2 b o r H1 Ho Hr H2) as [n Hn].
    apply Nat.ltb_lt. apply (@splitOrFrom_found a _ [] n Hn).
Qed.

(** X7: a query is parsed in OR mode exactly when the word OR, in capitals
    or not, stands somewhere in it between white space on both sides, and
    in AND mode otherwise; an OR query has at least two groups, one for each
    piece, which is the expansion of the trimmed piece. *)
Theorem parseSearchQuery_mode (synonyms : Synonyms) (query : jsstring) :
  (hasSeparator query ->
   parseSearchQuery synonyms query
   = QueryOR (map (fun group => expandSynonyms synonyms (trim group)) (splitOr query))
             (map trim (splitOr query)) /\
   2 <= length (splitOr query)) /\
  (~ hasSeparator query ->
   parseSearchQuery synonyms query
   = QueryAND (dedupe (flat_map (expandSynonyms synonyms) (splitSpaces (trim query))))
              (splitSpaces (trim query))).
Proof.
  unfold parseSearchQuery. split.
  - intro H. pose proof (proj2 (splitOr_mode query) H) as E. rewrite E.
    split; [reflexivity | now apply Nat.ltb_lt].
  - intro H. destruct (Nat.ltb 1 (length (splitOr query))) eqn:E; [|reflexivity].
    exfalso. apply H. now apply splitOr_mode.
Qed.

(** X8: the tokens of an AND query that is not blank are never empty and
    hold no white space, and together, in their order, they are the query
    with its white space taken out; the expanded terms are, without
    repetition, the expansions of the tokens. *)
Theorem and_query_tokens (synonyms : Synonyms) (query : jsstring)
    (terms originalTerms : list jsstring) :
  parseSearchQuery synonyms query = QueryAND terms originalTerms ->
  trim query <> [] ->
  Forall (fun token => token <> [] /\ forallb nonSpace token = true) originalTerms /\
  concat originalTerms = filter nonSpace query /\
  NoDup terms /\
  (forall x, In x terms <->
             exists token, In token originalTerms /\ In x (expandSynonyms synonyms token)).
Proof.
  unfold parseSearchQuery. destruct (Nat.ltb 1 (length (splitOr query))); [discriminate|].
  intros [= <- <-] Hne. unfold splitSpaces. split; [|split; [|split]].
  - apply Forall_and.
    + destruct (trim_ends query) as [E | [[h [m [Eh Hh]]] [y [c [Ey Hc]]]]]; [congruence|].
      apply splitSpacesFrom_pieces.
      * intros _. right. now exists h, m.
      * rewrite Eh. rewrite <- Eh, Ey. now rewrite last_last.
    + now apply splitSpacesFrom_nonSpace.
  - rewrite splitSpacesFrom_concat by discriminate. apply trim_filter.
  - apply dedupe_NoDup.
  - intro x. rewrite dedupe_In, in_flat_map. reflexivity.
Qed.

(** X9: [search] gives two empty lists, whatever the engine holds, when the
    engine is not ready and when the query is empty or made of white space
    only. *)
Theorem search_blank (e : Engine.t) (query : jsstring) (filters : Filters.t) :
  Engine.isReady e = false \/ forallb isSpace query = true ->
  search e query filters = emptyResult.
Proof.
  intros [H | H]; unfold search.
  - now rewrite H.
  - rewrite (@trim_blank query H). cbn [length Nat.eqb]. now rewrite !orb_true_r.
Qed.

(** *** What the sort of the shared array does not change *)

Lemma sumZ_perm (A : Type) (g : A -> Z) (l l' : list A) :
  Permutation l l' -> sumZ (map g l) = sumZ (map g l').
Proof.
  induction 1; simpl; lia.
Qed.

(** X10: the score of an article and the score of a PDF record do not depend
    on the order of the matched terms, so the sort of the shared array
    never changes a score. *)
Theorem score_order_free (terms terms' : list jsstring) :
  Permutation terms terms' ->
  (forall article query,
     calculateScore article query terms = calculateScore article query terms') /\
  (forall pdf searchText,
     fold_left (pdfTermScore pdf searchText) terms 0%Z
     = fold_left (pdfTermScore pdf searchText) terms' 0%Z).
Proof.
  intro H. split.
  - intros article query. rewrite !calculateScore_sum. f_equal. now apply sumZ_perm.
  - intros pdf searchText. rewrite !pdfScore_sum. now apply sumZ_perm.
Qed.

Lemma variant_perm (terms current : list jsstring) :
  variant terms current -> Permutation terms current.
Proof. intros [-> | ->]; [reflexivity | apply sortDesc_perm]. Qed.

Lemma calculateScore_variant (article : Article.t) (query : jsstring)
    (terms current : list jsstring) :
  variant terms current ->
  calculateScore article query current = calculateScore article query terms.
Proof.
  intro H. rewrite !calculateScore_sum. f_equal. apply sumZ_perm.
  symmetry. now apply variant_perm.
Qed.

Lemma pdfScore_variant (pdf : Pdf.t) (searchText : jsstring) (terms current : list jsstring) :
  variant terms current ->
  fold_left (pdfTermScore pdf searchText) current 0%Z
  = fold_left (pdfTermScore pdf searchText) terms 0%Z.
Proof.
  intro H. rewrite !pdfScore_sum. apply sumZ_perm. symmetry. now apply variant_perm.
Qed.

Lemma highlightText_fst (text : jsstring) (terms : list jsstring) :
  fst (highlightText text terms) =
  match text with
  | [] => []
  | _ => fold_left highlightStep (sortDesc lengthKey terms) text
  end.
Proof.
  unfold highlightText. destruct text as [|c text]; [reflexivity|].
  now destruct terms.
Qed.

Lemma highlight_variant (text : jsstring) (terms current : list jsstring) :
  variant terms current ->
  fst (highlightText text current) = fst (highlightText text terms) /\
  variant terms (snd (highlightText text current)).
Proof.
  intro H. rewrite !highlightText_fst, highlightText_terms. split.
  - destruct H as [-> | ->]; [reflexivity | now rewrite sortDesc_idempotent].
  - destruct text; [exact H|]. right.
    destruct H as [-> | ->]; [reflexivity | apply sortDesc_idempotent].
Qed.

Lemma variant_refl (terms : list jsstring) : variant terms terms.
Proof. now left. Qed.

(** One article looked at with the array as it is at that moment and with
    the array as parsed: the same result, and the array stays one of the
    two. *)
Lemma searchArticle_sameQuery (synonyms : Synonyms) (query : jsstring) (l : Law.t)
    (parsedQuery current : ParsedQuery) (article : Article.t) :
  sameQuery parsedQuery current ->
  sameQuery parsedQuery (fst (searchArticle synonyms query l current article)) /\
  snd (searchArticle synonyms query l current article)
  = snd (searchArticle synonyms query l parsedQuery article).
Proof.
  destruct parsedQuery as [groups originalTerms | terms originalTerms]; cbn [sameQuery].
  - intros ->. split; [|reflexivity].
    rewrite searchArticle_eq. cbv zeta. now destruct (fst (matchRecord _ _ _)).
  - intros [current' [Hv ->]]. rewrite !searchArticle_eq. cbv zeta.
    rewrite !matchRecord_and.
    destruct (forallb (tokenHit synonyms (articleText article)) originalTerms);
      cbn [fst snd storeTerms].
    + destruct (highlight_variant (Article.title article) Hv) as [T1 V1].
      destruct (highlight_variant (excerpt (Article.content article)) V1) as [T2 V2].
      destruct (highlight_variant (Article.title article) (variant_refl terms)) as [_ V1'].
      destruct (highlight_variant (excerpt (Article.content article)) V1') as [T2' _].
      split; [eexists; split; [exact V2 | reflexivity]|].
      rewrite T1, T2, T2', (calculateScore_variant article query Hv). reflexivity.
    + split; [|reflexivity]. eexists. split; [exact Hv | reflexivity].
Qed.

Lemma searchPdf_sameQuery (e : Engine.t) (category : PdfType)
    (parsedQuery current : ParsedQuery) (pdf : Pdf.t) :
  sameQuery parsedQuery current ->
  sameQuery parsedQuery (fst (searchPdf e category current pdf)) /\
  option_map withoutPreview (snd (searchPdf e category current pdf))
  = option_map withoutPreview (snd (searchPdf e category parsedQuery pdf)).
Proof.
  destruct parsedQuery as [groups originalTerms | terms originalTerms]; cbn [sameQuery].
  - intros ->. split; [|reflexivity].
    rewrite searchPdf_eq. cbv zeta. now destruct (fst (matchRecord _ _ _)).
  - intros [current' [Hv ->]]. rewrite !searchPdf_eq. cbv zeta.
    rewrite !matchRecord_and.
    destruct (forallb (tokenHit (Engine.synonyms e) (pdfSearchText pdf)) originalTerms);
      cbn [fst snd storeTerms option_map].
    + destruct (highlight_variant (Pdf.title pdf) Hv) as [T1 V1].
      destruct (highlight_variant (makePreview (Pdf.content pdf) current') V1) as [_ V2].
      split; [eexists; split; [exact V2 | reflexivity]|].
      unfold withoutPreview. cbn.
      rewrite T1, (pdfScore_variant pdf (pdfSearchText pdf) Hv). reflexivity.
    + split; [|reflexivity]. eexists. split; [exact Hv | reflexivity].
Qed.

Lemma push_optList (A : Type) (results : list A) (r : option A) :
  push results r = results ++ optList r.
Proof. destruct r; simpl; [reflexivity | now rewrite app_nil_r]. Qed.

(** A loop that threads a state and gathers results gives, seen through
    [g], the results a scan without state gives, when each step does. *)
Lemma loop_pure (S R R' X : Type) (rel : S -> Prop) (g : R -> R')
    (step : S * list R -> X -> S * list R) (pure : X -> list R')
    (xs : list X) (st : S * list R) :
  (forall st x, rel (fst st) ->
                rel (fst (step st x)) /\
                map g (snd (step st x)) = map g (snd st) ++ pure x) ->
  rel (fst st) ->
  rel (fst (fold_left step xs st)) /\
  map g (snd (fold_left step xs st)) = map g (snd st) ++ flat_map pure xs.
Proof.
  intro Hstep. revert st; induction xs as [|x xs IH]; intros st Hrel; simpl.
  - split; [exact Hrel | now rewrite app_nil_r].
  - destruct (Hstep st x Hrel) as [H1 H2].
    destruct (IH _ H1) as [H3 H4]. split; [exact H3|].
    now rewrite H4, H2, <- app_assoc.
Qed.

Lemma scanLaws_pure (e : Engine.t) (query : jsstring) (filters : Filters.t)
    (parsedQuery : ParsedQuery) :
  sameQuery parsedQuery (fst (scanLaws e query filters parsedQuery)) /\
  snd (scanLaws e query filters parsedQuery) = articleHits e query filters parsedQuery.
Proof.
  assert (Hrefl : sameQuery parsedQuery parsedQuery).
  { destruct parsedQuery; cbn; [reflexivity|]. eexists. split; [apply variant_refl | reflexivity]. }
  unfold scanLaws, articleHits.
  destruct (@loop_pure _ _ _ _ (sameQuery parsedQuery) (fun r : ArticleResult.t => r)
              (lawLoop (Engine.synonyms e) query filters)
              (fun law =>
                 if lawAllowed filters law then
                   flat_map (fun article =>
                               optList (snd (searchArticle (Engine.synonyms e) query law
                                                           parsedQuery article)))
                            (Law.articles law)
                 else [])
              (Engine.laws e) (parsedQuery, [])) as [H1 H2].
  - intros st law Hrel. unfold lawLoop, lawAllowed.
    destruct (str_eqb (Law.lawType law) lawTypeStatute && negb (Filters.law filters));
      cbn [negb andb]; [split; [exact Hrel | now rewrite app_nil_r]|].
    destruct (str_eqb (Law.lawType law) lawTypeOrdinance && negb (Filters.ordinance filters));
      cbn [negb]; [split; [exact Hrel | now rewrite app_nil_r]|].
    apply loop_pure; [|exact Hrel].
    intros st' article Hrel'. unfold articleLoop.
    destruct (@searchArticle_sameQuery (Engine.synonyms e) query law parsedQuery
                (fst st') article Hrel') as [G1 G2].
    destruct (searchArticle (Engine.synonyms e) query law (fst st') article) as [pq' r].
    cbn [fst snd] in *. split; [exact G1|].
    now rewrite push_optList, map_app, <- G2, !map_id.
  - exact Hrefl.
  - split; [exact H1|]. rewrite map_id in H2. exact H2.
Qed.

Lemma scanPDFs_pure (e : Engine.t) (parsedQuery current : ParsedQuery) :
  sameQuery parsedQuery current ->
  map withoutPreview (snd (scanPDFs e current)) = pdfHits e parsedQuery.
Proof.
  intro Hrel. unfold scanPDFs, pdfHits.
  destruct (@loop_pure _ _ _ _ (sameQuery parsedQuery) withoutPreview
              (fun st category => fold_left (pdfLoop e (snd category)) (fst category) st)
              (fun category =>
                 flat_map (fun pdf =>
                             optList (option_map withoutPreview
                                        (snd (searchPdf e (snd category) parsedQuery pdf))))
                          (fst category))
              (categories e) (current, [])) as [_ H2].
  - intros st category Hst. apply loop_pure; [|exact Hst].
    intros st' pdf Hrel'. unfold pdfLoop.
    destruct (@searchPdf_sameQuery e (snd category) parsedQuery (fst st') pdf Hrel')
      as [G1 G2].
    destruct (searchPdf e (snd category) (fst st') pdf) as [pq' r].
    cbn [fst snd] in *. split; [exact G1|].
    rewrite push_optList, map_app, <- G2. now destruct r.
  - exact Hrel.
  - exact H2.
Qed.

Lemma insertDesc_map (A B : Type) (g : A -> B) (key : A -> Z) (key' : B -> Z)
    (x : A) (l : list A) :
  (forall y, key' (g y) = key y) ->
  map g (insertDesc key x l) = insertDesc key' (g x) (map g l).
Proof.
  intro H. induction l as [|y l IH]; simpl; [reflexivity|].
  rewrite !H. destruct (key y <=? key x)%Z; simpl; [reflexivity | now rewrite IH].
Qed.

Lemma sortDesc_map (A B : Type) (g : A -> B) (key : A -> Z) (key' : B -> Z) (l : list A) :
  (forall y, key' (g y) = key y) ->
  map g (sortDesc key l) = sortDesc key' (map g l).
Proof.
  intro H. induction l as [|x l IH]; simpl; [reflexivity|].
  now rewrite (insertDesc_map g key key' x (sortDesc key l) H), IH.
Qed.

Lemma searchGuard_false (e : Engine.t) (query : jsstring) :
  Engine.isReady e = true -> trim query <> [] -> searchGuard e query = false.
Proof.
  intros H1 H2. unfold searchGuard. rewrite H1.
  destruct query; [now contradiction H2|]. destruct (trim (n :: query)); [congruence | reflexivity].
Qed.

Lemma search_articles (e : Engine.t) (query : jsstring) (filters : Filters.t) :
  articles (search e query filters) =
  if searchGuard e query then []
  else sortDesc ArticleResult.score
         (articleHits e query filters
            (parseSearchQuery (Engine.synonyms e) (trim query))).
Proof.
  unfold search. fold (searchGuard e query). destruct (searchGuard e query); [reflexivity|].
  destruct (scanLaws_pure e query filters
              (parseSearchQuery (Engine.synonyms e) (trim query))) as [_ H].
  destruct (scanLaws e query filters _) as [pq' results]. cbn [snd articles] in *.
  now rewrite H.
Qed.

Lemma search_pdfs (e : Engine.t) (query : jsstring) (filters : Filters.t) :
  map withoutPreview (pdfs (search e query filters)) =
  if searchGuard e query then []
  else sortDesc PdfResult.score
         (pdfHits e (parseSearchQuery (Engine.synonyms e) (trim query))).
Proof.
  unfold search. fold (searchGuard e query). destruct (searchGuard e query); [reflexivity|].
  destruct (scanLaws_pure e query filters
              (parseSearchQuery (Engine.synonyms e) (trim query))) as [H _].
  destruct (scanLaws e query filters _) as [pq' results]. cbn [fst pdfs] in *.
  unfold searchPDFs.
  rewrite (sortDesc_map withoutPreview PdfResult.score PdfResult.score); [|reflexivity].
  now rewrite (@scanPDFs_pure e _ pq' H).
Qed.

(** X11: the articles [search] returns are, sorted by score, exactly the
    results the articles of the laws let through by the filters give with
    the parsed query as [parseSearchQuery] returned it: the sort of the
    shared array of terms by [highlightText] changes nothing in them, and an
    article is returned exactly when its law passes the filters and the
    matching block accepts it. *)
Theorem search_articles_exact (e : Engine.t) (query : jsstring) (filters : Filters.t) :
  Engine.isReady e = true -> trim query <> [] ->
  let parsedQuery := parseSearchQuery (Engine.synonyms e) (trim query) in
  articles (search e query filters)
  = sortDesc ArticleResult.score (articleHits e query filters parsedQuery) /\
  (forall r,
     In r (articles (search e query filters)) <->
     exists law article,
       In law (Engine.laws e) /\ lawAllowed filters law = true /\
       In article (Law.articles law) /\
       snd (searchArticle (Engine.synonyms e) query law parsedQuery article) = Some r) /\
  (forall law article,
     In law (Engine.laws e) -> lawAllowed filters law = true ->
     In article (Law.articles law) ->
     fst (matchRecord (Engine.synonyms e) parsedQuery (articleText article)) = true ->
     exists r, In r (articles (search e query filters)) /\
               ArticleResult.lawId r = Law.lawId law /\
               ArticleResult.articleNumber r = Article.articleNumber article /\
               ArticleResult.title r = Article.title article /\
               ArticleResult.content r = Article.content article).
Proof.
  intros Hready Hquery. cbv zeta.
  assert (E : articles (search e query filters)
              = sortDesc ArticleResult.score
                  (articleHits e query filters
                     (parseSearchQuery (Engine.synonyms e) (trim query)))).
  { rewrite search_articles. now rewrite (@searchGuard_false e query Hready Hquery). }
  assert (M : forall r,
             In r (articles (search e query filters)) <->
             exists law article,
               In law (Engine.laws e) /\ lawAllowed filters law = true /\
               In article (Law.articles law) /\
               snd (searchArticle (Engine.synonyms e) query law
                      (parseSearchQuery (Engine.synonyms e) (trim query)) article) = Some r).
  { intro r. rewrite E, sortDesc_In. unfold articleHits. rewrite in_flat_map. split.
    - intros [law [Hlaw Hin]]. destruct (lawAllowed filters law) eqn:Ha; [|contradiction].
      apply in_flat_map in Hin as [article [Harticle Hr]]. exists law, article.
      repeat split; auto.
      destruct (snd (searchArticle _ _ _ _ _)) as [r'|]; cbn in Hr; [|contradiction].
      destruct Hr as [-> | []]. reflexivity.
    - intros [law [article [Hlaw [Ha [Harticle Hr]]]]]. exists law. split; [exact Hlaw|].
      rewrite Ha. apply in_flat_map. exists article. split; [exact Harticle|].
      rewrite Hr. now left. }
  split; [exact E|]. split; [exact M|].
  intros law article Hlaw Ha Harticle Hm.
  destruct (proj2 (searchArticle_some (Engine.synonyms e) query law
                     (parseSearchQuery (Engine.synonyms e) (trim query)) article) Hm)
    as [r Hr].
  exists r. split; [apply M; now exists law, article|].
  rewrite searchArticle_eq in Hr. cbv zeta in Hr. rewrite Hm in Hr. cbn [snd] in Hr.
  injection Hr as <-. cbn. auto.
Qed.

(** X12: with the switch for statutes off no returned article belongs to a
    law whose type is the statute type, and with the switch for ordinances
    off none belongs to a law of the ordinance type; a law of any other type
    is never left out by the filters. *)
Theorem search_respects_filters (e : Engine.t) (query : jsstring) (filters : Filters.t) :
  (Filters.law filters = false ->
   Forall (fun r => ArticleResult.lawType r <> lawTypeStatute)
          (articles (search e query filters))) /\
  (Filters.ordinance filters = false ->
   Forall (fun r => ArticleResult.lawType r <> lawTypeOrdinance)
          (articles (search e query filters))) /\
  (forall law, Law.lawType law <> lawTypeStatute -> Law.lawType law <> lawTypeOrdinance ->
               lawAllowed filters law = true).
Proof.
  assert (M : forall r, In r (articles (search e query filters)) ->
              exists law, lawAllowed filters law = true /\
                          ArticleResult.lawType r = Law.lawType law).
  { intros r. rewrite search_articles. destruct (searchGuard e query); [contradiction|].
    rewrite sortDesc_In. unfold articleHits. rewrite in_flat_map.
    intros [law [Hlaw Hin]]. destruct (lawAllowed filters law) eqn:Ha; [|contradiction].
    apply in_flat_map in Hin as [article [Harticle Hr]]. exists law. split; [exact Ha|].
    rewrite searchArticle_eq in Hr. cbv zeta in Hr.
    destruct (fst (matchRecord _ _ _)); cbn in Hr; [|contradiction].
    destruct Hr as [<- | []]. reflexivity. }
  split; [|split].
  - intro Hoff. apply Forall_forall. intros r Hr.
    destruct (M r Hr) as [law [Ha ->]]. unfold lawAllowed in Ha. rewrite Hoff in Ha.
    intro Heq. apply str_eqb_eq in Heq. rewrite Heq in Ha. discriminate.
  - intro Hoff. apply Forall_forall. intros r Hr.
    destruct (M r Hr) as [law [Ha ->]]. unfold lawAllowed in Ha. rewrite Hoff in Ha.
    intro Heq. apply str_eqb_eq in Heq. rewrite Heq in Ha.
    rewrite andb_false_r in Ha. discriminate.
  - intros law H1 H2. unfold lawAllowed.
    destruct (str_eqb (Law.lawType law) lawTypeStatute) eqn:E1;
      [apply str_eqb_eq in E1; contradiction|].
    destruct (str_eqb (Law.lawType law) lawTypeOrdinance) eqn:E2;
      [apply str_eqb_eq in E2; contradiction|].
    reflexivity.
Qed.

(** X13: but for the preview and its highlighted form, the PDF results of
    [search] are, sorted by score, those every record gives with the parsed
    query as [parseSearchQuery] returned it; so which PDF records are
    returned, their scores, their order and their highlighted titles do not
    depend on the filters. *)
Theorem search_pdfs_filter_free (e : Engine.t) (query : jsstring)
    (filters filters' : Filters.t) :
  map withoutPreview (pdfs (search e query filters))
  = map withoutPreview (pdfs (search e query filters')) /\
  (Engine.isReady e = true -> trim query <> [] ->
   map withoutPreview (pdfs (search e query filters))
   = sortDesc PdfResult.score
       (pdfHits e (parseSearchQuery (Engine.synonyms e) (trim query)))).
Proof.
  split.
  - now rewrite !search_pdfs.
  - intros Hready Hquery. rewrite search_pdfs.
    now rewrite (@searchGuard_false e query Hready Hquery).
Qed.

Lemma flat_map_optList_length (A B : Type) (f : A -> option B) (l : list A) :
  length (flat_map (fun x => optList (f x)) l) <= length l.
Proof.
  induction l as [|x l IH]; simpl; [lia|]. rewrite length_app.
  destruct (f x); simpl; lia.
Qed.

Lemma sortDesc_length (A : Type) (key : A -> Z) (l : list A) :
  length (sortDesc key l) = length l.
Proof. symmetry. apply Permutation_length, sortDesc_perm. Qed.

Lemma articleHits_length (e : Engine.t) (query : jsstring) (filters : Filters.t)
    (parsedQuery : ParsedQuery) :
  length (articleHits e query filters parsedQuery)
  <= list_sum (map (fun law => length (Law.articles law)) (Engine.laws e)).
Proof.
  unfold articleHits. induction (Engine.laws e) as [|law laws IH]; simpl; [lia|].
  rewrite length_app.
  assert (length (if lawAllowed filters law
                  then flat_map (fun article =>
                                   optList (snd (searchArticle (Engine.synonyms e) query law
                                                               parsedQuery article)))
                                (Law.articles law)
                  else []) <= length (Law.articles law)); [|lia].
  destruct (lawAllowed filters law); [apply flat_map_optList_length | simpl; lia].
Qed.

Lemma pdfHits_length (e : Engine.t) (parsedQuery : ParsedQuery) :
  length (pdfHits e parsedQuery)
  <= length (PdfContent.standards (Engine.pdfContent e))
     + length (PdfContent.details (Engine.pdfContent e))
     + length (PdfContent.appendices (Engine.pdfContent e))
     + length (PdfContent.other (Engine.pdfContent e)).
Proof.
  unfold pdfHits, categories. cbn [flat_map fst snd]. rewrite !length_app.
  pose proof (fun c l => @flat_map_optList_length _ _
                (fun pdf => option_map withoutPreview (snd (searchPdf e c parsedQuery pdf))) l)
    as H.
  pose proof (H standard (PdfContent.standards (Engine.pdfContent e))).
  pose proof (H detail (PdfContent.details (Engine.pdfContent e))).
  pose proof (H appendix (PdfContent.appendices (Engine.pdfContent e))).
  pose proof (H other (PdfContent.other (Engine.pdfContent e))).
  cbn [length]. lia.
Qed.

(** X14: [search] never returns more articles than [getStats] counts, nor
    more PDF records than the four PDF counts of [getStats] together. *)
Theorem search_within_stats (e : Engine.t) (query : jsstring) (filters : Filters.t)
    (stats : Stats) :
  getStats e = Some stats ->
  length (articles (search e query filters)) <= articleCount stats /\
  length (pdfs (search e query filters))
  <= standardsCount stats + detailsCount stats + appendicesCount stats + otherCount stats.
Proof.
  unfold getStats. destruct (negb (Engine.isReady e)); [discriminate|].
  intros [= <-]. cbn [articleCount standardsCount detailsCount appendicesCount otherCount].
  rewrite fold_left_count. cbn [plus]. split.
  - rewrite search_articles. destruct (searchGuard e query); [simpl; lia|].
    rewrite sortDesc_length. apply articleHits_length.
  - rewrite <- (length_map withoutPreview), search_pdfs.
    destruct (searchGuard e query); [simpl; lia|].
    rewrite sortDesc_length. apply pdfHits_length.
Qed.

(** X15: every PDF result of [search] carries the category, the label, the
    id, the title, the full content and the keywords of a record of that
    category, the display name [formatPDFDisplayName] gives for the id and
    the URL [getPDFUrl] gives for it. *)
Theorem search_pdf_provenance (e : Engine.t) (query : jsstring) (filters : Filters.t)
    (r : PdfResult.t) :
  In r (pdfs (search e query filters)) ->
  exists records category pdf,
    In (records, category) (categories e) /\ In pdf records /\
    PdfResult.type r = category /\
    PdfResult.typeLabel r = typeLabelOf category /\
    PdfResult.id r = Pdf.id pdf /\
    PdfResult.title r = Pdf.title pdf /\
    PdfResult.fullContent r = Pdf.content pdf /\
    PdfResult.keywords r = orEmpty (Pdf.keywords pdf) /\
    PdfResult.displayName r = formatPDFDisplayName (Pdf.id pdf) /\
    PdfResult.url r = getPDFUrl e (Pdf.id pdf).
Proof.
  intro Hr. apply (in_map withoutPreview) in Hr. rewrite search_pdfs in Hr.
  destruct (searchGuard e query); [contradiction|].
  apply sortDesc_In in Hr. unfold pdfHits in Hr.
  apply in_flat_map in Hr as [[records category] [Hc Hin]]. cbn [fst snd] in Hin.
  apply in_flat_map in Hin as [pdf [Hpdf Hin]].
  exists records, category, pdf. split; [exact Hc|]. split; [exact Hpdf|].
  rewrite searchPdf_eq in Hin. cbv zeta in Hin.
  destruct (fst (matchRecord _ _ _)); cbn [snd option_map optList] in Hin; [|contradiction].
  destruct Hin as [Heq | []].
  apply (f_equal PdfResult.type) in Heq as H1.
  apply (f_equal PdfResult.typeLabel) in Heq as H2.
  apply (f_equal PdfResult.id) in Heq as H3.
  apply (f_equal PdfResult.title) in Heq as H4.
  apply (f_equal PdfResult.fullContent) in Heq as H5.
  apply (f_equal PdfResult.keywords) in Heq as H6.
  apply (f_equal PdfResult.displayName) in Heq as H7.
  apply (f_equal PdfResult.url) in Heq as H8.
  cbn in H1, H2, H3, H4, H5, H6, H7, H8. repeat split; congruence.
Qed.

(** *** An empty word in the dictionary *)

(** X16: when the dictionary has an entry whose key is the empty string, or
    one with the empty string among its synonyms, the empty string is in the
    expansion of every term, and every query then matches every search
    text, in AND mode and in OR mode. *)
Theorem empty_word_matches_all (synonyms : Synonyms) (key : jsstring)
    (syns : list jsstring) :
  toLowerCase [] = [] ->
  In (key, syns) synonyms -> key = [] \/ In [] syns ->
  (forall query, In [] (expandSynonyms synonyms query)) /\
  (forall query text,
     fst (matchRecord synonyms (parseSearchQuery synonyms query) text) = true).
Proof.
  intros Hlower Hentry Hempty.
  assert (E : forall query, In [] (expandSynonyms synonyms query)).
  { intro query. apply expandSynonyms_In. right. exists (key, syns).
    split; [exact Hentry|]. unfold entryTaken, entryWord. cbn [fst snd].
    destruct Hempty as [-> | Hs].
    - rewrite Hlower. split; [left; apply includes_nil | now left].
    - split; right; exists []; rewrite Hlower; (split; [exact Hs|]);
        [apply includes_nil | reflexivity]. }
  split; [exact E|]. intros query text. unfold parseSearchQuery.
  destruct (Nat.ltb 1 (length (splitOr query))) eqn:Hmode.
  - cbn [matchRecord]. apply matchGroups_true.
    destruct (splitOr query) as [|piece pieces] eqn:Hs; [discriminate|].
    exists (expandSynonyms synonyms (trim piece)). split; [now left|].
    apply groupHit_iff. exists []. split; [apply E|]. rewrite Hlower. apply includes_nil.
  - rewrite matchRecord_and.
    assert (F : forallb (tokenHit synonyms text) (splitSpaces (trim query)) = true).
    { apply forallb_forall. intros token _. apply tokenHit_iff. exists [].
      split; [apply E|]. rewrite Hlower. apply includes_nil. }
    now rewrite F.
Qed.

(** *** Sizes *)

Lemma substring_length (s : jsstring) (a b : nat) :
  length (substring s a b)
  <= Nat.max (Nat.min a (length s)) (Nat.min b (length s))
     - Nat.min (Nat.min a (length s)) (Nat.min b (length s)).
Proof.
  unfold substring. rewrite length_firstn. lia.
Qed.

Lemma scanPreview_length (content : jsstring) (matchedTerms : list jsstring)
    (preview : jsstring) :
  scanPreview content matchedTerms = Some preview -> length preview <= 206.
Proof.
  induction matchedTerms as [|term rest IH]; cbn [scanPreview]; [discriminate|].
  destruct (indexOf (toLowerCase content) (toLowerCase term)) as [index|]; [|exact IH].
  destruct (Nat.ltb index 500); [|exact IH].
  intros [= <-]. rewrite window_eq, !length_app. cbn [ellipsis length].
  pose proof (substring_length content (Nat.max 0 (index - 50))
                (Nat.min (length content) (index + 150))). lia.
Qed.

(** X17: the preview of a PDF record has at most 206 code units (a window
    of at most 200 between two marks of 3), and the excerpt of an article
    that is highlighted at most 303. *)
Theorem preview_bounds (content : jsstring) (matchedTerms : list jsstring) :
  length (makePreview content matchedTerms) <= 206 /\
  length (excerpt content) <= 303.
Proof.
  split.
  - unfold makePreview.
    destruct (scanPreview content matchedTerms) as [preview|] eqn:E.
    + now apply (@scanPreview_length content matchedTerms).
    + pose proof (substring_length content 0 200). lia.
  - unfold excerpt. rewrite length_app.
    pose proof (substring_length content 0 300).
    destruct (Nat.ltb 300 (length content)); cbn [ellipsis length]; lia.
Qed.

Lemma wrapMatchesFrom_length (p s : jsstring) (skip : nat) :
  p <> [] ->
  length (wrapMatchesFrom p s skip)
  = length (skipn skip s)
    + countMatchesFrom p s skip * (length openTag + length closeTag).
Proof.
  intro Hp. revert skip; induction s as [|c s IH]; intros skip.
  - destruct skip; cbn [wrapMatchesFrom countMatchesFrom skipn length]; [|reflexivity].
    destruct p; [congruence | reflexivity].
  - cbn [wrapMatchesFrom countMatchesFrom]. destruct skip as [|k]; [|apply IH].
    destruct (matchesAt (c :: s) p) eqn:E.
    + apply matchesAt_length in E. cbn [length] in E.
      assert (Hn : length p = S (pred (length p))) by (destruct p; [congruence | reflexivity]).
      rewrite !length_app, IH, length_firstn, length_skipn. cbn [skipn length].
      rewrite Nat.min_l by (cbn [length]; lia). lia.
    + cbn [length skipn]. rewrite IH. cbn [skipn]. lia.
Qed.

Lemma wrapMatchesFrom_none (p s : jsstring) (skip : nat) :
  countMatchesFrom p s skip = 0 -> wrapMatchesFrom p s skip = skipn skip s.
Proof.
  revert skip; induction s as [|c s IH]; intros skip.
  - destruct skip; reflexivity.
  - cbn [wrapMatchesFrom countMatchesFrom]. destruct skip as [|k]; [|apply IH].
    destruct (matchesAt (c :: s) p); [discriminate|].
    intro H. cbn [skipn]. now rewrite (IH 0 H).
Qed.

Lemma highlightStep_length (result term : jsstring) :
  length result <= length (highlightStep result term) /\
  (2 <= length term -> 1 <= countMatches result term ->
   length result < length (highlightStep result term)).
Proof.
  unfold highlightStep, wrapMatches, countMatches.
  destruct (Nat.ltb (length term) 2) eqn:E.
  - apply Nat.ltb_lt in E. split; lia.
  - assert (Hp : term <> []) by (apply Nat.ltb_ge in E; destruct term; [simpl in E; lia | discriminate]).
    rewrite (@wrapMatchesFrom_length term result 0 Hp). cbn [skipn].
    assert (0 < length openTag + length closeTag) by (vm_compute; lia).
    split; [lia | nia].
Qed.

Lemma highlightStep_none (result term : jsstring) :
  (2 <= length term -> countMatches result term = 0) ->
  highlightStep result term = result.
Proof.
  intro H. unfold highlightStep. destruct (Nat.ltb (length term) 2) eqn:E; [reflexivity|].
  apply Nat.ltb_ge in E. unfold wrapMatches.
  now rewrite (@wrapMatchesFrom_none term result 0 (H E)).
Qed.

Lemma fold_highlight_length (terms : list jsstring) (text : jsstring) :
  length text <= length (fold_left highlightStep terms text).
Proof.
  revert text; induction terms as [|term terms IH]; intros text; simpl; [lia|].
  pose proof (proj1 (highlightStep_length text term)). specialize (IH (highlightStep text term)).
  lia.
Qed.

Lemma fold_highlight_unchanged (terms : list jsstring) (text : jsstring) :
  fold_left highlightStep terms text = text <->
  forall term, In term terms -> 2 <= length term -> countMatches text term = 0.
Proof.
  revert text; induction terms as [|term terms IH]; intros text; simpl.
  - split; [intros _ t [] | reflexivity].
  - split.
    + intros H.
      assert (Hfirst : 2 <= length term -> countMatches text term = 0).
      { intro Hlen. destruct (countMatches text term) eqn:Ec; [reflexivity|].
        exfalso. pose proof (proj2 (highlightStep_length text term) Hlen) as Hlt.
        rewrite Ec in Hlt. specialize (Hlt ltac:(lia)).
        pose proof (fold_highlight_length terms (highlightStep text term)) as Hle.
        rewrite H in Hle. lia. }
      rewrite (highlightStep_none _ _ Hfirst) in H.
      intros t [<- | Ht]; [exact Hfirst | now apply (proj1 (IH text) H)].
    + intro H. rewrite highlightStep_none by (apply H; now left).
      apply IH. intros t Ht. apply H. now right.
Qed.

(** X18: [highlightText] gives the text back unchanged exactly when no term
    of at least 2 code units has a match in it (terms of fewer code units
    never mark anything); and one such term alone makes the text longer by
    the two tags, 31 code units, for each of its matches. *)
Theorem highlight_changes_iff (text : jsstring) (terms : list jsstring) :
  (fst (highlightText text terms) = text <->
   forall term, In term terms -> 2 <= length term -> countMatches text term = 0) /\
  (forall term, 2 <= length term ->
     length (fst (highlightText text [term]))
     = length text + 31 * countMatches text term).
Proof.
  split.
  - rewrite highlightText_fst. destruct text as [|c text].
    + split; [|reflexivity]. intros _ term _ Hlen. unfold countMatches.
      destruct term as [|x term]; [simpl in Hlen; lia | reflexivity].
    + rewrite fold_highlight_unchanged. split; intros H term Ht; apply H.
      * now apply sortDesc_In.
      * now apply sortDesc_In in Ht.
  - intros term Hlen. rewrite highlightText_fst. destruct text as [|c text].
    + unfold countMatches. destruct term as [|x term]; [simpl in Hlen; lia | reflexivity].
    + cbn [sortDesc insertDesc fold_left]. unfold highlightStep.
      destruct (Nat.ltb (length term) 2) eqn:E; [apply Nat.ltb_lt in E; lia|].
      unfold wrapMatches, countMatches.
      rewrite wrapMatchesFrom_length by (destruct term; [simpl in Hlen; lia | discriminate]).
      cbn [skipn]. change (length openTag + length closeTag) with 31. lia.
Qed.

(** *** The older engine *)

Lemma legacyPdf_fold (pdf : Pdf.t) (searchText : jsstring) (terms : list jsstring)
    (st : Z * list jsstring) :
  let occurring := filter (fun term => includes searchText (toLowerCase term)) terms in
  fold_left (legacyPdfStep pdf searchText) terms st
  = ((fst st + sumZ (map (legacyPdfPoints pdf searchText) occurring))%Z,
     snd st ++ occurring).
Proof.
  cbv zeta. revert st; induction terms as [|term terms IH]; intros [score matched];
    cbn [fold_left filter fst snd].
  - cbn. now rewrite Z.add_0_r, app_nil_r.
  - rewrite IH. unfold legacyPdfStep. cbv zeta.
    destruct (includes searchText (toLowerCase term)); cbn [fst snd map].
    + rewrite <- app_assoc. cbn [app]. f_equal.
      unfold sumZ. cbn [fold_right]. unfold legacyPdfPoints. lia.
    + reflexivity.
Qed.

Lemma legacyPdfPoints_occurring (pdf : Pdf.t) (searchText : jsstring)
    (terms : list jsstring) :
  (5 * Z.of_nat (length
         (filter (fun term => includes searchText (toLowerCase term)) terms))
   <= sumZ (map (legacyPdfPoints pdf searchText)
                (filter (fun term => includes searchText (toLowerCase term)) terms)))%Z.
Proof.
  induction terms as [|term terms IH]; cbn [filter]; [simpl; lia|].
  destruct (includes searchText (toLowerCase term)) eqn:E; [|exact IH].
  unfold sumZ in *. cbn [map fold_right length].
  apply countMatches_includes in E. unfold legacyPdfPoints at 1.
  pose proof (bonus_nonneg (includes (toLowerCase (Pdf.title pdf)) (toLowerCase term))
                           (points := 30)).
  lia.
Qed.

(** X19: in the older engine a PDF record is returned exactly when some
    term of the expanded query occurs in its search text (that is what its
    test [score > 0] comes to); its score is then at least 5, and its
    preview is built from the terms that occur only, in the order of the
    array. *)
Theorem legacy_pdf_gate (category : PdfType) (terms : list jsstring) (pdf : Pdf.t) :
  let occurring :=
    filter (fun term => includes (pdfSearchText pdf) (toLowerCase term)) terms in
  (occurring = [] -> snd (legacySearchPdf category terms pdf) = None) /\
  (occurring <> [] ->
   exists r, snd (legacySearchPdf category terms pdf) = Some r /\
             (5 <= LegacyPdfResult.score r)%Z /\
             LegacyPdfResult.content r = makePreview (Pdf.content pdf) occurring).
Proof.
  cbv zeta. unfold legacySearchPdf. rewrite legacyPdf_fold. cbv zeta. cbn [fst snd app].
  pose proof (legacyPdfPoints_occurring pdf (pdfSearchText pdf) terms) as Hp.
  destruct (filter _ terms) as [|term occurring] eqn:E.
  - split; [intros _ | congruence]. reflexivity.
  - split; [discriminate | intros _]. cbn [length] in Hp.
    destruct (0 <? 0 + sumZ _)%Z eqn:Hs; [|apply Z.ltb_ge in Hs; lia].
    destruct (highlightText (Pdf.title pdf) terms) as [t1 m1].
    destruct (highlightText _ m1) as [t2 m2]. cbn [snd].
    eexists. split; [reflexivity|].
    cbn [LegacyPdfResult.score LegacyPdfResult.content]. split; [lia | reflexivity].
Qed.

Lemma existsb_perm (A : Type) (f : A -> bool) (l l' : list A) :
  Permutation l l' -> existsb f l = existsb f l'.
Proof.
  induction 1; simpl; try congruence.
  - now rewrite !orb_assoc, (orb_comm (f y)).
Qed.

Lemma legacyCalculateScore_variant (article : Article.t) (query : jsstring)
    (terms current : list jsstring) :
  variant terms current ->
  legacyCalculateScore article query current = legacyCalculateScore article query terms.
Proof.
  intro H. rewrite !legacyCalculateScore_sum. f_equal. apply sumZ_perm.
  symmetry. now apply variant_perm.
Qed.

Lemma legacySearchArticle_eq (query : jsstring) (l : Law.t) (terms : list jsstring)
    (article : Article.t) :
  legacySearchArticle query l terms article =
  let h1 := highlightText (Article.title article) terms in
  let h2 := highlightText (excerpt (Article.content article)) (snd h1) in
  if existsb (fun term => includes (articleText article) (toLowerCase term)) terms then
    (snd h2,
     Some (ArticleResult.mk (Law.lawId l) (Law.lawName l) (Law.lawType l)
             (Article.articleNumber article) (Article.title article)
             (Article.content article) (Article.paragraphs article)
             (legacyCalculateScore article query terms) (fst h1) (fst h2)))
  else (terms, None).
Proof.
  unfold legacySearchArticle, articleText. cbv zeta.
  destruct (existsb _ terms); [|reflexivity].
  destruct (highlightText (Article.title article) terms) as [t1 m1].
  cbn [fst snd]. now destruct (highlightText _ m1).
Qed.

Lemma legacySearchArticle_variant (query : jsstring) (l : Law.t)
    (terms current : list jsstring) (article : Article.t) :
  variant terms current ->
  variant terms (fst (legacySearchArticle query l current article)) /\
  snd (legacySearchArticle query l current article)
  = snd (legacySearchArticle query l terms article).
Proof.
  intro Hv. rewrite !legacySearchArticle_eq. cbv zeta.
  rewrite (existsb_perm _ (Permutation_sym (variant_perm Hv))).
  destruct (existsb _ terms); cbn [fst snd]; [|now split].
  destruct (highlight_variant (Article.title article) Hv) as [T1 V1].
  destruct (highlight_variant (excerpt (Article.content article)) V1) as [T2 V2].
  destruct (highlight_variant (Article.title article) (variant_refl terms)) as [_ V1'].
  destruct (highlight_variant (excerpt (Article.content article)) V1') as [T2' _].
  split; [exact V2|].
  rewrite T1, T2, T2', (legacyCalculateScore_variant article query Hv). reflexivity.
Qed.

Lemma legacy_articles (e : Engine.t) (query : jsstring) (filters : Filters.t) :
  legacyArticles (legacySearch e query filters) =
  if searchGuard e query then []
  else sortDesc ArticleResult.score
         (legacyArticleHits e query filters
            (expandSynonyms (Engine.synonyms e) (trim query))).
Proof.
  unfold legacySearch. fold (searchGuard e query). destruct (searchGuard e query); [reflexivity|].
  set (terms := expandSynonyms (Engine.synonyms e) (trim query)).
  destruct (@loop_pure _ _ _ _ (variant terms) (fun r : ArticleResult.t => r)
              (legacyLawLoop query filters)
              (fun law =>
                 if lawAllowed filters law then
                   flat_map (fun article =>
                               optList (snd (legacySearchArticle query law terms article)))
                            (Law.articles law)
                 else [])
              (Engine.laws e) (terms, [])) as [_ H2].
  - intros st law Hrel. unfold legacyLawLoop, lawAllowed.
    destruct (str_eqb (Law.lawType law) lawTypeStatute && negb (Filters.law filters));
      cbn [negb andb]; [split; [exact Hrel | now rewrite app_nil_r]|].
    destruct (str_eqb (Law.lawType law) lawTypeOrdinance && negb (Filters.ordinance filters));
      cbn [negb]; [split; [exact Hrel | now rewrite app_nil_r]|].
    apply loop_pure; [|exact Hrel].
    intros st' article Hrel'. unfold legacyArticleLoop.
    destruct (@legacySearchArticle_variant query law terms (fst st') article Hrel')
      as [G1 G2].
    destruct (legacySearchArticle query law (fst st') article) as [terms' r].
    cbn [fst snd] in *. split; [exact G1|].
    now rewrite push_optList, map_app, <- G2, !map_id.
  - apply variant_refl.
  - rewrite map_id in H2. cbn [snd map app] in H2.
    destruct (fold_left (legacyLawLoop query filters) (Engine.laws e) (terms, []))
      as [terms' results].
    cbn [snd legacyArticles] in *. now rewrite H2.
Qed.

Lemma nonSpace_dropSpaces (s : jsstring) : forallb nonSpace s = true -> dropSpaces s = s.
Proof.
  destruct s as [|c s]; [reflexivity|]. cbn [forallb dropSpaces]. unfold nonSpace at 1.
  intro H. apply andb_true_iff in H as [Hc _]. now destruct (isSpace c).
Qed.

Lemma nonSpace_trim (s : jsstring) : forallb nonSpace s = true -> trim s = s.
Proof.
  intro H. unfold trim. rewrite (@nonSpace_dropSpaces s H).
  rewrite nonSpace_dropSpaces; [apply rev_involutive|].
  apply forallb_forall. intros c Hc. apply in_rev in Hc.
  rewrite forallb_forall in H. now apply H.
Qed.

Lemma nonSpace_splitOr (s cur : jsstring) :
  forallb nonSpace s = true -> splitOrFrom s 0 cur = [cur ++ s].
Proof.
  intro H. apply splitOrFrom_none.
  induction s as [|c s IH]; [reflexivity|]. cbn [forallb] in H.
  apply andb_true_iff in H as [Hc Hs]. cbn [separatorSomewhere].
  unfold matchSeparator. cbn [countSpaces]. unfold nonSpace in Hc.
  destruct (isSpace c); [discriminate|]. now apply IH.
Qed.

Lemma nonSpace_splitSpaces (s cur : jsstring) :
  forallb nonSpace s = true -> splitSpacesFrom s cur false = [cur ++ s].
Proof.
  revert cur; induction s as [|c s IH]; intros cur H; cbn [splitSpacesFrom].
  - now rewrite app_nil_r.
  - cbn [forallb] in H. apply andb_true_iff in H as [Hc Hs]. unfold nonSpace in Hc.
    destruct (isSpace c); [discriminate|]. rewrite IH by exact Hs. now rewrite <- app_assoc.
Qed.

Lemma fold_setAdd_fresh (l acc : list jsstring) :
  NoDup (acc ++ l) -> fold_left (fun terms x => setAdd x terms) l acc = acc ++ l.
Proof.
  revert acc; induction l as [|x l IH]; intros acc H; simpl; [now rewrite app_nil_r|].
  assert (Hx : existsb (str_eqb x) acc = false).
  { destruct (existsb (str_eqb x) acc) eqn:E; [|reflexivity].
    apply existsb_exists in E as [y [Hy Hxy]]. apply str_eqb_eq in Hxy. subst y.
    apply NoDup_remove_2 in H. exfalso. apply H. apply in_or_app. now left. }
  unfold setAdd at 2. rewrite Hx. rewrite IH; rewrite <- app_assoc; [reflexivity | exact H].
Qed.

Lemma parseSearchQuery_word (synonyms : Synonyms) (query : jsstring) :
  forallb nonSpace query = true ->
  parseSearchQuery synonyms query = QueryAND (expandSynonyms synonyms query) [query].
Proof.
  intro H. unfold parseSearchQuery, splitOr, splitSpaces.
  rewrite (@nonSpace_splitOr query [] H), (@nonSpace_trim query H),
          (@nonSpace_splitSpaces query [] H).
  cbn [length Nat.ltb Nat.leb app flat_map]. rewrite app_nil_r. f_equal.
  unfold dedupe. apply (@fold_setAdd_fresh _ []).
  apply (proj1 (expandSynonyms_shape_lemma synonyms query)).
Qed.

Lemma map_flat_map (A B C : Type) (g : B -> C) (f : A -> list B) (l : list A) :
  map g (flat_map f l) = flat_map (fun x => map g (f x)) l.
Proof.
  induction l as [|x l IH]; simpl; [reflexivity|]. now rewrite map_app, IH.
Qed.

Lemma searchArticle_word (synonyms : Synonyms) (query word : jsstring) (l : Law.t)
    (article : Article.t) :
  option_map withoutScore
    (snd (searchArticle synonyms query l
            (QueryAND (expandSynonyms synonyms word) [word]) article))
  = option_map withoutScore
      (snd (legacySearchArticle query l (expandSynonyms synonyms word) article)).
Proof.
  rewrite searchArticle_eq, legacySearchArticle_eq. cbv zeta. rewrite matchRecord_and.
  cbn [forallb]. rewrite andb_true_r. unfold tokenHit.
  destruct (existsb _ (expandSynonyms synonyms word)); reflexivity.
Qed.

(** X20: for a query without white space in it the engine and the older one
    under [docs/] return the same articles with the same highlighting; only
    the scores, and with them the order, can differ. *)
Theorem engines_agree_on_words (e : Engine.t) (query : jsstring) (filters : Filters.t) :
  forallb nonSpace query = true ->
  Permutation (map withoutScore (articles (search e query filters)))
              (map withoutScore (legacyArticles (legacySearch e query filters))).
Proof.
  intro H. rewrite search_articles, legacy_articles.
  destruct (searchGuard e query); [reflexivity|].
  rewrite (@nonSpace_trim query H), (@parseSearchQuery_word (Engine.synonyms e) query H).
  etransitivity; [apply Permutation_map; symmetry; apply sortDesc_perm|].
  etransitivity; [|apply Permutation_map; apply sortDesc_perm].
  unfold articleHits, legacyArticleHits. rewrite !map_flat_map.
  replace (flat_map _ (Engine.laws e))
    with (flat_map (fun law =>
            map withoutScore
              (if lawAllowed filters law
               then flat_map (fun article =>
                      optList (snd (legacySearchArticle query law
                                      (expandSynonyms (Engine.synonyms e) query) article)))
                    (Law.articles law)
               else [])) (Engine.laws e)); [reflexivity|].
  apply flat_map_ext. intro law. destruct (lawAllowed filters law); [|reflexivity].
  rewrite !map_flat_map. apply flat_map_ext. intro article.
  pose proof (searchArticle_word (Engine.synonyms e) query query law article) as W.
  destruct (snd (searchArticle _ _ _ _ _)), (snd (legacySearchArticle _ _ _ _));
    cbn in *; congruence.
Qed.

(** *** What the results show *)

Lemma searchPdf_shown (e : Engine.t) (category : PdfType) (parsedQuery : ParsedQuery)
    (pdf : Pdf.t) (r : PdfResult.t) :
  snd (searchPdf e category parsedQuery pdf) = Some r -> pdfShown r.
Proof.
  rewrite searchPdf_eq. cbv zeta. destruct (fst (matchRecord _ _ _)); [|discriminate].
  intros [= <-]. split; cbn; apply highlightText_strips.
Qed.

Lemma scanPDFs_shown (e : Engine.t) (parsedQuery : ParsedQuery) :
  Forall pdfShown (snd (scanPDFs e parsedQuery)).
Proof.
  unfold scanPDFs.
  apply (@loop_invariant _ _ _ (fun _ => True) pdfShown); [|exact I | constructor].
  intros st category _ HP.
  apply (@loop_invariant _ _ _ (fun _ => True) pdfShown); [|exact I | exact HP].
  intros st' pdf _ HP'. split; [exact I|]. unfold pdfLoop.
  pose proof (@searchPdf_shown e (snd category) (fst st') pdf) as H.
  destruct (searchPdf e (snd category) (fst st') pdf) as [pq' r]. cbn [fst snd] in *.
  apply push_Forall; [exact HP' | exact H].
Qed.

(** X21: in every result of [search] the highlighted title is the title of
    the record with tags put in, and the highlighted content is, with tags
    put in, the excerpt of the article (its first 300 code units, and an
    ellipsis if there are more) or the preview of the PDF record: taking the
    tags out gives these texts back. *)
Theorem search_shows_record_text (e : Engine.t) (query : jsstring) (filters : Filters.t) :
  Forall articleShown (articles (search e query filters)) /\
  Forall pdfShown (pdfs (search e query filters)).
Proof.
  split.
  - apply Forall_forall. intros r Hr. rewrite search_articles in Hr.
    destruct (searchGuard e query); [contradiction|].
    apply sortDesc_In in Hr. unfold articleHits in Hr.
    apply in_flat_map in Hr as [law [_ Hin]].
    destruct (lawAllowed filters law); [|contradiction].
    apply in_flat_map in Hin as [article [_ Hin]].
    rewrite searchArticle_eq in Hin. cbv zeta in Hin.
    destruct (fst (matchRecord _ _ _)); cbn [snd optList] in Hin; [|contradiction].
    destruct Hin as [<- | []]. split; cbn; apply highlightText_strips.
  - unfold search. destruct (negb (Engine.isReady e) || _ || _); [constructor|].
    destruct (scanLaws e query filters _) as [pq' results]. cbn [pdfs]. unfold searchPDFs.
    apply sortDesc_Forall, scanPDFs_shown.
Qed.

(** No operation on the output alone gives the text back for every call:
    the text [ab] highlighted for the term [ab], and the text that already
    reads as that markup, highlighted for a term too short to be looked
    for, give the same output. *)
Lemma highlight_no_strip_function (strip : jsstring -> jsstring) :
  exists text terms,
    terms <> [] /\ strip (fst (highlightText text terms)) <> text.
Proof.
  set (word := js "ab").
  set (marked := openTag ++ word ++ closeTag).
  assert (Hmarked : fst (highlightText marked [js "a"]) = marked) by reflexivity.
  assert (Hword : fst (highlightText word [word]) = marked).
  { unfold highlightText, word, marked. cbn [js fst sortDesc fold_left].
    cbv -[N.eqb]. rewrite !N.eqb_refl. reflexivity. }
  destruct (list_eq_dec N.eq_dec (strip marked) word) as [E | E].
  - exists marked, [js "a"]. split; [discriminate|].
    rewrite Hmarked, E. discriminate.
  - exists word, [word]. split; [discriminate|].
    rewrite Hword. exact E.
Qed.

End SearchEngine.

(** ** Concrete evaluations (ASCII case mappings) *)

(** C1, at a concrete input: with the groups of [lamp OR pad], an article
    that holds only the second word is matched. *)
Lemma or_mode_matching_witness :
  exists r,
    snd (searchArticle asciiLower asciiCanon [] (js "lamp OR pad") sampleLaw
           (QueryOR [[js "lamp"]; [js "pad"]] [js "lamp"; js "pad"]) brakeArticle)
    = Some r.
Proof.
  destruct (or_mode_matching asciiLower asciiCanon []
              [[js "lamp"]; [js "pad"]] [js "lamp"; js "pad"]) as [H _].
  apply H. exists [js "pad"]. split; [right; left; reflexivity|].
  exists (js "pad"). split; [left; reflexivity | vm_compute; reflexivity].
Defined.

(** C1 as stated fails: the first group of [brake OR lamp] is [brake],
    [braking system]; the article holds the first term and not the second,
    no group has all of its terms in it, and it is returned. *)
Lemma or_mode_all_terms_counterexample :
  parseSearchQuery asciiLower sampleSynonyms (js "brake OR lamp")
  = QueryOR [[js "brake"; js "braking system"]; [js "lamp"]] [js "brake"; js "lamp"] /\
  length (articles (search asciiLower asciiCanon sampleEngine (js "brake OR lamp")
                           defaultFilters)) = 1 /\
  existsb (forallb (fun term => includes (articleText asciiLower brakeArticle)
                                         (asciiLower term)))
          [[js "brake"; js "braking system"]; [js "lamp"]] = false.
Proof. split; [|split]; vm_compute; reflexivity. Qed.

(** C2, at a concrete input: both tokens of [brake pad] have an expansion
    in the article. *)
Lemma and_mode_matching_witness :
  exists r,
    snd (searchArticle asciiLower asciiCanon sampleSynonyms (js "brake pad") sampleLaw
           (QueryAND [js "brake"; js "braking system"; js "pad"] [js "brake"; js "pad"])
           brakeArticle)
    = Some r.
Proof.
  destruct (and_mode_matching asciiLower asciiCanon sampleSynonyms
              [js "brake"; js "braking system"; js "pad"] [js "brake"; js "pad"]) as [H _].
  apply H. repeat constructor.
  - exists (js "brake"). split; [vm_compute; auto | vm_compute; reflexivity].
  - exists (js "pad"). split; [vm_compute; auto | vm_compute; reflexivity].
Defined.

(** The scenario of the specification: [lamp light] leaves out a record
    that holds [lamp] and neither [light] nor a synonym of it. *)
Example and_mode_excludes :
  snd (searchPdf asciiLower asciiCanon lampEngine standard
         (parseSearchQuery asciiLower lampSynonyms (js "lamp light")) lampPdf) = None.
Proof. vm_compute. reflexivity. Qed.

(** C3, at a concrete input: 150 for the query, and 2 matches and the title
    for each of [brake] and [pad]. *)
Lemma article_score_witness :
  match snd (searchArticle asciiLower asciiCanon sampleSynonyms (js "brake pad") sampleLaw
               (QueryAND [js "brake"; js "braking system"; js "pad"]
                         [js "brake"; js "pad"]) brakeArticle) with
  | Some r => ArticleResult.score r = (150 + (2 * 15 + 80) + 0 + (2 * 15 + 80))%Z
  | None => False
  end.
Proof.
  destruct (searchArticle asciiLower asciiCanon sampleSynonyms (js "brake pad") sampleLaw
              (QueryAND [js "brake"; js "braking system"; js "pad"]
                        [js "brake"; js "pad"]) brakeArticle) as [pq' [r|]] eqn:E;
    cbn [snd].
  - rewrite (article_score _ _ _ _ _ _ _ E). vm_compute. reflexivity.
  - vm_compute in E. discriminate.
Defined.

(** The same article and terms in the older copy under [docs/]. *)
Example legacy_score :
  legacyCalculateScore asciiLower asciiCanon brakeArticle (js "brake pad")
    [js "brake"; js "braking system"; js "pad"]
  = (100 + (2 * 10 + 50) + 0 + (2 * 10 + 50))%Z.
Proof. vm_compute. reflexivity. Qed.

(** C3 as stated fails: with a dictionary that has an empty synonym the
    empty term is matched; it is a substring of the empty display number of
    the article, and the code, which skips a display number that is empty,
    adds no 60 for it: 385 instead of the 445 of the claim. *)
Lemma article_score_counterexample :
  parseSearchQuery asciiLower (Engine.synonyms emptySynonymEngine) (js "t")
  = QueryAND [js "t"; js "k"; []] [js "t"] /\
  map ArticleResult.score
      (articles (search asciiLower asciiCanon emptySynonymEngine (js "t") defaultFilters))
  = [385%Z] /\
  includes (asciiLower (Article.articleNumber unnumberedArticle)) (asciiLower []) = true /\
  (150
   + sumZ (map (fun term =>
        Z.of_nat (countMatches asciiCanon (articleText asciiLower unnumberedArticle)
                               (asciiLower term)) * 15
        + bonus (includes (asciiLower (Article.title unnumberedArticle))
                          (asciiLower term)) 80
        + bonus (includes (asciiLower (Article.articleNumber unnumberedArticle))
                          (asciiLower term)) 60)
      [js "t"; js "k"; []]))%Z = 445%Z.
Proof. split; [|split; [|split]]; vm_compute; reflexivity. Qed.

(** C4, at the dictionary [{brake: [braking system]}] and the term
    [braking]: the term is a substring of the synonym [braking system], the
    case the comment above the second test of [expandSynonyms] names and the
    case in which the entry is to be taken; the code looks for the synonym
    inside the term instead, does not take the entry and returns the term
    alone. *)
Theorem expandSynonyms_misses_containing_synonym :
  includes (asciiLower (js "braking system")) (asciiLower (js "braking")) = true /\
  includes (asciiLower (js "braking")) (asciiLower (js "brake")) = false /\
  expandSynonyms asciiLower sampleSynonyms (js "braking") = [js "braking"].
Proof. split; [|split]; vm_compute; reflexivity. Qed.

(** The scenario of the specification: [brake] brings [braking system]. *)
Example expand_brake :
  expandSynonyms asciiLower sampleSynonyms (js "BRAKE")
  = [js "brake"; js "braking system"].
Proof. vm_compute. reflexivity. Qed.

(** C5, at a concrete input: the second body is rejected on a new engine. *)
Lemma loadData_failure_witness :
  snd (loadData newEngine brokenSynonyms) = false /\
  search asciiLower asciiCanon (fst (loadData newEngine brokenSynonyms))
         (js "brake") defaultFilters = emptyResult.
Proof.
  destruct (loadData_failure asciiLower asciiCanon newEngine brokenSynonyms eq_refl)
    as [H1 [_ [_ [_ [_ [_ H7]]]]]].
  split; [exact H1 | apply H7; reflexivity].
Defined.

(** C5 as stated fails: the laws are stored before the synonyms are
    parsed, and stay when that parse fails. *)
Lemma loadData_partial_counterexample :
  snd (loadData newEngine brokenSynonyms) = false /\
  Engine.laws newEngine = [] /\
  Engine.laws (fst (loadData newEngine brokenSynonyms)) = [sampleLaw].
Proof. split; [|split]; reflexivity. Qed.

(** The removals at a concrete input. *)
Lemma highlight_preserves_text_witness :
  StripsTo (fst (highlightText asciiCanon (js "Headlight on") [js "light"; js "headlight"]))
           (js "Headlight on").
Proof. apply highlight_preserves_text. discriminate. Defined.

(** What that output is: the second term is also found inside the tag the
    first one has put, so the tags are nested in one another and have to be
    taken out from the inside. *)
Example highlight_nested_markup :
  fst (highlightText asciiCanon (js "Headlight on") [js "light"; js "headlight"])
  = js "<span class=" ++ quote ++ js "high" ++ openTag ++ js "light" ++ closeTag
    ++ quote ++ js ">Head" ++ openTag ++ js "light" ++ closeTag ++ closeTag ++ js " on".
Proof. vm_compute. reflexivity. Qed.

(** C8, at a concrete input: [headlight] comes first in the list and starts
    at index 124. *)
Lemma pdf_preview_witness :
  match snd (searchPdf asciiLower asciiCanon lampEngine standard
               (QueryAND [js "headlight"; js "lamp"] [js "lamp"]) longPdf) with
  | Some r =>
      PdfResult.content r = ellipsis ++ firstn 200 (skipn 74 longContent) ++ ellipsis
  | None => False
  end.
Proof.
  destruct (searchPdf asciiLower asciiCanon lampEngine standard
              (QueryAND [js "headlight"; js "lamp"] [js "lamp"]) longPdf)
    as [pq' [r|]] eqn:E; cbn [snd].
  - pose proof (pdf_preview _ _ _ _ _ _ E) as H. cbv zeta in H.
    assert (F : find (qualifies asciiLower (Pdf.content longPdf))
                     (snd (matchRecord asciiLower (Engine.synonyms lampEngine)
                             (QueryAND [js "headlight"; js "lamp"] [js "lamp"])
                             (pdfSearchText asciiLower longPdf)))
                = Some (js "headlight")) by (vm_compute; reflexivity).
    rewrite F in H. destruct H as [index [Hi [_ Hc]]].
    assert (G : indexOf (asciiLower (Pdf.content longPdf)) (asciiLower (js "headlight"))
                = Some 124) by (vm_compute; reflexivity).
    rewrite G in Hi. injection Hi as <-. rewrite Hc. vm_compute. reflexivity.
  - vm_compute in E. discriminate.
Defined.

(** C9, at a concrete input: leading zeros go, the suffix stays. *)
Lemma formatPDFDisplayName_witness :
  formatPDFDisplayName (js "S012-3")
  = labelDetail ++ articlePrefix ++ js "12" ++ articleSuffix ++ js "-3".
Proof.
  destruct formatPDFDisplayName_table as [H _].
  apply (H 83%N (js "012") (js "-3")).
  - reflexivity.
  - split; [discriminate | reflexivity].
  - right. exists (js "3"). split; [reflexivity|]. split; [discriminate | reflexivity].
  - vm_compute. reflexivity.
Defined.

(** C10, at a concrete input: after the first matched record the array of
    the parsed query is in the sorted order. *)
Lemma highlightText_sorts_in_place_witness :
  fst (searchPdf asciiLower asciiCanon lampEngine standard
         (QueryAND [js "lamp"; js "headlight"] [js "lamp"]) lampPdf)
  = QueryAND [js "headlight"; js "lamp"] [js "lamp"].
Proof.
  destruct (highlightText_sorts_in_place asciiLower asciiCanon) as [_ [_ [_ [H _]]]].
  destruct (searchPdf asciiLower asciiCanon lampEngine standard
              (QueryAND [js "lamp"; js "headlight"] [js "lamp"]) lampPdf)
    as [pq' [r|]] eqn:E; cbn [fst].
  - rewrite (H _ _ _ _ _ _ _ E); [reflexivity | left; discriminate].
  - vm_compute in E. discriminate.
Defined.

(** C10 as stated fails for a call with an empty text, which returns before
    the sort: the array stays in increasing length. *)
Lemma highlightText_empty_text_counterexample :
  snd (highlightText asciiCanon [] [js "a"; js "bb"]) = [js "a"; js "bb"] /\
  sortDesc lengthKey [js "a"; js "bb"] = [js "bb"; js "a"].
Proof. split; vm_compute; reflexivity. Qed.

(** What a later record sees: the expansion of [lamp] is [lamp],
    [headlight]; the first record sorts it, and the preview of the second is
    built around [headlight], not around [lamp] as the order of the
    expansion would have it. *)
Example preview_observes_sorted_terms :
  parseSearchQuery asciiLower lampSynonyms (js "lamp")
  = QueryAND [js "lamp"; js "headlight"] [js "lamp"] /\
  map PdfResult.content
      (pdfs (search asciiLower asciiCanon lampEngine (js "lamp") defaultFilters))
  = [ makePreview asciiLower (Pdf.content lampPdf) [js "lamp"; js "headlight"];
      makePreview asciiLower longContent [js "headlight"; js "lamp"] ] /\
  str_eqb (makePreview asciiLower longContent [js "headlight"; js "lamp"])
          (makePreview asciiLower longContent [js "lamp"; js "headlight"]) = false.
Proof. split; [|split]; vm_compute; reflexivity. Qed.

(** ** Concrete evaluations of the further properties *)

(** X1, at a concrete input. *)
Lemma getStats_after_load_witness :
  getStats (fst (loadData newEngine goodResponses))
  = Some {| lawCount := 1; articleCount := 1; synonymCount := 1; standardsCount := 2;
            detailsCount := 0; appendicesCount := 0; otherCount := 0 |}.
Proof.
  exact (proj1 (getStats_after_load newEngine goodResponses) _ _ _ _
               eq_refl eq_refl eq_refl eq_refl).
Defined.

(** X2, at a concrete input. *)
Lemma loadData_overwrites_witness :
  loadData sampleEngine goodResponses = loadData newEngine goodResponses.
Proof. exact (proj1 (loadData_overwrites sampleEngine newEngine goodResponses eq_refl)). Defined.

(** X3, at a concrete input: the detail item of S11 has an empty URL and
    stands before the one of S12. *)
Lemma getPDFUrl_lookup_witness : getPDFUrl metaEngine (js "S12") = Some (js "s12.pdf").
Proof.
  destruct (getPDFUrl_lookup metaEngine (js "S12")) as [_ [_ H]].
  apply (H [PdfMeta.mkItem (js "S11") []] (PdfMeta.mkItem (js "S12") (js "s12.pdf")) []).
  - reflexivity.
  - intros other [<- | []]. discriminate.
  - reflexivity.
  - discriminate.
Defined.

(** The same table where the URL of the first detail item is empty: the
    appendix list is asked. *)
Example getPDFUrl_falls_through : getPDFUrl metaEngine (js "S11") = Some (js "b11.pdf").
Proof. reflexivity. Qed.

(** X7, at a concrete input: a small [or] between two words. *)
Lemma parseSearchQuery_mode_witness : 2 <= length (splitOr (js "lamp or light")).
Proof.
  destruct (parseSearchQuery_mode asciiLower [] (js "lamp or light")) as [H _].
  apply H. exists (js "lamp"), (js " "), 111%N, 114%N, (js " "), (js "light").
  repeat split; try reflexivity; discriminate.
Defined.

(** X8, at a concrete input. *)
Lemma and_query_tokens_witness :
  concat [js "brake"; js "pad"] = filter nonSpace (js " brake  pad ").
Proof.
  assert (H1 : parseSearchQuery asciiLower sampleSynonyms (js " brake  pad ")
               = QueryAND [js "brake"; js "braking system"; js "pad"]
                          [js "brake"; js "pad"]) by (vm_compute; reflexivity).
  assert (H2 : trim (js " brake  pad ") <> []) by (vm_compute; discriminate).
  destruct (and_query_tokens asciiLower sampleSynonyms (js " brake  pad ") H1 H2)
    as [_ [H _]].
  exact H.
Defined.

(** X9, at a concrete input. *)
Lemma search_blank_witness :
  search asciiLower asciiCanon sampleEngine (js "   ") defaultFilters = emptyResult.
Proof. apply search_blank. right. reflexivity. Defined.

(** X10, at a concrete input. *)
Lemma score_order_free_witness :
  calculateScore asciiLower asciiCanon brakeArticle (js "brake pad") [js "brake"; js "pad"]
  = calculateScore asciiLower asciiCanon brakeArticle (js "brake pad") [js "pad"; js "brake"].
Proof.
  destruct (score_order_free asciiLower asciiCanon
              (perm_swap (js "pad") (js "brake") [])) as [H _].
  apply H.
Defined.

(** X11, at a concrete input. *)
Lemma search_articles_exact_witness :
  articles (search asciiLower asciiCanon sampleEngine (js "brake pad") defaultFilters)
  = sortDesc ArticleResult.score
      (articleHits asciiLower asciiCanon sampleEngine (js "brake pad") defaultFilters
         (parseSearchQuery asciiLower sampleSynonyms (js "brake pad"))).
Proof.
  assert (H : trim (js "brake pad") <> []) by (vm_compute; discriminate).
  exact (proj1 (search_articles_exact asciiLower asciiCanon sampleEngine (js "brake pad")
                  defaultFilters eq_refl H)).
Defined.

(** X12, at a concrete input: the scenario of the specification. *)
Lemma search_respects_filters_witness :
  Forall (fun r => ArticleResult.lawType r <> lawTypeStatute)
         (articles (search asciiLower asciiCanon sampleEngine (js "brake")
                           (Filters.mk false true))).
Proof.
  destruct (search_respects_filters asciiLower asciiCanon sampleEngine (js "brake")
              (Filters.mk false true)) as [H _].
  apply H. reflexivity.
Defined.

(** What the filters can change in the PDF results: with the statutes on,
    the article sorts the array before the PDF record is looked at, and its
    preview is built around [headlight]; with the statutes off it is built
    around [lamp]. *)
Example previews_depend_on_filters :
  map PdfResult.content
      (pdfs (search asciiLower asciiCanon lampLawEngine (js "lamp") (Filters.mk true true)))
  = [makePreview asciiLower longContent [js "headlight"; js "lamp"]] /\
  map PdfResult.content
      (pdfs (search asciiLower asciiCanon lampLawEngine (js "lamp") (Filters.mk false true)))
  = [makePreview asciiLower longContent [js "lamp"; js "headlight"]].
Proof. split; vm_compute; reflexivity. Qed.

(** X14, at a concrete input. *)
Lemma search_within_stats_witness :
  length (articles (search asciiLower asciiCanon sampleEngine (js "brake") defaultFilters))
  <= 1.
Proof.
  exact (proj1 (@search_within_stats asciiLower asciiCanon sampleEngine (js "brake")
                  defaultFilters
                  {| lawCount := 1; articleCount := 1; synonymCount := 1;
                     standardsCount := 0; detailsCount := 0; appendicesCount := 0;
                     otherCount := 0 |} eq_refl)).
Defined.

(** X15, at a concrete input. *)
Lemma search_pdf_provenance_witness :
  match pdfs (search asciiLower asciiCanon lampEngine (js "lamp") defaultFilters) with
  | r :: _ =>
      exists pdf, In pdf (PdfContent.standards (Engine.pdfContent lampEngine)) /\
                  PdfResult.id r = Pdf.id pdf /\ PdfResult.type r = standard
  | [] => False
  end.
Proof.
  destruct (pdfs (search asciiLower asciiCanon lampEngine (js "lamp") defaultFilters))
    as [|r rest] eqn:E; [vm_compute in E; discriminate|].
  destruct (search_pdf_provenance asciiLower asciiCanon lampEngine (js "lamp")
              defaultFilters r) as [records [category [pdf [Hc [Hp [H1 [_ [H3 _]]]]]]]].
  - rewrite E. now left.
  - exists pdf. cbn in Hc.
    destruct Hc as [Hc | [Hc | [Hc | [Hc | []]]]]; injection Hc as <- <-;
      try contradiction. auto.
Defined.

(** X16, at a concrete input: the dictionary of [emptySynonymEngine]. *)
Lemma empty_word_matches_all_witness :
  fst (matchRecord asciiLower [(js "k", [[]])]
         (parseSearchQuery asciiLower [(js "k", [[]])] (js "zebra crossing"))
         (js "nothing of the kind")) = true.
Proof.
  destruct (@empty_word_matches_all asciiLower [(js "k", [[]])] (js "k") [[]] eq_refl)
    as [_ H].
  - now left.
  - right. now left.
  - apply H.
Defined.

(** X19, at a concrete input. *)
Lemma legacy_pdf_gate_witness :
  exists r,
    snd (legacySearchPdf asciiLower asciiCanon standard [js "lamp"; js "headlight"] longPdf)
    = Some r /\ (5 <= LegacyPdfResult.score r)%Z.
Proof.
  pose proof (legacy_pdf_gate asciiLower asciiCanon standard
                [js "lamp"; js "headlight"] longPdf) as G.
  cbv zeta in G. destruct G as [_ G]. destruct G as [r [H1 [H2 _]]].
  - vm_compute. discriminate.
  - exists r. auto.
Defined.

(** X20, at a concrete input. *)
Lemma engines_agree_on_words_witness :
  Permutation
    (map withoutScore
         (articles (search asciiLower asciiCanon sampleEngine (js "brake") defaultFilters)))
    (map withoutScore
         (legacyArticles (legacySearch asciiLower asciiCanon sampleEngine (js "brake")
                                       defaultFilters))).
Proof. apply engines_agree_on_words. reflexivity. Defined.

(** X13, at a concrete input: the filters of [previews_depend_on_filters]. *)
Lemma search_pdfs_filter_free_witness :
  map withoutPreview
      (pdfs (search asciiLower asciiCanon lampLawEngine (js "lamp") (Filters.mk true true)))
  = map withoutPreview
      (pdfs (search asciiLower asciiCanon lampLawEngine (js "lamp") (Filters.mk false true))).
Proof.
  exact (proj1 (search_pdfs_filter_free asciiLower asciiCanon lampLawEngine (js "lamp")
                  (Filters.mk true true) (Filters.mk false true))).
Defined.

(** X18, at a concrete input: one match, whatever its case. *)
Lemma highlight_changes_iff_witness :
  length (fst (highlightText asciiCanon (js "Brake pads") [js "brake"]))
  = length (js "Brake pads") + 31 * countMatches asciiCanon (js "Brake pads") (js "brake").
Proof.
  destruct (highlight_changes_iff asciiCanon (js "Brake pads") [js "brake"]) as [_ H].
  apply H. vm_compute. lia.
Defined.

(** C6, at the text [Headlight on] and the terms [light] and [headlight]:
    [headlight] is marked first, then [light] is found once more inside the
    class name of the tag just put, and the opening tag put there cuts that
    tag in two.  Deleting the opening tags and the closing tags leaves a
    piece of markup in front of the text; deleting every tag from [<] to
    [>] leaves the rest of the class name. *)
Theorem highlight_fragments_markup :
  let output :=
    fst (highlightText asciiCanon (js "Headlight on") [js "light"; js "headlight"]) in
  output
  = js "<span class=" ++ quote ++ js "high" ++ openTag ++ js "light" ++ closeTag
    ++ quote ++ js ">Head" ++ openTag ++ js "light" ++ closeTag ++ closeTag ++ js " on" /\
  stripMarkup output = openTag ++ js "Headlight on" /\
  stripTags output = js "light" ++ quote ++ js ">Headlight on" /\
  stripMarkup output <> js "Headlight on" /\
  stripTags output <> js "Headlight on".
Proof. cbv zeta. repeat split; vm_compute; (reflexivity || discriminate). Qed.

(** With a single term the markup is whole and both strips give the text
    back. *)
Example highlight_single_term :
  let output := fst (highlightText asciiCanon (js "Headlight on") [js "light"]) in
  output = js "Head" ++ openTag ++ js "light" ++ closeTag ++ js " on" /\
  stripMarkup output = js "Headlight on" /\
  stripTags output = js "Headlight on".
Proof. cbv zeta. repeat split; vm_compute; reflexivity. Qed.
